(** * Pillager Tournament Tracker: header parsing, row parsing, rendering
      and the load cycle of [app.js], embedded in Rocq.

    Conventions of the embedding.

    - A JavaScript string is a sequence of UTF-16 code units.  The
      development works with the code units below 256 (ISO-8859-1), which
      an [ascii] carries exactly; [string] is the type of such strings.
      White space, line terminators, digits and letter case are those of
      ECMAScript restricted to that range.
    - A JavaScript Number is an IEEE 754 binary64 value.  It is modelled by
      [spec_float] with precision 53 and maximal exponent 1024, and the
      conversions from text round to nearest, ties to even, as the
      language requires.
    - Markup written into the page is represented by its structure (a
      constructor per template literal of the source), not by its text. *)

From Stdlib Require Import Bool Arith ZArith NArith Lia List.
From Stdlib Require Import Ascii String DecimalString DecimalPos.
From Stdlib Require Import Floats.SpecFloat.
From Stdlib Require Import Sorting.Sorted Sorting.Permutation.
Import ListNotations.

Local Open Scope string_scope.
Local Open Scope list_scope.
Local Open Scope bool_scope.

(* ================================================================== *)
(** ** Strings *)

Module JsString.

Definition code (c : ascii) : N := N_of_ascii c.

(** [\s] of regular expressions and the characters removed by [trim]:
    TAB, LF, VT, FF, CR, SPACE and NO-BREAK SPACE. *)
Definition isWhiteSpace (c : ascii) : bool :=
  let n := code c in
  ((9 <=? n) && (n <=? 13) || (n =? 32) || (n =? 160))%N.

(** The characters [.] does not match: LF and CR. *)
Definition isLineTerminator (c : ascii) : bool :=
  let n := code c in ((n =? 10) || (n =? 13))%N.

(** [\d]. *)
Definition isDigit (c : ascii) : bool :=
  let n := code c in ((48 <=? n) && (n <=? 57))%N.

Definition digitValue (c : ascii) : N := (code c - 48)%N.

(** [toLowerCase] on one code unit: A-Z, and the upper-case letters of
    the Latin-1 supplement (all of 192..222 but the multiplication sign). *)
Definition toLowerChar (c : ascii) : ascii :=
  let n := code c in
  if ((65 <=? n) && (n <=? 90)
      || (192 <=? n) && (n <=? 222) && negb (n =? 215))%N
  then ascii_of_N (n + 32) else c.

Fixpoint toLowerCase (s : string) : string :=
  match s with
  | EmptyString => EmptyString
  | String c r => String (toLowerChar c) (toLowerCase r)
  end.

Fixpoint trimStart (s : string) : string :=
  match s with
  | EmptyString => EmptyString
  | String c r => if isWhiteSpace c then trimStart r else s
  end.

Fixpoint trimEnd (s : string) : string :=
  match s with
  | EmptyString => EmptyString
  | String c r =>
      match trimEnd r with
      | EmptyString => if isWhiteSpace c then EmptyString else String c EmptyString
      | r' => String c r'
      end
  end.

Definition trim (s : string) : string := trimEnd (trimStart s).

(** Truthiness of a string: [!s] is [isEmpty s]. *)
Definition isEmpty (s : string) : bool :=
  match s with EmptyString => true | _ => false end.

(** The longest prefix whose characters satisfy [p], and what follows. *)
Fixpoint span (p : ascii -> bool) (s : string) : string * string :=
  match s with
  | EmptyString => (EmptyString, EmptyString)
  | String c r =>
      if p c then let '(a, b) := span p r in (String c a, b)
      else (EmptyString, s)
  end.

Fixpoint forallb (p : ascii -> bool) (s : string) : bool :=
  match s with
  | EmptyString => true
  | String c r => p c && forallb p r
  end.

(** [s] without its last character, and that character. *)
Fixpoint unsnoc (s : string) : option (string * ascii) :=
  match s with
  | EmptyString => None
  | String c r =>
      match unsnoc r with
      | None => Some (EmptyString, c)
      | Some (a, l) => Some (String c a, l)
      end
  end.

(** [padStart(n, "0")]. *)
Fixpoint repeat0 (n : nat) : string :=
  match n with O => EmptyString | S k => String "0" (repeat0 k) end.

Definition padStart0 (n : nat) (s : string) : string :=
  (repeat0 (n - String.length s) ++ s)%string.

(** [parts.join(sep)]. *)
Fixpoint join (sep : string) (parts : list string) : string :=
  match parts with
  | [] => EmptyString
  | [p] => p
  | p :: ps => (p ++ sep ++ join sep ps)%string
  end.

End JsString.

(* ================================================================== *)
(** ** Numbers *)

Module JsNumber.
Import JsString.

Definition number : Type := spec_float.

Definition prec : Z := 53.
Definition emax : Z := 1024.

Definition NaN : number := S754_nan.
Definition Infinity : number := S754_infinity false.
Definition zero : number := S754_zero false.

(** The Number nearest to the integer [z]. *)
Definition ofZ (z : Z) : number := binary_normalize prec emax z 0 false.

(** The Number nearest to [m * 10^e10], for [m >= 0]. *)
Definition ofDecimal (m : N) (e10 : Z) : number :=
  match m with
  | N0 => zero
  | Npos p =>
      match e10 with
      | Zneg k =>
          SFdiv prec emax (S754_finite false p 0)
                          (S754_finite false (Pos.pow 10 k) 0)
      | _ => ofZ (Z.pos p * 10 ^ e10)
      end
  end.

Definition neg (x : number) : number := SFopp x.

(** [x < y] and [x > y] on Numbers: false as soon as one side is NaN. *)
Definition lt (x y : number) : bool := SFltb x y.
Definition gt (x y : number) : bool := SFltb y x.
Definition le (x y : number) : bool := SFleb x y.

Definition isNaN (x : number) : bool :=
  match x with S754_nan => true | _ => false end.

(** Value of a run of digits in base [b], most significant first. *)
Fixpoint digitsValue (b : N) (val : ascii -> N) (acc : N) (s : string) : N :=
  match s with
  | EmptyString => acc
  | String c r => digitsValue b val (acc * b + val c)%N r
  end.

Definition decimalValue (s : string) : N := digitsValue 10 digitValue 0 s.

Definition isBinDigit (c : ascii) : bool :=
  let n := code c in ((n =? 48) || (n =? 49))%N.
Definition isOctDigit (c : ascii) : bool :=
  let n := code c in ((48 <=? n) && (n <=? 55))%N.
Definition isHexDigit (c : ascii) : bool :=
  let n := code c in
  ((48 <=? n) && (n <=? 57) || (65 <=? n) && (n <=? 70)
   || (97 <=? n) && (n <=? 102))%N.
Definition hexValue (c : ascii) : N :=
  let n := code c in
  (if n <=? 57 then n - 48 else if n <=? 70 then n - 55 else n - 87)%N.

(** [0b...], [0o...], [0x...]: digits of the base up to the end. *)
Definition nonDecimal (b : N) (isD : ascii -> bool) (val : ascii -> N)
    (digits : string) : number :=
  if negb (isEmpty digits) && forallb isD digits
  then ofZ (Z.of_N (digitsValue b val 0 digits)) else NaN.

(** ExponentPart of a decimal literal, [None] when malformed. *)
Definition exponentPart (s : string) : option Z :=
  match s with
  | EmptyString => Some 0%Z
  | String c r =>
      if (Ascii.eqb c "e" || Ascii.eqb c "E")%char then
        let '(sgn, ds) :=
          match r with
          | String "+" r' => (false, r')
          | String "-" r' => (true, r')
          | _ => (false, r)
          end in
        if negb (isEmpty ds) && forallb isDigit ds
        then Some (let e := Z.of_N (decimalValue ds) in
                   if sgn then Z.opp e else e)
        else None
      else None
  end.

(** StrUnsignedDecimalLiteral: [Infinity], or digits with an optional
    fraction and an optional exponent. *)
Definition unsignedDecimal (s : string) : number :=
  if String.eqb s "Infinity" then Infinity else
  let '(ip, r1) := span isDigit s in
  let '(hasDot, fp, r2) :=
    match r1 with
    | String "." r => let '(fp, r2) := span isDigit r in (true, fp, r2)
    | _ => (false, EmptyString, r1)
    end in
  if isEmpty ip && isEmpty fp then NaN else
  match exponentPart r2 with
  | None => NaN
  | Some e =>
      ofDecimal (decimalValue (ip ++ fp)%string) (e - Z.of_nat (String.length fp))
  end.

(** [Number(s)] for a string [s] (StringToNumber). *)
Definition Number (s : string) : number :=
  match trim s with
  | EmptyString => zero
  | String "0" (String "b" ds) | String "0" (String "B" ds) =>
      nonDecimal 2 isBinDigit digitValue ds
  | String "0" (String "o" ds) | String "0" (String "O" ds) =>
      nonDecimal 8 isOctDigit digitValue ds
  | String "0" (String "x" ds) | String "0" (String "X" ds) =>
      nonDecimal 16 isHexDigit hexValue ds
  | String "+" r => unsignedDecimal r
  | String "-" r => neg (unsignedDecimal r)
  | t => unsignedDecimal t
  end.

(** [parseInt(ds, 10)] for a run of decimal digits [ds]. *)
Definition parseIntDigits (ds : string) : number :=
  ofZ (Z.of_N (decimalValue ds)).

End JsNumber.

Import JsString JsNumber.

(* ================================================================== *)
(** ** Column headers to court definitions *)

(** A court definition.  A column property that was never assigned is
    [None] ([undefined] in the source). *)
Record Court := mkCourt {
  name      : string;
  hasScores : bool;
  teamACol  : option nat;
  teamBCol  : option nat;
  scoreACol : option nat;
  scoreBCol : option nat
}.

(** The letters of "Court", compared without regard to case (flag [i]). *)
Definition isCourtWord (c0 c1 c2 c3 c4 : ascii) : bool :=
  String.eqb (toLowerCase (String c0 (String c1 (String c2 (String c3
               (String c4 EmptyString)))))) "court".

(** Capture group 2 of the pattern, given the text [rest] that follows the
    digits of group 1: [\s+(.+)$].  The white space is taken greedily, and
    given back one character at a time until [.+] reaches the end of the
    label without meeting a line terminator. *)
Definition fieldGroup (rest : string) : option string :=
  let '(ws, tl) := span isWhiteSpace rest in
  if isEmpty ws then None
  else if negb (isEmpty tl) then
    if forallb (fun c => negb (isLineTerminator c)) tl then Some tl else None
  else
    match unsnoc ws with
    | Some (String _ _, l) =>
        if isLineTerminator l then None else Some (String l EmptyString)
    | _ => None
    end.

(** [label.match(/^(Court\s+\d+)\s+(.+)$/i)]: the two capture groups. *)
Definition matchCourt (label : string) : option (string * string) :=
  match label with
  | String c0 (String c1 (String c2 (String c3 (String c4 r0)))) =>
      if isCourtWord c0 c1 c2 c3 c4 then
        let '(w1, r1) := span isWhiteSpace r0 in
        let '(ds, r2) := span isDigit r1 in
        if isEmpty w1 || isEmpty ds then None
        else
          match fieldGroup r2 with
          | Some g2 =>
              Some (String c0 (String c1 (String c2 (String c3 (String c4
                      (w1 ++ ds)%string)))), g2)
          | None => None
          end
      else None
  | _ => None
  end.

(** The object [map] of [parseCourts]: its keys are court names, which
    are neither array indices nor properties of [Object.prototype], so a
    lookup finds what was stored and nothing else, and [Object.values]
    lists the courts in the order in which the names were first seen.
    An association list keyed by [name] keeps that order. *)
Definition CourtMap : Type := list Court.

Definition lookupCourt (nm : string) (map : CourtMap) : option Court :=
  find (fun c => String.eqb (name c) nm) map.

(** [c.teamACol = i] and its siblings, on the court named [nm]. *)
Fixpoint updateCourt (nm : string) (f : Court -> Court) (map : CourtMap)
  : CourtMap :=
  match map with
  | [] => []
  | c :: cs =>
      if String.eqb (name c) nm then f c :: cs
      else c :: updateCourt nm f cs
  end.

Definition newCourt (nm : string) : Court :=
  mkCourt nm false None None None None.

(** The chain of comparisons on [field]. *)
Definition setField (field : string) (i : nat) (c : Court) : Court :=
  if String.eqb field "team a" || String.eqb field "a" then
    mkCourt (name c) (hasScores c) (Some i) (teamBCol c)
            (scoreACol c) (scoreBCol c)
  else if String.eqb field "team b" || String.eqb field "b" then
    mkCourt (name c) (hasScores c) (teamACol c) (Some i)
            (scoreACol c) (scoreBCol c)
  else if String.eqb field "score a" then
    mkCourt (name c) true (teamACol c) (teamBCol c) (Some i) (scoreBCol c)
  else if String.eqb field "score b" then
    mkCourt (name c) true (teamACol c) (teamBCol c) (scoreACol c) (Some i)
  else c.

(** The body of the [forEach] callback for the header [label] at index [i]. *)
Definition headerStep (map : CourtMap) (i : nat) (label : string) : CourtMap :=
  if (i <? 2)%nat || isEmpty label then map
  else
    match matchCourt label with
    | None => map
    | Some (courtName, g2) =>
        let field := toLowerCase (trim g2) in
        let map1 :=
          match lookupCourt courtName map with
          | Some _ => map
          | None => map ++ [newCourt courtName]
          end in
        updateCourt courtName (setField field i) map1
    end.

(** [headers.forEach] from index [i] on. *)
Fixpoint forEachHeader (map : CourtMap) (i : nat) (headers : list string)
  : CourtMap :=
  match headers with
  | [] => map
  | label :: rest => forEachHeader (headerStep map i label) (S i) rest
  end.

(** [s.match(/\d+/)?.[0]]: the first run of digits of [s], if any. *)
Fixpoint firstDigits (s : string) : option string :=
  match s with
  | EmptyString => None
  | String c r =>
      if isDigit c then Some (fst (span isDigit s)) else firstDigits r
  end.

(** The sort key [n(s)]: [parseInt] of the first run of digits, and
    [parseInt(0, 10)] for a name without digits. *)
Definition courtNumber (s : string) : number :=
  match firstDigits s with
  | Some ds => parseIntDigits ds
  | None => parseIntDigits "0"
  end.

(** The comparator of the sort: [n(a.name) - n(b.name)]. *)
Definition comparator (a b : Court) : number :=
  SFsub prec emax (courtNumber (name a)) (courtNumber (name b)).

(** [sort] moves [a] behind [b] when the comparator returns a Number
    above zero; NaN and zero leave the two as they are. *)
Definition sortsAfter (a b : Court) : bool := gt (comparator a b) zero.

(** [Array.prototype.sort] is stable; for a comparator that orders by a
    key, as this one does ([sortsAfter_gt] below), its result is the one
    of this insertion sort. *)
Fixpoint insertCourt (x : Court) (sorted : list Court) : list Court :=
  match sorted with
  | [] => [x]
  | y :: ys => if sortsAfter x y then y :: insertCourt x ys else x :: sorted
  end.

Fixpoint sortCourts (l : list Court) : list Court :=
  match l with
  | [] => []
  | x :: xs => insertCourt x (sortCourts xs)
  end.

Definition parseCourts (headers : list string) : list Court :=
  sortCourts (forEachHeader [] 0 headers).

Definition exampleHeaders : list string :=
  [""; "Time"; "Court 2 Team A"; "Court 2 Score A"; "Court 2 Team B";
   "Court 2 Score B"; "Court 10 A"; "Court 10 B"].

(* ================================================================== *)
(** ** The table of the visualization endpoint *)

Module Gviz.

(** A raw cell value [v]: absent or [null], a boolean, a number, a
    string, or an array of numbers (the encoding of a time of day, hour
    first).  Numbers of cells are taken to be integers of a magnitude
    below 10^21, which [String] writes in plain decimal; date objects are
    left out. *)
Inductive Value :=
| VNull
| VBool (b : bool)
| VNum (z : Z)
| VStr (s : string)
| VArr (l : list Z).

Record Cell := mkCell { v : Value; f : option string }.

(** A row: its list of cells [c] may be absent, and so may each cell. *)
Record Row := mkRow { c : option (list (option Cell)) }.

Record Col := mkCol { label : option string }.

Record Table := mkTable { cols : list Col; rows : list Row }.

Record ErrorEntry := mkErrorEntry {
  message : option string;
  detailed_message : option string
}.

Record Response := mkResponse {
  status : option string;
  table  : option Table;
  errors : option (list ErrorEntry)
}.

End Gviz.

Import Gviz(Value, VNull, VBool, VNum, VStr, VArr, Cell, Row, Col, Table).

(** [String(z)] for an integral Number. *)
Definition stringOfZ (z : Z) : string := NilZero.string_of_int (Z.to_int z).

(** [String(v)]. *)
Definition String_ (v : Value) : string :=
  match v with
  | VNull => "null"
  | VBool true => "true"
  | VBool false => "false"
  | VNum z => stringOfZ z
  | VStr s => s
  | VArr l => join "," (List.map stringOfZ l)
  end.

(** [row.c?.[idx]]: [None] when the row has no cells, the index is out
    of range, or the entry is [null]. *)
Definition rowCell (row : Row) (idx : nat) : option Cell :=
  match Gviz.c row with
  | None => None
  | Some cs => match nth_error cs idx with Some (Some x) => Some x | _ => None end
  end.

(** The local function [cell] of [parseRounds]. *)
Definition cell (row : Row) (idx : option nat) : string :=
  match idx with
  | None => ""
  | Some i =>
      match rowCell row i with
      | None => ""
      | Some x =>
          match Gviz.v x with
          | VNull => ""
          | val => trim (String_ val)
          end
      end
  end.

(** The array branch of [timeCell], with [h] and [m] the first two
    elements of the array ([None], for [undefined], where the array is
    too short).  The remainder [%] has the sign of [h]; a remainder of
    zero, like the NaN of an [undefined] hour, gives way to 12. *)
Definition timeOfDay (h m : option Z) : string :=
  let ampm :=
    match h with Some hv => if (12 <=? hv)%Z then "PM" else "AM" | None => "AM" end in
  let h12 :=
    match h with
    | Some hv => if (Z.rem hv 12 =? 0)%Z then 12%Z else Z.rem hv 12
    | None => 12%Z
    end in
  match m with
  | Some 0%Z => (stringOfZ h12 ++ ampm)%string
  | _ =>
      let ms := match m with Some mv => stringOfZ mv | None => "undefined" end in
      (stringOfZ h12 ++ ":" ++ padStart0 2 ms ++ ampm)%string
  end.

(** The local function [timeCell] of [parseRounds]. *)
Definition timeCell (row : Row) (idx : nat) : string :=
  match rowCell row idx with
  | None => ""
  | Some col =>
      match Gviz.f col with
      | Some fs => trim fs
      | None =>
          match Gviz.v col with
          | VNull => ""
          | VArr l => timeOfDay (nth_error l 0) (nth_error l 1)
          | val => trim (String_ val)
          end
      end
  end.

(* ================================================================== *)
(** ** Rounds and matchups *)

Record Matchup := mkMatchup {
  court       : string;
  m_hasScores : bool;      (* the property [hasScores] of a matchup *)
  teamA       : string;
  teamB       : string;
  scoreA      : string;
  scoreB      : string
}.

Record Round := mkRound { time : string; matchups : list Matchup }.

Definition matchupOf (row : Row) (ct : Court) : Matchup :=
  {| court := name ct;
     m_hasScores := hasScores ct;
     teamA := cell row (teamACol ct);
     teamB := cell row (teamBCol ct);
     scoreA := match scoreACol ct with
               | Some _ => cell row (scoreACol ct) | None => "" end;
     scoreB := match scoreBCol ct with
               | Some _ => cell row (scoreBCol ct) | None => "" end |}.

Definition headersOf (table : Table) : list string :=
  List.map (fun col => match Gviz.label col with Some l => l | None => "" end)
           (Gviz.cols table).

Definition parseRounds (table : Table) : list Round :=
  let headers := headersOf table in
  let courts := parseCourts headers in
  List.map (fun row =>
              {| time := timeCell row 1;
                 matchups := List.map (matchupOf row) courts |})
           (Gviz.rows table).

(* ================================================================== *)
(** ** Rendering *)

(** [name || dash]: the players of a team row. *)
Inductive TeamPlayers :=
| Dash
| Players (s : string).

(** One [div] of class [team-row]: whether it also has class [winner],
    its players, and the Number of its score tag (if any). *)
Record TeamRow := mkTeamRow {
  winner    : bool;
  players   : TeamPlayers;
  teamScore : option number
}.

(** What a matchup cell holds: the placeholder of class [no-matches], or
    the two team rows of a [match-teams] block. *)
Inductive CellMarkup :=
| NoMatches
| MatchTeams (rowA rowB : TeamRow).

Definition playersOf (team : string) : TeamPlayers :=
  if isEmpty team then Dash else Players team.

(** [score !== '' ? Number(score) : null] *)
Definition scoreNumber (score : string) : option number :=
  if isEmpty score then None else Some (Number score).

(** [both && x > y] for the two optional scores. *)
Definition beats (x y : option number) : bool :=
  match x, y with
  | Some a, Some b => gt a b
  | _, _ => false
  end.

Definition renderMatchup (m : Matchup) (showWinner : bool) : CellMarkup :=
  if isEmpty (teamA m) && isEmpty (teamB m) then NoMatches
  else
    let sA := scoreNumber (scoreA m) in
    let sB := scoreNumber (scoreB m) in
    let aWins := showWinner && beats sA sB in
    let bWins := showWinner && beats sB sA in
    MatchTeams (mkTeamRow aWins (playersOf (teamA m)) sA)
               (mkTeamRow bWins (playersOf (teamB m)) sB).

(** Whether a side of a cell carries the class [winner]. *)
Definition winnerA (cm : CellMarkup) : bool :=
  match cm with MatchTeams a _ => winner a | NoMatches => false end.
Definition winnerB (cm : CellMarkup) : bool :=
  match cm with MatchTeams _ b => winner b | NoMatches => false end.

(** [courtClass]: "court-" followed by the first run of digits. *)
Definition courtClass (nm : string) : string :=
  ("court-" ++ match firstDigits nm with Some n => n | None => "" end)%string.

Record BodyRow := mkBodyRow {
  courtHeader : string;          (* text of the row's header cell *)
  courtHeaderClass : string;     (* its class next to [court-header] *)
  cells : list CellMarkup
}.

(** The content of the element [tournament-content]. *)
Inductive Content :=
| LoadingPlaceholder                 (* the page before the first cycle *)
| SheetEmpty                         (* "Sheet is empty ..." *)
| NoTeamMatches                      (* "No matches found for the selected team." *)
| Schedule (headerCells : list string) (bodyRows : list BodyRow)
| ErrorMsg (msg : string).           (* "Could not load sheet data: " msg *)

(** Reading a property of [undefined] throws a TypeError: computations
    that may do so return [None] then. *)
Definition bind {A B} (x : option A) (k : A -> option B) : option B :=
  match x with Some a => k a | None => None end.

Notation "x <- e ;; k" := (bind e (fun x => k))
  (at level 61, e at next level, right associativity).

(** [l.some(p)]: stops at the first element for which [p] holds. *)
Fixpoint someM {A} (p : A -> option bool) (l : list A) : option bool :=
  match l with
  | [] => Some false
  | x :: xs => b <- p x ;; if b then Some true else someM p xs
  end.

(** [l.filter(p)] *)
Fixpoint filterM {A} (p : A -> option bool) (l : list A) : option (list A) :=
  match l with
  | [] => Some []
  | x :: xs =>
      b <- p x ;; r <- filterM p xs ;; Some (if b then x :: r else r)
  end.

(** [l.map((x, i) => g(x, i))], the index counted from [i]. *)
Fixpoint mapiM {A B} (g : A -> nat -> option B) (i : nat) (l : list A)
  : option (list B) :=
  match l with
  | [] => Some []
  | x :: xs => y <- g x i ;; r <- mapiM g (S i) xs ;; Some (y :: r)
  end.

Definition validRoundsOf (rounds : list Round) : list Round :=
  filter (fun r => negb (isEmpty (time r))) rounds.

(** [m.teamA === filter || m.teamB === filter] *)
Definition playsIn (flt : string) (m : Matchup) : bool :=
  String.eqb (teamA m) flt || String.eqb (teamB m) flt.

(** The predicate of [courtIndices.filter]: some valid round has the
    team at court [i]. *)
Definition courtHasTeam (flt : string) (validRounds : list Round) (i : nat)
  : option bool :=
  someM (fun r => m <- nth_error (matchups r) i ;; Some (playsIn flt m))
        validRounds.

(** [nm.teamA !== '' || nm.teamB !== ''] *)
Definition hasTeam (nm : Matchup) : bool :=
  negb (isEmpty (teamA nm)) || negb (isEmpty (teamB nm)).

(** The flag handed to [renderMatchup] as [showWinner] for the round at
    [roundIdx] (the source calls it [nextRoundHasData]).  [renderAll]
    calls it with an index of [validRounds], so a round that is not the
    last one has a next one. *)
Definition nextRoundHasData (validRounds : list Round) (roundIdx : nat) : bool :=
  let isLastRound := (roundIdx =? List.length validRounds - 1)%nat in
  isLastRound
  || match nth_error validRounds (roundIdx + 1) with
     | Some next => existsb hasTeam (matchups next)
     | None => false
     end.

(** One cell of the grid. *)
Definition renderCell (flt : string) (validRounds : list Round)
    (courtIdx : nat) (round : Round) (roundIdx : nat) : option CellMarkup :=
  m <- nth_error (matchups round) courtIdx ;;
  let show := isEmpty flt || playsIn flt m in
  Some (if show then renderMatchup m (nextRoundHasData validRounds roundIdx)
        else NoMatches).

Definition renderRow (flt : string) (validRounds : list Round)
    (allCourts : list Matchup) (courtIdx : nat) : option BodyRow :=
  ct <- nth_error allCourts courtIdx ;;
  let courtName := court ct in
  cs <- mapiM (renderCell flt validRounds courtIdx) 0 validRounds ;;
  Some (mkBodyRow courtName (courtClass courtName) cs).

Definition isNil {A} (l : list A) : bool :=
  match l with [] => true | _ => false end.

(** [l.map(g)] for a [g] that may throw. *)
Definition mapM {A B} (g : A -> option B) (l : list A) : option (list B) :=
  mapiM (fun x _ => g x) 0 l.

(** The indices of the courts that get a row: all of them, or under a
    filter those where the team plays in some valid round. *)
Definition courtIndicesFor (flt : string) (validRounds : list Round)
    (allCourts : list Matchup) : option (list nat) :=
  let all := seq 0 (List.length allCourts) in
  if isEmpty flt then Some all
  else filterM (courtHasTeam flt validRounds) all.

(** [renderAll(rounds)] under the team filter [activeTeamFilter]: the new
    content of the page, or [None] when a TypeError is thrown (the content
    is not written then).  The scroll offsets that the source saves and
    restores around the update are not part of the content. *)
Definition renderAll (activeTeamFilter : string) (rounds : list Round)
  : option Content :=
  let validRounds := validRoundsOf rounds in
  match validRounds with
  | [] => Some SheetEmpty
  | first :: _ =>
      let allCourts := matchups first in
      courtIndices <- courtIndicesFor activeTeamFilter validRounds allCourts ;;
      if negb (isEmpty activeTeamFilter) && isNil courtIndices
      then Some NoTeamMatches
      else
        bodyRows <- mapM (renderRow activeTeamFilter validRounds allCourts)
                         courtIndices ;;
        Some (Schedule (List.map time validRounds) bodyRows)
  end.

(* ================================================================== *)
(** ** Fetching *)

(** How the promise of [fetchSheetData] is settled. *)
Inductive Settlement :=
| Resolve (table : option Table)
| Reject (message : string).

(** [a || b] where [a] is a string or [undefined]. *)
Definition orElse (a : option string) (b : string) : string :=
  match a with
  | Some x => if isEmpty x then b else x
  | None => b
  end.

(** [response?.errors?.[0]] *)
Definition firstError (response : option Gviz.Response)
  : option Gviz.ErrorEntry :=
  match response with
  | Some r => match Gviz.errors r with
              | Some (e :: _) => Some e
              | _ => None
              end
  | None => None
  end.

Definition unknownError : string := "Unknown error from Google Sheets".

Definition errorDetail (response : option Gviz.Response) : string :=
  let e := firstError response in
  orElse (match e with Some x => Gviz.detailed_message x | None => None end)
    (orElse (match e with Some x => Gviz.message x | None => None end)
       unknownError).

(** The body of the callback registered under [cbName], after its timer
    and its script element have been cleaned up. *)
Definition gvizCallback (response : option Gviz.Response) : Settlement :=
  match response with
  | Some r =>
      match Gviz.status r with
      | Some st => if String.eqb st "ok" then Resolve (Gviz.table r)
                   else Reject (errorDetail response)
      | None => Reject (errorDetail response)
      end
  | None => Reject (errorDetail response)
  end.

(** One call of [fetchSheetData]: its promise, and what it has registered. *)
Record Fetch := mkFetch {
  promise : option Settlement;      (* [None] while pending *)
  timerArmed : bool;
  callbackRegistered : bool;
  scriptAttached : bool
}.

Inductive FetchEvent :=
| Response (response : option Gviz.Response)
| TimedOut
| ScriptError.

Definition fetchSheetData : Fetch := mkFetch None true true true.

(** Settling a promise that is already settled has no effect. *)
Definition settle (s : Settlement) (p : option Settlement) : option Settlement :=
  match p with None => Some s | Some _ => p end.

Definition fetchStep (ft : Fetch) (ev : FetchEvent) : Fetch :=
  match ev with
  | Response r =>
      if callbackRegistered ft
      then mkFetch (settle (gvizCallback r) (promise ft)) false false false
      else ft
  | TimedOut =>
      if timerArmed ft
      then mkFetch (settle (Reject "Request timed out") (promise ft))
                   false false false
      else ft
  | ScriptError =>
      mkFetch (settle (Reject "Network error") (promise ft)) false false false
  end.

(* ================================================================== *)
(** ** The load cycle *)

Inductive StatusText :=
| LoadingText                 (* "Loading..." *)
| UpdatedText (t : string)    (* "Updated " t ", refreshes every 30 s" *)
| FailedText.                 (* "Failed to load, retrying in 30 s" *)

Inductive StatusState := live | loading | error | idle.

(** The mutable state of the page: the globals [cachedRounds] and
    [activeTeamFilter], the content area, the status line and the
    [team-filter] select. *)
Record App := mkApp {
  cachedRounds : option (list Round);
  activeTeamFilter : string;
  tournamentContent : Content;
  statusText : StatusText;
  statusDot : StatusState;
  filterOptions : list string;
  filterValue : string;
  filterDisabled : bool
}.

Definition setStatus (text : StatusText) (state : StatusState) (st : App) : App :=
  mkApp (cachedRounds st) (activeTeamFilter st) (tournamentContent st)
        text state (filterOptions st) (filterValue st) (filterDisabled st).

Definition setContent (ct : Content) (st : App) : App :=
  mkApp (cachedRounds st) (activeTeamFilter st) ct
        (statusText st) (statusDot st)
        (filterOptions st) (filterValue st) (filterDisabled st).

Definition setCachedRounds (rounds : list Round) (st : App) : App :=
  mkApp (Some rounds) (activeTeamFilter st) (tournamentContent st)
        (statusText st) (statusDot st)
        (filterOptions st) (filterValue st) (filterDisabled st).

(** [teams.add(t)] on a Set kept in insertion order. *)
Definition addTeam (t : string) (teams : list string) : list string :=
  if existsb (String.eqb t) teams then teams else teams ++ [t].

Definition addTeamsOf (teams : list string) (m : Matchup) : list string :=
  let t1 := if isEmpty (teamA m) then teams else addTeam (teamA m) teams in
  if isEmpty (teamB m) then t1 else addTeam (teamB m) t1.

Section Browser.

(** Sorting by [localeCompare] depends on the locale of the browser. *)
Variable localeSort : list string -> list string.

(** The message of the TypeError an engine throws on reading a
    property of [undefined]. *)
Variable typeErrorMessage : string.

Definition collectTeams (rounds : list Round) : list string :=
  localeSort
    (fold_left (fun teams r => fold_left addTeamsOf (matchups r) teams)
               rounds []).

(** The select keeps its previous value when one of the new options
    carries it (team names are taken to be free of markup characters),
    and falls back to the first option, "All Teams", otherwise. *)
Definition populateTeamFilter (teams : list string) (st : App) : App :=
  let prev := filterValue st in
  let value := if existsb (String.eqb prev) teams then prev else "" in
  mkApp (cachedRounds st) value (tournamentContent st)
        (statusText st) (statusDot st)
        teams value (isNil teams).

(** The [catch] block of [loadData]. *)
Definition loadFailed (message : string) (st : App) : App :=
  setContent (ErrorMsg message) (setStatus FailedText error st).

(** [loadData] up to its [await]. *)
Definition loadDataStart (st : App) : App := setStatus LoadingText loading st.

(** [loadData] from the settlement of the fetch on; [now] is the time
    of day shown in the status line. *)
Definition loadDataFinish (outcome : Settlement) (now : string) (st : App)
  : App :=
  match outcome with
  | Reject message => loadFailed message st
  | Resolve None => loadFailed typeErrorMessage st
  | Resolve (Some table) =>
      let rounds := parseRounds table in
      let st1 := setCachedRounds rounds st in
      let st2 := populateTeamFilter (collectTeams rounds) st1 in
      match renderAll (activeTeamFilter st2) rounds with
      | Some ct => setStatus (UpdatedText now) live (setContent ct st2)
      | None => loadFailed typeErrorMessage st2
      end
  end.

Definition loadData (outcome : Settlement) (now : string) (st : App) : App :=
  loadDataFinish outcome now (loadDataStart st).

End Browser.

(** [filterByTeam(team)]: a TypeError thrown by [renderAll] leaves the
    content as it is. *)
Definition filterByTeam (team : string) (st : App) : App :=
  let st1 := mkApp (cachedRounds st) team (tournamentContent st)
                   (statusText st) (statusDot st)
                   (filterOptions st) (filterValue st) (filterDisabled st) in
  match cachedRounds st with
  | Some rounds =>
      match renderAll team rounds with
      | Some ct => setContent ct st1
      | None => st1
      end
  | None => st1
  end.

(* ================================================================== *)
(** ** Definitions used in the statements *)

(** What a predicate that may throw decides when it does not. *)
Definition holds {A} (p : A -> option bool) (x : A) : bool :=
  match p x with Some true => true | _ => false end.

(** A field that [||] passes over: missing, or the empty string. *)
Definition absent (o : option string) : Prop := o = None \/ o = Some "".

Definition redBlue (sA sB : string) : Matchup :=
  mkMatchup "Court 1" true "Red" "Blue" sA sB.

Definition failedResponse : Gviz.Response :=
  Gviz.mkResponse (Some "error") None
    (Some [Gviz.mkErrorEntry (Some "Invalid query") (Some "No such sheet")]).

(** Whether the team [flt] plays at court index [i] in some of the rounds. *)
Definition qualifies (flt : string) (validRounds : list Round) (i : nat) : bool :=
  existsb (fun r => match nth_error (matchups r) i with
                    | Some m => playsIn flt m
                    | None => false
                    end) validRounds.

(** Every round has [n] matchups. *)
Definition rectangular (n : nat) (rounds : list Round) : Prop :=
  Forall (fun r => List.length (matchups r) = n) rounds.

(** The court name at index [i] of a list of matchups. *)
Definition courtAt (allCourts : list Matchup) (i : nat) : string :=
  match nth_error allCourts i with Some m => court m | None => "" end.

(** The first cell of the morning's grid: Red against Blue, 21 to 15,
    with no side marked. *)
Definition redBlueUndecided : CellMarkup :=
  MatchTeams (mkTeamRow false (Players "Red") (Some (Number "21")))
             (mkTeamRow false (Players "Blue") (Some (Number "15"))).

Definition morningRows : list BodyRow :=
  [ mkBodyRow "Court 1" "court-1" [redBlueUndecided; NoMatches];
    mkBodyRow "Court 2" "court-2"
      [ MatchTeams (mkTeamRow false (Players "Green") None)
                   (mkTeamRow false (Players "Gold") None);
        NoMatches ] ].

(** The flag [showWinner] as the specification words it: set unless the
    round is the last valid one, or the valid round that follows names
    no team. *)
Definition showWinnerAsSpecified (validRounds : list Round) (roundIdx : nat) : bool :=
  negb ((roundIdx =? List.length validRounds - 1)%nat
        || negb (match nth_error validRounds (roundIdx + 1) with
                 | Some next => existsb hasTeam (matchups next)
                 | None => false
                 end)).

(** A single round, played and scored. *)
Definition finalRound : Round :=
  mkRound "10AM" [redBlue "21" "15"].

(** A morning of two time slots on two courts, with a row of the sheet
    that has no time in between; the second slot is not scheduled yet. *)
Definition morning : list Round :=
  [ mkRound "9AM"  [ redBlue "21" "15";
                     mkMatchup "Court 2" false "Green" "Gold" "" "" ];
    mkRound ""     [ mkMatchup "Court 1" true "" "" "" "";
                     mkMatchup "Court 2" false "Pink" "" "" "" ];
    mkRound "10AM" [ mkMatchup "Court 1" true "" "" "" "";
                     mkMatchup "Court 2" false "" "" "" "" ] ].

(** The clock text as the specification words it, for an hour of the
    day [h] and a minute [m]: the hour on a 12-hour dial, the minute on
    two digits unless it is zero, then AM or PM. *)
Definition hour12 (h : Z) : Z :=
  if (h =? 0)%Z then 12%Z else if (h <=? 12)%Z then h else (h - 12)%Z.

Definition meridiem (h : Z) : string := if (h <? 12)%Z then "AM" else "PM".

Definition digitChar (d : Z) : ascii := ascii_of_N (48 + Z.to_N d).

Definition twoDigits (m : Z) : string :=
  String (digitChar (m / 10)) (String (digitChar (m mod 10)) EmptyString).

Definition clockText (h m : Z) : string :=
  if (m =? 0)%Z then (stringOfZ (hour12 h) ++ meridiem h)%string
  else (stringOfZ (hour12 h) ++ ":" ++ twoDigits m ++ meridiem h)%string.

(** A row whose time cell (index 1) holds the raw time of day [h]:[m]. *)
Definition timeRow (h m : Z) : Row :=
  Gviz.mkRow (Some [None; Some (Gviz.mkCell (VArr [h; m; 0%Z; 0%Z]) None)]).

(** The four kinds of column a header can stand for. *)
Inductive FieldKind := TeamA | TeamB | ScoreA | ScoreB.

(** The kind that a lower-cased, trimmed suffix stands for, in the
    words of the specification. *)
Definition fieldKind (field : string) : option FieldKind :=
  if String.eqb field "team a" || String.eqb field "a" then Some TeamA
  else if String.eqb field "team b" || String.eqb field "b" then Some TeamB
  else if String.eqb field "score a" then Some ScoreA
  else if String.eqb field "score b" then Some ScoreB
  else None.

Definition column (k : FieldKind) (c : Court) : option nat :=
  match k with
  | TeamA => teamACol c
  | TeamB => teamBCol c
  | ScoreA => scoreACol c
  | ScoreB => scoreBCol c
  end.

Definition isScore (k : FieldKind) : bool :=
  match k with ScoreA | ScoreB => true | _ => false end.

(** The header at index [i], from the third on, matches the pattern
    with the court name [nm]. *)
Definition mentions (headers : list string) (i : nat) (nm : string) : Prop :=
  2 <= i /\
  exists label g2,
    nth_error headers i = Some label /\ matchCourt label = Some (nm, g2).

(** The header at index [i], from the third on, matches the pattern
    with the court name [nm] and a suffix of kind [k]. *)
Definition designates (headers : list string) (i : nat) (nm : string)
    (k : FieldKind) : Prop :=
  2 <= i /\
  exists label g2,
    nth_error headers i = Some label /\ matchCourt label = Some (nm, g2) /\
    fieldKind (toLowerCase (trim g2)) = Some k.

(** The header [label], standing at index [n], is one for court [nm]. *)
Definition hitsCourt (n : nat) (label nm : string) : Prop :=
  2 <= n /\ exists g2, matchCourt label = Some (nm, g2).

(** ... and of kind [k]. *)
Definition hitsField (n : nat) (label nm : string) (k : FieldKind) : Prop :=
  2 <= n /\ exists g2, matchCourt label = Some (nm, g2) /\
                       fieldKind (toLowerCase (trim g2)) = Some k.

(** The last header of kind [k] for court [nm] stands at index [i]. *)
Definition lastOf (p : list string) (i : nat) (nm : string) (k : FieldKind)
  : Prop :=
  designates p i nm k /\ forall j, i < j -> ~ designates p j nm k.

(** What [headers.forEach] has established once the headers [p] have
    been gone through. *)
Definition CourtsOf (p : list string) (map : CourtMap) : Prop :=
  NoDup (List.map name map)
  /\ (forall nm, In nm (List.map name map) <-> exists i, mentions p i nm)
  /\ (forall c k i, In c map ->
        (column k c = Some i <-> lastOf p i (name c) k))
  /\ (forall c, In c map ->
        (hasScores c = true <-> scoreACol c <> None \/ scoreBCol c <> None)).

(** Numbers that are zero, positive and finite, or plus infinity. *)
Definition nonneg (x : number) : Prop :=
  match x with
  | S754_zero _ => True
  | S754_finite false _ _ => True
  | S754_infinity false => True
  | _ => False
  end.

(** [a] does not come after [b] by court number. *)
Definition courtLe (a b : Court) : Prop :=
  le (courtNumber (name a)) (courtNumber (name b)) = true.

(** The headers of the specification's example as a table with two
    rows: one scored round on Court 2 with a game on Court 10, and a
    round that is not scheduled yet. *)
Definition textCell (s : string) : option Cell :=
  Some (Gviz.mkCell (VStr s) None).

Definition numberCell (z : Z) : option Cell :=
  Some (Gviz.mkCell (VNum z) None).

Definition timeOfDayCell (h m : Z) : option Cell :=
  Some (Gviz.mkCell (VArr [h; m; 0%Z; 0%Z]) None).

Definition exampleTable : Table :=
  Gviz.mkTable
    (List.map (fun l => Gviz.mkCol (Some l)) exampleHeaders)
    [ Gviz.mkRow (Some [ None; timeOfDayCell 10 0;
                         textCell "Red"; numberCell 21;
                         textCell "Blue"; numberCell 18;
                         textCell "Green"; textCell "Gold"; numberCell 7 ]);
      Gviz.mkRow (Some [ None; timeOfDayCell 10 30 ]) ].

(** A page that shows the morning's grid. *)
Definition morningApp : App :=
  mkApp (Some morning) "" LoadingPlaceholder (UpdatedText "9:05 AM") live
        ["Blue"; "Gold"; "Green"; "Red"] "" false.

(** The head of [b], if any, fails [p]. *)
Definition stopsAt (p : ascii -> bool) (b : string) : Prop :=
  match b with EmptyString => True | String c _ => p c = false end.

(** The predicate of [.]: any character but a line terminator. *)
Definition isDot (c : ascii) : bool := negb (isLineTerminator c).

(** [label] is made of the word "Court" in any case, white space,
    digits, white space, and a non-empty rest free of line terminators;
    [nm] is what the first group of the pattern captures and [g2] the
    rest, for this way of cutting the label. *)
Definition CourtPattern (label nm g2 : string) : Prop :=
  exists word w1 ds w2,
    label = (word ++ w1 ++ ds ++ w2 ++ g2)%string /\
    nm = (word ++ w1 ++ ds)%string /\
    toLowerCase word = "court" /\
    w1 <> "" /\ forallb isWhiteSpace w1 = true /\
    ds <> "" /\ forallb isDigit ds = true /\
    w2 <> "" /\ forallb isWhiteSpace w2 = true /\
    g2 <> "" /\ forallb isDot g2 = true.

(** The integer written by the first run of digits of a court name (0
    when there is none). *)
Definition courtInteger (nm : string) : N :=
  match firstDigits nm with
  | Some ds => decimalValue ds
  | None => 0%N
  end.

(** The binary64 value of a positive integer of at most 53 bits: the
    integer itself, its mantissa shifted up to 53 bits. *)
Definition exactNumber (p : positive) : number :=
  match (Z.pos (digits2_pos p) - 53)%Z with
  | Zneg k => S754_finite false (Pos.iter xO p k) (Z.pos (digits2_pos p) - 53)
  | _ => S754_finite false p 0
  end.

(** [a] does not come after [b] by the integer in the court name. *)
Definition courtIntegerLe (a b : Court) : Prop :=
  (courtInteger (name a) <= courtInteger (name b))%N.

Definition court2 : Court :=
  mkCourt "Court 2" true (Some 2) (Some 4) (Some 3) (Some 5).

Definition court10 : Court :=
  mkCourt "Court 10" false (Some 6) (Some 7) None None.

(** A result of rounding that is greater than zero. *)
Definition positive_number (x : number) : Prop :=
  match x with
  | S754_finite false _ _ | S754_infinity false => True
  | _ => False
  end.

(** A Number in the form rounding gives it: a mantissa of 53 digits,
    at an exponent that is [lo] at least. *)
Definition canonicalFrom (lo : Z) (x : number) : Prop :=
  match x with
  | S754_zero false | S754_infinity false => True
  | S754_finite false m e => Z.pos (digits2_pos m) = 53%Z /\ (lo <= e)%Z
  | _ => False
  end.

Definition canonical (x : number) : Prop := canonicalFrom (-52) x.

(* ================================================================== *)
(** ** Further functions of [app.js] *)

(** [s.replace(/c/g, by)] for a single character [c]. *)
Fixpoint replaceAll (c : ascii) (by_ : string) (s : string) : string :=
  match s with
  | EmptyString => EmptyString
  | String x r =>
      if Ascii.eqb x c then (by_ ++ replaceAll c by_ r)%string
      else String x (replaceAll c by_ r)
  end.

(** The double quote. *)
Definition quoteChar : ascii := ascii_of_N 34.

(** [escapeHtml(str)]: four replacements, one after the other. *)
Definition escapeHtml (str : string) : string :=
  replaceAll quoteChar "&quot;"
    (replaceAll ">" "&gt;"
       (replaceAll "<" "&lt;"
          (replaceAll "&" "&amp;" str))).

(** What [escapeHtml] makes of one character. *)
Definition escapeChar (c : ascii) : string :=
  if Ascii.eqb c "&" then "&amp;"
  else if Ascii.eqb c "<" then "&lt;"
  else if Ascii.eqb c ">" then "&gt;"
  else if Ascii.eqb c quoteChar then "&quot;"
  else String c EmptyString.

Fixpoint escapeEach (s : string) : string :=
  match s with
  | EmptyString => EmptyString
  | String c r => (escapeChar c ++ escapeEach r)%string
  end.

(** The characters that end a tag, an attribute value or a text node. *)
Definition isMarkup (c : ascii) : bool :=
  Ascii.eqb c "<" || Ascii.eqb c ">" || Ascii.eqb c quoteChar.

Definition isSpecial (c : ascii) : bool := Ascii.eqb c "&" || isMarkup c.

(** Reading the four entities back (used to tell escaped texts apart). *)
Fixpoint unescapeHtml (s : string) : string :=
  match s with
  | EmptyString => EmptyString
  | String c r =>
      if Ascii.eqb c "&" then
        match r with
        | String "a" (String "m" (String "p" (String ";" t))) =>
            String "&" (unescapeHtml t)
        | String "l" (String "t" (String ";" t)) => String "<" (unescapeHtml t)
        | String "g" (String "t" (String ";" t)) => String ">" (unescapeHtml t)
        | String "q" (String "u" (String "o" (String "t" (String ";" t)))) =>
            String quoteChar (unescapeHtml t)
        | _ => String c (unescapeHtml r)
        end
      else String c (unescapeHtml r)
  end.

(** A fetch that is over: its promise is settled, and its timer, its
    callback and its script element are gone. *)
Definition fetchOver (ft : Fetch) : Prop :=
  promise ft <> None /\ timerArmed ft = false /\
  callbackRegistered ft = false /\ scriptAttached ft = false.

(** A row typed with white space around its entries, and the table of
    the example headers that holds just this row. *)
Definition paddedRow : Row :=
  Gviz.mkRow (Some [ None; timeOfDayCell 9 0;
                     textCell "  Red "; textCell " 21";
                     textCell "   "; numberCell 18 ]).

Definition paddedTable : Table :=
  Gviz.mkTable (List.map (fun l => Gviz.mkCol (Some l)) exampleHeaders)
               [paddedRow].

(** A row of the example headers with the scores 9 and 21 held as
    numbers. *)
Definition nineTwentyOne : Row :=
  Gviz.mkRow (Some [ None; timeOfDayCell 9 0;
                     textCell "Red"; numberCell 9;
                     textCell "Blue"; numberCell 21 ]).

(** The example table with notes in column A and another header over
    the times. *)
Definition annotatedTable : Table :=
  Gviz.mkTable
    (Gviz.mkCol (Some "Court 9 A") :: Gviz.mkCol None
       :: List.map (fun l => Gviz.mkCol (Some l)) (skipn 2 exampleHeaders))
    [ Gviz.mkRow (Some [ textCell "finals"; timeOfDayCell 10 0;
                         textCell "Red"; numberCell 21;
                         textCell "Blue"; numberCell 18;
                         textCell "Green"; textCell "Gold"; numberCell 7 ]);
      Gviz.mkRow (Some [ numberCell 3; timeOfDayCell 10 30 ]) ].



(** A cell that shows a match of the team [flt]. *)
Definition namesTeam (flt : string) (cm : CellMarkup) : Prop :=
  match cm with
  | MatchTeams a b => players a = Players flt \/ players b = Players flt
  | NoMatches => False
  end.

(** ** The page over time *)

(** The value of the select changes under the hand of the user. *)
Definition setFilterValue (value : string) (st : App) : App :=
  mkApp (cachedRounds st) (activeTeamFilter st) (tournamentContent st)
        (statusText st) (statusDot st)
        (filterOptions st) value (filterDisabled st).

(** What happens to the page: a call of [loadData] runs up to its
    [await], the fetch of such a call settles, the select takes another
    value, or [filterByTeam] is called.  Calls of [loadData] may
    overlap. *)
Inductive PageEvent :=
| LoadStarts
| LoadSettles (outcome : Settlement) (now : string)
| SelectChanged (value : string)
| TeamPicked (team : string).

Definition pageStep (localeSort : list string -> list string)
    (typeErrorMessage : string) (st : App) (ev : PageEvent) : App :=
  match ev with
  | LoadStarts => loadDataStart st
  | LoadSettles outcome now =>
      loadDataFinish localeSort typeErrorMessage outcome now st
  | SelectChanged value => setFilterValue value st
  | TeamPicked team => filterByTeam team st
  end.

(** [cachedRounds] is [null] or holds the rounds parsed from a table. *)
Definition cacheFromSheet (st : App) : Prop :=
  cachedRounds st = None \/
  exists table, cachedRounds st = Some (parseRounds table).

(** A page before its first load cycle. *)
Definition blankPage : App :=
  mkApp None "" LoadingPlaceholder LoadingText loading [] "" true.

(** A page whose cache holds the rounds of the example table. *)
Definition examplePage : App :=
  mkApp (Some (parseRounds exampleTable)) "" LoadingPlaceholder
        (UpdatedText "9:05 AM") live ["Blue"; "Gold"; "Green"; "Red"] "" false.

(** The example page after Gold has been picked in the select. *)
Definition goldPicked : App :=
  filterByTeam "Gold" (setFilterValue "Gold" examplePage).

(** A team name that the markup of an option carries unharmed: no
    ampersand, angle bracket or double quote, and no control
    character. *)
Definition plainName (t : string) : bool :=
  forallb (fun c => negb (isSpecial c) && (32 <=? code c)%N) t.

(** ** The refresh timer *)

(** The global [refreshTimer] ([None] for [null]), the handles of the
    refresh timeouts that are set and have neither fired nor been
    cleared, the next handle that [setTimeout] gives out, and the number
    of calls of [loadData] that have not returned yet, each of them
    followed by [scheduleRefresh]. *)
Record Timers := mkTimers {
  refreshTimer : option nat;
  armed : list nat;
  nextHandle : nat;
  loadsInFlight : nat
}.

(** [clearTimeout(id)]: no effect for [null] and for a handle that is
    not set any more. *)
Definition clearTimeout (id : option nat) (handles : list nat) : list nat :=
  match id with
  | None => handles
  | Some i => filter (fun j => negb (j =? i)%nat) handles
  end.

Definition scheduleRefresh (t : Timers) : Timers :=
  mkTimers (Some (nextHandle t))
           (clearTimeout (refreshTimer t) (armed t) ++ [nextHandle t])
           (S (nextHandle t)) (loadsInFlight t).

(** A call of [loadData] begins; the timeout of its fetch takes a
    handle. *)
Definition loadBegins (t : Timers) : Timers :=
  mkTimers (refreshTimer t) (armed t) (S (nextHandle t)) (S (loadsInFlight t)).

Definition manualRefresh (t : Timers) : Timers :=
  loadBegins (mkTimers (refreshTimer t)
                       (clearTimeout (refreshTimer t) (armed t))
                       (nextHandle t) (loadsInFlight t)).

(** The page once the handler of [DOMContentLoaded] has run. *)
Definition bootstrap : Timers := loadBegins (mkTimers None [] 0 0).

Inductive TimerEvent :=
| RefreshDue (handle : nat)     (* the refresh timeout [handle] fires *)
| LoadReturns                   (* a call of [loadData] returns *)
| RefreshClicked.               (* the refresh button *)

Definition timerStep (t : Timers) (ev : TimerEvent) : Timers :=
  match ev with
  | RefreshDue h =>
      if existsb (Nat.eqb h) (armed t)
      then loadBegins (mkTimers (refreshTimer t)
                                (filter (fun j => negb (j =? h)%nat) (armed t))
                                (nextHandle t) (loadsInFlight t))
      else t
  | LoadReturns =>
      match loadsInFlight t with
      | O => t
      | S n => scheduleRefresh (mkTimers (refreshTimer t) (armed t)
                                         (nextHandle t) n)
      end
  | RefreshClicked => manualRefresh t
  end.

(** Every refresh timeout that is set is the one that [refreshTimer]
    names, and is set once; a load is in flight or a timeout is set. *)
Definition TimersOk (t : Timers) : Prop :=
  (forall h, In h (armed t) -> refreshTimer t = Some h)
  /\ NoDup (armed t)
  /\ 1 <= loadsInFlight t + List.length (armed t).

(** ** The theme *)

(** The text of the theme button: a moon on a light page, a sun on any
    other. *)
Inductive ThemeIcon := Moon | Sun.

(** What the theme functions read and write: the entry [theme] of the
    local storage ([None] while there is none), whether the system asks
    for a light colour scheme, the attribute [data-theme] of the root
    element, and the text of the button [theme-btn] where the page has
    one. *)
Record ThemeEnv := mkThemeEnv {
  storedTheme : option string;
  prefersLight : bool;
  datasetTheme : option string;
  themeBtn : option ThemeIcon
}.

Definition effectiveTheme (env : ThemeEnv) : string :=
  match storedTheme env with
  | Some stored =>
      if isEmpty stored
      then (if prefersLight env then "light" else "dark")
      else stored
  | None => if prefersLight env then "light" else "dark"
  end.

Definition applyTheme (theme : string) (env : ThemeEnv) : ThemeEnv :=
  mkThemeEnv (storedTheme env) (prefersLight env) (Some theme)
             (match themeBtn env with
              | Some _ => Some (if String.eqb theme "light" then Moon else Sun)
              | None => None
              end).

Definition toggleTheme (env : ThemeEnv) : ThemeEnv :=
  let next := if String.eqb (effectiveTheme env) "light" then "dark" else "light" in
  applyTheme next
    (mkThemeEnv (Some next) (prefersLight env) (datasetTheme env) (themeBtn env)).

(** The system switches its colour scheme. *)
Definition withPreference (light : bool) (env : ThemeEnv) : ThemeEnv :=
  mkThemeEnv (storedTheme env) light (datasetTheme env) (themeBtn env).

(* ================================================================== *)
(** * Properties *)

(** ** Computations that may throw *)

Section MayThrow.
Context {A B : Type}.

Lemma mapiM_length (g : A -> nat -> option B) (l : list A) :
  forall i r, mapiM g i l = Some r -> List.length r = List.length l.
Proof.
  induction l as [|x xs IH]; simpl; intros i r H.
  - injection H as <-. reflexivity.
  - destruct (g x i) as [y|]; simpl in H; [|discriminate].
    destruct (mapiM g (S i) xs) as [r'|] eqn:E; simpl in H; [|discriminate].
    injection H as <-. simpl. f_equal. eapply IH; eauto.
Qed.

Lemma mapiM_nth (g : A -> nat -> option B) (l : list A) :
  forall i r j y, mapiM g i l = Some r -> nth_error r j = Some y ->
  exists x, nth_error l j = Some x /\ g x (i + j) = Some y.
Proof.
  induction l as [|x xs IH]; simpl; intros i r j y H Hj.
  - injection H as <-. destruct j; discriminate.
  - destruct (g x i) as [y0|] eqn:Eg; simpl in H; [|discriminate].
    destruct (mapiM g (S i) xs) as [r'|] eqn:E; simpl in H; [|discriminate].
    injection H as <-. destruct j as [|j]; simpl in Hj.
    + injection Hj as <-. exists x. rewrite Nat.add_0_r. auto.
    + destruct (IH _ _ _ _ E Hj) as (x' & Hx' & Hg).
      exists x'. split; [exact Hx'|]. now rewrite Nat.add_succ_r.
Qed.

Lemma mapiM_total (g : A -> nat -> option B) (l : list A) :
  forall i,
  (forall j x, nth_error l j = Some x -> g x (i + j) <> None) ->
  exists r, mapiM g i l = Some r.
Proof.
  induction l as [|x xs IH]; simpl; intros i H.
  - eauto.
  - destruct (g x i) as [y|] eqn:Eg.
    + destruct (IH (S i)) as [r Hr].
      { intros j x' Hx'. rewrite Nat.add_succ_l, <- Nat.add_succ_r.
        apply (H (S j)). exact Hx'. }
      rewrite Hr. simpl. eauto.
    + exfalso. apply (H 0 x); [reflexivity|]. now rewrite Nat.add_0_r.
Qed.

Lemma mapM_Forall2 (g : A -> option B) (l : list A) (r : list B) :
  mapM g l = Some r -> Forall2 (fun x y => g x = Some y) l r.
Proof.
  unfold mapM. generalize 0. revert r.
  induction l as [|x xs IH]; simpl; intros r i H.
  - injection H as <-. constructor.
  - destruct (g x) as [y|] eqn:Eg; simpl in H; [|discriminate].
    destruct (mapiM _ (S i) xs) as [r'|] eqn:E; simpl in H; [|discriminate].
    injection H as <-. constructor; eauto.
Qed.

Lemma mapM_total (g : A -> option B) (l : list A) :
  (forall x, In x l -> g x <> None) -> exists r, mapM g l = Some r.
Proof.
  intros H. apply mapiM_total. intros j x Hx. apply H.
  eapply nth_error_In; eauto.
Qed.

End MayThrow.

Section Predicates.
Context {A : Type}.

Lemma filterM_filter (p : A -> option bool) (l r : list A) :
  filterM p l = Some r -> r = filter (holds p) l.
Proof.
  revert r. induction l as [|x xs IH]; simpl; intros r H.
  - now injection H as <-.
  - unfold holds at 1.
    destruct (p x) as [b|]; simpl in H; [|discriminate].
    destruct (filterM p xs) as [r'|]; simpl in H; [|discriminate].
    injection H as <-. rewrite (IH r' eq_refl). now destruct b.
Qed.

Lemma filterM_total (p : A -> option bool) (l : list A) :
  (forall x, In x l -> p x <> None) -> exists r, filterM p l = Some r.
Proof.
  induction l as [|x xs IH]; simpl; intros H; [eauto|].
  destruct (p x) as [b|] eqn:E; [|exfalso; apply (H x); auto].
  destruct IH as [r Hr]; [intros; apply H; auto|].
  rewrite Hr. simpl. eauto.
Qed.

Lemma someM_true (p : A -> option bool) (l : list A) :
  someM p l = Some true -> exists x, In x l /\ p x = Some true.
Proof.
  induction l as [|x xs IH]; simpl; intros H; [discriminate|].
  destruct (p x) as [[|]|] eqn:E; simpl in H; try discriminate.
  - exists x; auto.
  - destruct (IH H) as (y & Hy & Hp). exists y; auto.
Qed.

Lemma someM_false (p : A -> option bool) (l : list A) :
  someM p l = Some false -> forall x, In x l -> p x = Some false.
Proof.
  induction l as [|x xs IH]; simpl; intros H y Hy; [contradiction|].
  destruct (p x) as [[|]|] eqn:E; simpl in H; try discriminate.
  destruct Hy as [<-|Hy]; auto.
Qed.

Lemma someM_total (p : A -> option bool) (l : list A) :
  (forall x, In x l -> p x <> None) -> someM p l <> None.
Proof.
  induction l as [|x xs IH]; simpl; intros H; [discriminate|].
  destruct (p x) as [[|]|] eqn:E; simpl.
  - discriminate.
  - apply IH. intros; apply H; auto.
  - exfalso; apply (H x); auto.
Qed.

End Predicates.

(** ** Numbers *)

Lemma gt_NaN_l (x : number) : gt NaN x = false.
Proof. unfold gt, NaN, SFltb. destruct x; reflexivity. Qed.

Lemma gt_NaN_r (x : number) : gt x NaN = false.
Proof. unfold gt, NaN, SFltb. destruct x; reflexivity. Qed.

Lemma isNaN_eq (x : number) : isNaN x = true -> x = NaN.
Proof. destruct x; simpl; intros H; try discriminate; reflexivity. Qed.

Lemma SFcompare_antisym (x y : number) :
  SFcompare y x = option_map CompOpp (SFcompare x y).
Proof.
  destruct x as [sx|sx| |sx mx ex], y as [sy|sy| |sy my ey]; simpl;
    try reflexivity;
    try (destruct sx; reflexivity);
    try (destruct sy; reflexivity);
    try (destruct sx, sy; reflexivity).
  destruct sx, sy; simpl; try reflexivity.
  - rewrite (Z.compare_antisym ex ey).
    destruct (ex ?= ey)%Z eqn:E; simpl; try reflexivity.
    rewrite (Pos.compare_cont_antisym _ _ Eq). simpl.
    destruct (Pos.compare_cont Eq mx my); reflexivity.
  - rewrite (Z.compare_antisym ex ey).
    destruct (ex ?= ey)%Z eqn:E; simpl; try reflexivity.
    rewrite (Pos.compare_cont_antisym _ _ Eq). simpl.
    reflexivity.
Qed.

(** [x > y] and [y > x] exclude each other. *)
Lemma gt_asym (x y : number) : gt x y = true -> gt y x = false.
Proof.
  unfold gt, SFltb. rewrite (SFcompare_antisym y x).
  destruct (SFcompare y x) as [[]|]; simpl; congruence.
Qed.

(** Numbers that compare equal: neither is greater. *)
Lemma gt_equal (x y : number) :
  SFcompare x y = Some Eq -> gt x y = false /\ gt y x = false.
Proof.
  intros H. unfold gt, SFltb. rewrite (SFcompare_antisym x y), H. auto.
Qed.

Lemma isEmpty_true (s : string) : isEmpty s = true <-> s = "".
Proof. destruct s; simpl; split; intros H; congruence. Qed.

Lemma isEmpty_false (s : string) : isEmpty s = false <-> s <> "".
Proof. destruct s; simpl; split; intros H; congruence. Qed.

Lemma shr_1_nonneg (mrs : shr_record) :
  (0 <= shr_m mrs)%Z -> (0 <= shr_m (shr_1 mrs))%Z.
Proof.
  destruct mrs as [m r s]. simpl.
  destruct m as [|[q|q|]|q]; simpl; lia.
Qed.

Lemma iter_shr_1_nonneg (n : positive) :
  forall mrs, (0 <= shr_m mrs)%Z -> (0 <= shr_m (iter_pos shr_1 n mrs))%Z.
Proof.
  induction n as [n IH|n IH|]; simpl; intros mrs H.
  - apply IH, IH. now apply shr_1_nonneg.
  - now apply IH, IH.
  - now apply shr_1_nonneg.
Qed.

Lemma shr_fexp_nonneg (m e : Z) (l : location) :
  (0 <= m)%Z -> (0 <= shr_m (fst (shr_fexp prec emax m e l)))%Z.
Proof.
  intros H. unfold shr_fexp, shr.
  assert (H0 : (0 <= shr_m (shr_record_of_loc m l))%Z)
    by (destruct l as [|[]]; exact H).
  destruct (_ - e)%Z; simpl; auto.
  now apply iter_shr_1_nonneg.
Qed.

Lemma round_nearest_even_nonneg (m : Z) (l : location) :
  (0 <= m)%Z -> (0 <= round_nearest_even m l)%Z.
Proof.
  intros H. unfold round_nearest_even.
  destruct l as [|[]]; try destruct (Z.even m); lia.
Qed.

Lemma binary_round_aux_nonneg (m e : Z) (l : location) :
  (0 <= m)%Z -> nonneg (binary_round_aux prec emax false m e l).
Proof.
  intros H. unfold binary_round_aux.
  pose proof (shr_fexp_nonneg m e l H) as H1.
  destruct (shr_fexp prec emax m e l) as [mrs' e']. simpl in H1.
  pose proof (shr_fexp_nonneg _ e' loc_Exact
                (round_nearest_even_nonneg _ (loc_of_shr_record mrs') H1)) as H2.
  destruct (shr_fexp prec emax _ e' loc_Exact) as [mrs'' e'']. simpl in H2.
  destruct (shr_m mrs'') as [|q|q]; [exact I| |lia].
  destruct (e'' <=? emax - prec)%Z; exact I.
Qed.

Lemma ofZ_nonneg (z : Z) : (0 <= z)%Z -> nonneg (ofZ z).
Proof.
  intros H. unfold ofZ, binary_normalize.
  destruct z as [|q|q]; [exact I| |lia].
  unfold binary_round.
  destruct (shl_align q 0 _) as [mz ez].
  apply binary_round_aux_nonneg. lia.
Qed.

Lemma nonneg_compare (x y : number) :
  nonneg x -> nonneg y -> exists c, SFcompare x y = Some c.
Proof.
  destruct x as [sx|[|]| |[|] mx ex], y as [sy|[|]| |[|] my ey];
    simpl; intros Hx Hy; try contradiction; eauto.
Qed.

Lemma gt_false_le (x y : number) :
  nonneg x -> nonneg y -> (gt x y = false <-> le x y = true).
Proof.
  intros Hx Hy. unfold gt, le, SFltb, SFleb.
  rewrite (SFcompare_antisym x y).
  destruct (nonneg_compare x y Hx Hy) as [c ->]. simpl.
  destruct c; simpl; split; congruence.
Qed.

Lemma le_finite (m1 m2 : positive) (e1 e2 : Z) :
  le (S754_finite false m1 e1) (S754_finite false m2 e2) = true <->
  (e1 < e2)%Z \/ (e1 = e2 /\ (m1 <= m2)%positive).
Proof.
  unfold le, SFleb. simpl.
  destruct (Z.compare_spec e1 e2) as [E|E|E].
  - rewrite Pos.compare_cont_spec. simpl.
    destruct (Pos.compare_spec m1 m2) as [M|M|M]; split; intros H;
      try discriminate; try reflexivity; try (right; split; [exact E|lia]).
    destruct H as [H|[_ H]]; lia.
  - split; auto.
  - split; [discriminate|]. intros [H|[H _]]; lia.
Qed.

Lemma le_trans_nonneg (x y z : number) :
  nonneg x -> nonneg y -> nonneg z ->
  le x y = true -> le y z = true -> le x z = true.
Proof.
  destruct x as [sx|[|]| |[|] mx ex], y as [sy|[|]| |[|] my ey],
           z as [sz|[|]| |[|] mz ez];
    intros Hx Hy Hz; try contradiction; try (intros; reflexivity);
    try (intros H1 H2; discriminate).
  rewrite !le_finite. intros [H1|[H1 H1']] [H2|[H2 H2']]; try (left; lia).
  right. split; [lia|]. eapply Pos.le_trans; eauto.
Qed.

(** ** Integers below 2^53 are Numbers *)

Lemma digits2_pos_size (p : positive) : digits2_pos p = Pos.size p.
Proof. induction p; simpl; congruence. Qed.

Lemma digits2_pos_shift (p k : positive) :
  digits2_pos (Pos.iter xO p k) = (digits2_pos p + k)%positive.
Proof.
  revert p. induction k using Pos.peano_ind; intros p.
  - simpl. lia.
  - rewrite Pos.iter_succ. simpl. rewrite IHk. lia.
Qed.

Lemma shift_value (p k : positive) :
  Z.pos (Pos.iter xO p k) = (Z.pos p * 2 ^ Z.pos k)%Z.
Proof.
  revert p. induction k using Pos.peano_ind; intros p.
  - simpl. lia.
  - rewrite Pos.iter_succ, Pos2Z.inj_succ, Z.pow_succ_r by lia.
    rewrite Pos2Z.inj_xO, IHk. lia.
Qed.

Lemma binary_round_aux_exact (m : positive) (e : Z) :
  Z.pos (digits2_pos m) = 53%Z -> (-1074 <= e <= 971)%Z ->
  binary_round_aux prec emax false (Z.pos m) e loc_Exact
  = S754_finite false m e.
Proof.
  intros Hd He.
  assert (Hs : shr_fexp prec emax (Z.pos m) e loc_Exact
               = (Build_shr_record (Z.pos m) false false, e)).
  { unfold shr_fexp, Zdigits2. rewrite Hd.
    unfold fexp, emin, prec, emax.
    replace (Z.max (53 + e - 53) (3 - 1024 - 53) - e)%Z with 0%Z by lia.
    reflexivity. }
  unfold binary_round_aux. rewrite Hs. simpl round_nearest_even.
  rewrite Hs. simpl shr_m.
  unfold emax, prec. destruct (Z.leb_spec e (1024 - 53)); [reflexivity|lia].
Qed.

Lemma ofZ_exact (p : positive) :
  (Z.pos (digits2_pos p) <= 53)%Z -> ofZ (Z.pos p) = exactNumber p.
Proof.
  intros Hd. unfold ofZ, binary_normalize, binary_round, exactNumber.
  unfold shl_align, fexp, emin, prec, emax.
  replace (Z.max (Z.pos (digits2_pos p) + 0 - 53) (3 - 1024 - 53) - 0)%Z
    with (Z.pos (digits2_pos p) - 53)%Z by lia.
  replace (Z.max (Z.pos (digits2_pos p) + 0 - 53) (3 - 1024 - 53))%Z
    with (Z.pos (digits2_pos p) - 53)%Z by lia.
  destruct (Z.pos (digits2_pos p) - 53)%Z as [|k|k] eqn:Ek; [| lia |].
  - apply (binary_round_aux_exact p 0); lia.
  - apply (binary_round_aux_exact (Pos.iter xO p k)); [|lia].
    rewrite digits2_pos_shift. lia.
Qed.

Lemma digits_bound (p : positive) :
  (2 ^ (Z.pos (digits2_pos p) - 1) <= Z.pos p < 2 ^ Z.pos (digits2_pos p))%Z.
Proof.
  rewrite digits2_pos_size.
  pose proof (Pos.size_gt p) as Hgt. pose proof (Pos.size_le p) as Hle.
  assert (E : Z.pos (2 ^ Pos.size p) = (2 ^ Z.pos (Pos.size p))%Z)
    by (rewrite Pos2Z.inj_pow; reflexivity).
  split.
  - assert (H : (2 ^ Z.pos (Pos.size p) = 2 * 2 ^ (Z.pos (Pos.size p) - 1))%Z).
    { rewrite <- Z.pow_succ_r by lia. f_equal. lia. }
    lia.
  - lia.
Qed.

Lemma exactNumber_le (p q : positive) :
  (Z.pos (digits2_pos p) <= 53)%Z -> (Z.pos (digits2_pos q) <= 53)%Z ->
  (le (exactNumber p) (exactNumber q) = true <-> (p <= q)%positive).
Proof.
  intros Hp Hq.
  pose proof (digits_bound p) as Bp. pose proof (digits_bound q) as Bq.
  set (dp := Z.pos (digits2_pos p)) in *.
  set (dq := Z.pos (digits2_pos q)) in *.
  assert (Hform : forall r,
            (Z.pos (digits2_pos r) <= 53)%Z ->
            exists m, exactNumber r
                      = S754_finite false m (Z.pos (digits2_pos r) - 53) /\
                      (Z.pos m = Z.pos r * 2 ^ (53 - Z.pos (digits2_pos r)))%Z).
  { intros r Hr. unfold exactNumber.
    destruct (Z.pos (digits2_pos r) - 53)%Z as [|k|k] eqn:Ek; [| lia |].
    - exists r. split; [reflexivity|].
      replace (53 - Z.pos (digits2_pos r))%Z with 0%Z by lia. lia.
    - exists (Pos.iter xO r k). split; [reflexivity|].
      rewrite shift_value. f_equal. f_equal. lia. }
  destruct (Hform p Hp) as (mp & -> & Vp).
  destruct (Hform q Hq) as (mq & -> & Vq).
  fold dp in Vp |- *. fold dq in Vq |- *.
  rewrite le_finite.
  assert (Hmono : forall a b : Z, (0 <= a <= b)%Z -> (2 ^ a <= 2 ^ b)%Z)
    by (intros a b H; apply Z.pow_le_mono_r; lia).
  split.
  - intros [H|[H Hm]].
    + assert (H' : (2 ^ dp <= 2 ^ (dq - 1))%Z) by (apply Hmono; lia). lia.
    + assert (E : dp = dq) by lia.
      rewrite E in Vp.
      assert (Hpos : (0 < 2 ^ (53 - dq))%Z) by (apply Z.pow_pos_nonneg; lia).
      assert (Hle : (Z.pos mp <= Z.pos mq)%Z) by lia.
      rewrite Vp, Vq in Hle. 
      apply Z.mul_le_mono_pos_r in Hle; [lia|exact Hpos].
  - intros H.
    destruct (Z.lt_trichotomy dp dq) as [L|[E|G]].
    + left. lia.
    + right. split; [lia|].
      rewrite E in Vp.
      assert (Hpos : (0 < 2 ^ (53 - dq))%Z) by (apply Z.pow_pos_nonneg; lia).
      assert (Hle : (Z.pos mp <= Z.pos mq)%Z).
      { rewrite Vp, Vq. apply Z.mul_le_mono_pos_r; [exact Hpos|lia]. }
      lia.
    + exfalso.
      assert (H' : (2 ^ dq <= 2 ^ (dp - 1))%Z) by (apply Hmono; lia). lia.
Qed.

Lemma small_digits (p : positive) :
  (Z.pos p < 2 ^ 53)%Z -> (Z.pos (digits2_pos p) <= 53)%Z.
Proof.
  intros H. pose proof (digits_bound p) as B.
  destruct (Z.le_gt_cases (Z.pos (digits2_pos p)) 53) as [L|G]; [exact L|].
  exfalso.
  assert (H' : (2 ^ 53 <= 2 ^ (Z.pos (digits2_pos p) - 1))%Z)
    by (apply Z.pow_le_mono_r; lia).
  lia.
Qed.

(** Below 2^53 the Numbers of integers compare as the integers do. *)
Lemma ofZ_le_exact (a b : N) :
  (a < 2 ^ 53)%N -> (b < 2 ^ 53)%N ->
  (le (ofZ (Z.of_N a)) (ofZ (Z.of_N b)) = true <-> (a <= b)%N).
Proof.
  intros Ha Hb.
  assert (Hz : forall n : N, (n < 2 ^ 53)%N -> (Z.of_N n < 2 ^ 53)%Z).
  { intros n Hn. apply N2Z.inj_lt in Hn. rewrite N2Z.inj_pow in Hn.
    exact Hn. }
  apply Hz in Ha, Hb.
  destruct a as [|p], b as [|q]; simpl Z.of_N in *.
  - split; [lia|reflexivity].
  - split; [lia|]. intros _.
    rewrite (ofZ_exact q) by (apply small_digits; exact Hb).
    unfold exactNumber. destruct (Z.pos (digits2_pos q) - 53)%Z; reflexivity.
  - split; [|lia].
    rewrite (ofZ_exact p) by (apply small_digits; exact Ha).
    unfold exactNumber. destruct (Z.pos (digits2_pos p) - 53)%Z; discriminate.
  - rewrite (ofZ_exact p), (ofZ_exact q) by (apply small_digits; assumption).
    rewrite exactNumber_le by (apply small_digits; assumption).
    lia.
Qed.

(** ** Rounding: what the subtraction of two court numbers gives *)

Lemma shr_1_half (mrs : shr_record) :
  (0 <= shr_m mrs)%Z -> shr_m (shr_1 mrs) = (shr_m mrs / 2)%Z.
Proof.
  destruct mrs as [m r s]. simpl. intros H.
  destruct m as [|[q|q|]|q]; simpl shr_m; try lia; try reflexivity.
  - apply (Z.div_unique _ _ _ 1); lia.
  - apply (Z.div_unique _ _ _ 0); lia.
Qed.

Lemma pow2_xO (n : positive) :
  (2 ^ Z.pos n~0 = 2 ^ Z.pos n * 2 ^ Z.pos n)%Z.
Proof.
  rewrite Pos2Z.inj_xO, <- Z.pow_add_r by lia. f_equal. lia.
Qed.

Lemma pow2_xI (n : positive) :
  (2 ^ Z.pos n~1 = 2 * (2 ^ Z.pos n * 2 ^ Z.pos n))%Z.
Proof.
  rewrite Pos2Z.inj_xI, <- Z.pow_add_r by lia.
  replace (2 * Z.pos n + 1)%Z with (Z.succ (Z.pos n + Z.pos n)) by lia.
  rewrite Z.pow_succ_r by lia. reflexivity.
Qed.

Lemma iter_shr_1_div (n : positive) :
  forall mrs, (0 <= shr_m mrs)%Z ->
  shr_m (iter_pos shr_1 n mrs) = (shr_m mrs / 2 ^ Z.pos n)%Z.
Proof.
  assert (Hp : forall k : positive, (0 < 2 ^ Z.pos k)%Z)
    by (intros k; apply Z.pow_pos_nonneg; lia).
  induction n as [n IH|n IH|]; simpl iter_pos; intros mrs H.
  - rewrite IH by (apply iter_shr_1_nonneg; now apply shr_1_nonneg).
    rewrite IH by now apply shr_1_nonneg.
    rewrite shr_1_half by exact H.
    pose proof (Hp n).
    rewrite !Z.div_div by lia.
    rewrite pow2_xI. f_equal.
  - rewrite IH by now apply iter_shr_1_nonneg.
    rewrite IH by exact H.
    pose proof (Hp n).
    rewrite Z.div_div by lia.
    now rewrite pow2_xO.
  - rewrite shr_1_half by exact H. reflexivity.
Qed.

(** The number of places [shr_fexp] shifts a mantissa of [d] digits at
    exponent [e]. *)
Lemma shr_fexp_spec (m e : Z) (l : location) :
  (0 <= m)%Z ->
  let n := Z.max 0 (fexp prec emax (Zdigits2 m + e) - e) in
  shr_m (fst (shr_fexp prec emax m e l)) = (m / 2 ^ n)%Z /\
  snd (shr_fexp prec emax m e l) = (e + n)%Z.
Proof.
  intros H n. subst n. unfold shr_fexp, shr.
  assert (H0 : shr_m (shr_record_of_loc m l) = m)
    by (destruct l as [|[]]; reflexivity).
  destruct (fexp prec emax (Zdigits2 m + e) - e)%Z as [|k|k] eqn:E; simpl fst; simpl snd.
  - rewrite H0. simpl. rewrite Z.div_1_r. lia.
  - rewrite iter_shr_1_div by (rewrite H0; exact H).
    rewrite H0. replace (Z.max 0 (Z.pos k)) with (Z.pos k) by lia. lia.
  - rewrite H0. replace (Z.max 0 (Z.neg k)) with 0%Z by lia.
    simpl. rewrite Z.div_1_r. lia.
Qed.

Lemma digits_unique (m : positive) (k : Z) :
  (2 ^ (k - 1) <= Z.pos m < 2 ^ k)%Z -> (0 < k)%Z ->
  Z.pos (digits2_pos m) = k.
Proof.
  intros [H1 H2] Hk. pose proof (digits_bound m) as [B1 B2].
  set (d := Z.pos (digits2_pos m)) in *.
  assert (Hmono : forall a b : Z, (0 <= a <= b)%Z -> (2 ^ a <= 2 ^ b)%Z)
    by (intros a b H; apply Z.pow_le_mono_r; lia).
  destruct (Z.lt_trichotomy d k) as [L|[E|G]]; [|exact E|].
  - assert (H : (2 ^ d <= 2 ^ (k - 1))%Z) by (apply Hmono; lia). lia.
  - assert (H : (2 ^ k <= 2 ^ (d - 1))%Z) by (apply Hmono; lia). lia.
Qed.

(** Dropping [n] low bits of a mantissa of more than [n] digits. *)
Lemma digits_div (m : positive) (n : Z) :
  (0 <= n < Z.pos (digits2_pos m))%Z ->
  exists q, (Z.pos m / 2 ^ n)%Z = Z.pos q /\
            Z.pos (digits2_pos q) = (Z.pos (digits2_pos m) - n)%Z.
Proof.
  intros Hn. pose proof (digits_bound m) as [B1 B2].
  set (d := Z.pos (digits2_pos m)) in *.
  assert (Hp : (0 < 2 ^ n)%Z) by (apply Z.pow_pos_nonneg; lia).
  assert (E1 : (2 ^ (d - 1) = 2 ^ n * 2 ^ (d - 1 - n))%Z).
  { rewrite <- Z.pow_add_r by lia. f_equal. lia. }
  assert (E2 : (2 ^ d = 2 ^ n * 2 ^ (d - n))%Z).
  { rewrite <- Z.pow_add_r by lia. f_equal. lia. }
  assert (L : (2 ^ (d - 1 - n) <= Z.pos m / 2 ^ n)%Z).
  { apply Z.div_le_lower_bound; [exact Hp|]. lia. }
  assert (U : (Z.pos m / 2 ^ n < 2 ^ (d - n))%Z).
  { apply Z.div_lt_upper_bound; [exact Hp|]. lia. }
  assert (P : (0 < 2 ^ (d - 1 - n))%Z) by (apply Z.pow_pos_nonneg; lia).
  destruct (Z.pos m / 2 ^ n)%Z as [|q|q] eqn:Eq; try lia.
  exists q. split; [reflexivity|].
  apply digits_unique; [|lia].
  replace (d - n - 1)%Z with (d - 1 - n)%Z by lia. lia.
Qed.

Lemma fexp_large (d e : Z) :
  (-1074 <= e)%Z -> (0 < d)%Z ->
  Z.max 0 (fexp prec emax (d + e) - e) = Z.max 0 (d - 53).
Proof. intros He Hd. unfold fexp, emin, prec, emax. lia. Qed.

(** Rounding a positive mantissa at an exponent that is not below the
    least one gives a canonical positive Number. *)
Lemma binary_round_aux_positive (m : positive) (e : Z) (l : location) :
  (-1074 <= e)%Z ->
  positive_number (binary_round_aux prec emax false (Z.pos m) e l) /\
  canonicalFrom e (binary_round_aux prec emax false (Z.pos m) e l) \/
  (Z.pos (digits2_pos m) < 53)%Z.
Proof.
  intros He.
  destruct (Z.lt_ge_cases (Z.pos (digits2_pos m)) 53) as [Hsmall|Hbig];
    [right; exact Hsmall|left].
  unfold binary_round_aux.
  destruct (shr_fexp_spec (Z.pos m) e l) as [Hm1 He1]; [lia|].
  destruct (shr_fexp prec emax (Z.pos m) e l) as [mrs' e'].
  simpl fst in Hm1. simpl snd in He1.
  change (Zdigits2 (Z.pos m)) with (Z.pos (digits2_pos m)) in Hm1, He1.
  rewrite fexp_large in Hm1, He1 by lia.
  set (d := Z.pos (digits2_pos m)) in *.
  replace (Z.max 0 (d - 53)) with (d - 53)%Z in Hm1, He1 by lia.
  destruct (digits_div m (d - 53)) as (q & Hq & Hdq); [fold d; lia|].
  fold d in Hdq. rewrite Hq in Hm1.
  replace (d - (d - 53))%Z with 53%Z in Hdq by lia.
  (* rounding to nearest adds at most one *)
  set (m2 := round_nearest_even (shr_m mrs') (loc_of_shr_record mrs')).
  assert (Hm2 : m2 = Z.pos q \/ m2 = (Z.pos q + 1)%Z).
  { unfold m2, round_nearest_even. rewrite Hm1.
    destruct (loc_of_shr_record mrs') as [|[]]; auto.
    destruct (Z.even (Z.pos q)); auto. }
  pose proof (digits_bound q) as [Bq1 Bq2]. rewrite Hdq in Bq1, Bq2.
  assert (Hpos2 : exists q2, m2 = Z.pos q2) by
    (destruct Hm2 as [-> | ->]; [eauto|exists (q + 1)%positive; lia]).
  destruct Hpos2 as [q2 Hq2].
  assert (Hd2 : Z.pos (digits2_pos q2) = 53%Z \/
                (Z.pos (digits2_pos q2) = 54%Z /\ Z.pos q2 = (2 ^ 53)%Z)).
  { destruct (Z.eq_dec (Z.pos q2) (2 ^ 53)) as [E|NE].
    - right. split; [|exact E]. apply digits_unique; [|lia].
      rewrite E. simpl. lia.
    - left. apply digits_unique; [|lia]. simpl Z.sub. lia. }
  destruct (shr_fexp_spec m2 e' loc_Exact) as [Hm3 He3]; [lia|].
  destruct (shr_fexp prec emax m2 e' loc_Exact) as [mrs'' e''].
  simpl fst in Hm3. simpl snd in He3.
  rewrite Hq2 in Hm3, He3.
  change (Zdigits2 (Z.pos q2)) with (Z.pos (digits2_pos q2)) in Hm3, He3.
  rewrite fexp_large in Hm3, He3 by lia.
  destruct Hd2 as [Hd2|[Hd2 Hv2]]; rewrite Hd2 in Hm3, He3;
    simpl Z.max in Hm3, He3.
  - simpl in Hm3. rewrite Z.div_1_r in Hm3. rewrite Hm3.
    destruct (e'' <=? emax - prec)%Z.
    + split; [exact I|]. split; [exact Hd2|lia].
    + split; exact I.
  - rewrite Hv2 in Hm3. change (2 ^ 53 / 2 ^ 1)%Z with (Z.pos (2 ^ 52)) in Hm3.
    rewrite Hm3.
    destruct (e'' <=? emax - prec)%Z.
    + split; [exact I|]. split; [reflexivity|lia].
    + split; exact I.
Qed.

Lemma canonicalFrom_weaken (lo lo' : Z) (x : number) :
  (lo' <= lo)%Z -> canonicalFrom lo x -> canonicalFrom lo' x.
Proof.
  intros H. destruct x as [[|]|[|]| |[|] m e]; simpl; auto.
  intros [Hd He]. split; [exact Hd|lia].
Qed.

Lemma binary_round_positive (m : positive) (e : Z) :
  (-1000 <= e)%Z ->
  positive_number (binary_round prec emax false m e) /\
  canonicalFrom (Z.min e (Z.pos (digits2_pos m) + e - 53))
    (binary_round prec emax false m e).
Proof.
  intros He. unfold binary_round.
  set (d := Z.pos (digits2_pos m)).
  assert (Hf : fexp prec emax (d + e) = (d + e - 53)%Z)
    by (unfold fexp, emin, prec, emax, d; lia).
  rewrite Hf. unfold shl_align.
  destruct (d + e - 53 - e)%Z as [|k|k] eqn:Ek.
  - destruct (binary_round_aux_positive m e loc_Exact) as [[H1 H2]|H];
      [lia| |fold d in H; lia].
    split; [exact H1|]. eapply canonicalFrom_weaken; [|exact H2]. lia.
  - destruct (binary_round_aux_positive m e loc_Exact) as [[H1 H2]|H];
      [lia| |fold d in H; lia].
    split; [exact H1|]. eapply canonicalFrom_weaken; [|exact H2]. lia.
  - destruct (binary_round_aux_positive (Pos.iter xO m k) (d + e - 53)
                loc_Exact) as [[H1 H2]|H]; [lia| |].
    + split; [exact H1|]. eapply canonicalFrom_weaken; [|exact H2]. lia.
    + rewrite digits2_pos_shift in H. fold d in H. lia.
Qed.

Lemma ofZ_canonical (z : Z) : (0 <= z)%Z -> canonical (ofZ z).
Proof.
  intros H. unfold ofZ, binary_normalize.
  destruct z as [|p|p]; [exact I| |lia].
  destruct (binary_round_positive p 0) as [_ Hc]; [lia|].
  unfold canonical. eapply canonicalFrom_weaken; [|exact Hc]. lia.
Qed.

Lemma positive_number_gt (x : number) : positive_number x -> gt x zero = true.
Proof. destruct x as [s|[|]| |[|] m e]; simpl; intros H; try contradiction; reflexivity. Qed.

(** Rounding under a minus sign never gives a Number above zero. *)
Lemma binary_round_aux_minus (m e : Z) (l : location) :
  (0 <= m)%Z -> gt (binary_round_aux prec emax true m e l) zero = false.
Proof.
  intros H. unfold binary_round_aux.
  pose proof (shr_fexp_nonneg m e l H) as H1.
  destruct (shr_fexp prec emax m e l) as [mrs' e']. simpl in H1.
  pose proof (shr_fexp_nonneg _ e' loc_Exact
                (round_nearest_even_nonneg _ (loc_of_shr_record mrs') H1)) as H2.
  destruct (shr_fexp prec emax _ e' loc_Exact) as [mrs'' e'']. simpl in H2.
  destruct (shr_m mrs'') as [|q|q]; [reflexivity| |reflexivity].
  destruct (e'' <=? emax - prec)%Z; reflexivity.
Qed.

Lemma shl_align_value (m : positive) (e e' : Z) :
  (e' <= e)%Z ->
  Z.pos (fst (shl_align m e e')) = (Z.pos m * 2 ^ (e - e'))%Z.
Proof.
  intros H. unfold shl_align.
  destruct (e' - e)%Z as [|k|k] eqn:Ek; simpl fst.
  - replace (e - e')%Z with 0%Z by lia. lia.
  - lia.
  - rewrite shift_value. f_equal. f_equal. lia.
Qed.

Lemma gt_finite (m1 m2 : positive) (e1 e2 : Z) :
  gt (S754_finite false m1 e1) (S754_finite false m2 e2) = true <->
  (e2 < e1)%Z \/ (e2 = e1 /\ (m2 < m1)%positive).
Proof.
  unfold gt, SFltb. simpl.
  destruct (Z.compare_spec e2 e1) as [E|E|E].
  - rewrite Pos.compare_cont_spec. simpl.
    destruct (Pos.compare_spec m2 m1) as [M|M|M]; split; intros H;
      try discriminate; try reflexivity; try (right; split; [exact E|lia]);
      destruct H as [H|[_ H]]; lia.
  - split; auto.
  - split; [discriminate|]. intros [H|[H _]]; lia.
Qed.

(** The sign of a difference of two canonical Numbers tells which one
    is greater. *)
Lemma sub_positive (x y : number) :
  canonical x -> canonical y ->
  gt (SFsub prec emax x y) zero = gt x y.
Proof.
  destruct x as [[|]|[|]| |[|] mx ex], y as [[|]|[|]| |[|] my ey];
    intros Hx Hy; try contradiction; try reflexivity.
  destruct Hx as [Dx Ex], Hy as [Dy Ey].
  pose proof (digits_bound mx) as [Bx1 Bx2]. rewrite Dx in Bx1, Bx2.
  pose proof (digits_bound my) as [By1 By2]. rewrite Dy in By1, By2.
  simpl Z.sub in Bx1, By1.
  unfold SFsub, cond_Zopp.
  set (ez := Z.min ex ey).
  rewrite !shl_align_value by (unfold ez; lia).
  set (D := (Z.pos mx * 2 ^ (ex - ez) - Z.pos my * 2 ^ (ey - ez))%Z).
  assert (Hsign : (0 < D)%Z <-> (ey < ex)%Z \/ (ey = ex /\ (my < mx)%positive)).
  { unfold D, ez.
    destruct (Z.lt_trichotomy ex ey) as [L|[E|G]].
    - replace (Z.min ex ey) with ex by lia.
      replace (ex - ex)%Z with 0%Z by lia.
      rewrite Z.pow_0_r, Z.mul_1_r.
      assert (P : (2 ^ 1 <= 2 ^ (ey - ex))%Z) by (apply Z.pow_le_mono_r; lia).
      change (2 ^ 1)%Z with 2%Z in P.
      split; [|lia]. intros H. exfalso. nia.
    - subst ey. replace (Z.min ex ex) with ex by lia.
      replace (ex - ex)%Z with 0%Z by lia.
      rewrite Z.pow_0_r, !Z.mul_1_r. lia.
    - replace (Z.min ex ey) with ey by lia.
      replace (ey - ey)%Z with 0%Z by lia.
      rewrite Z.pow_0_r, Z.mul_1_r.
      assert (P : (2 ^ 1 <= 2 ^ (ex - ey))%Z) by (apply Z.pow_le_mono_r; lia).
      change (2 ^ 1)%Z with 2%Z in P.
      split; [lia|]. intros _. nia. }
  rewrite <- gt_finite in Hsign.
  set (b := gt (S754_finite false mx ex) (S754_finite false my ey)) in *.
  unfold binary_normalize.
  destruct D as [|q|q] eqn:ED.
  - destruct b; [|reflexivity].
    destruct Hsign as [_ H]. specialize (H eq_refl). lia.
  - destruct Hsign as [H _]. rewrite H by lia.
    apply positive_number_gt.
    apply binary_round_positive. unfold ez. lia.
  - destruct b.
    + destruct Hsign as [_ H]. specialize (H eq_refl). lia.
    + unfold binary_round.
      destruct (shl_align q ez _) as [mz ez'].
      apply binary_round_aux_minus. lia.
Qed.

(** ** Strings and the header pattern *)

Lemma append_assoc (a b c : string) :
  ((a ++ b) ++ c)%string = (a ++ b ++ c)%string.
Proof. induction a as [|x a IH]; simpl; [reflexivity|now rewrite IH]. Qed.

Lemma append_empty_r (a : string) : (a ++ "")%string = a.
Proof. induction a as [|x a IH]; simpl; [reflexivity|now rewrite IH]. Qed.

Lemma forallb_app (p : ascii -> bool) (a b : string) :
  forallb p (a ++ b)%string = forallb p a && forallb p b.
Proof.
  induction a as [|x a IH]; simpl; [reflexivity|].
  now rewrite IH, andb_assoc.
Qed.

Lemma span_spec (p : ascii -> bool) (s a b : string) :
  span p s = (a, b) <->
  s = (a ++ b)%string /\ forallb p a = true /\ stopsAt p b.
Proof.
  revert a b. induction s as [|c s IH]; intros a b; simpl.
  - split.
    + intros [= <- <-]. simpl. auto.
    + intros (H & _ & _). destruct a; [|discriminate H].
      simpl in H. now subst b.
  - destruct (p c) eqn:Ep.
    + destruct (span p s) as [a' b'] eqn:Es.
      destruct (IH a' b') as [IH1 _]. specialize (IH1 eq_refl).
      destruct IH1 as (-> & Ha' & Hb'). split.
      * intros [= <- <-]. simpl. rewrite Ep, Ha'. auto.
      * intros (H & Ha & Hb). destruct a as [|x a]; simpl in *.
        -- subst b. simpl in Hb. congruence.
        -- injection H as <- H. apply andb_true_iff in Ha.
           destruct Ha as [_ Ha].
           destruct (IH a b) as [_ IH2].
           specialize (IH2 (conj H (conj Ha Hb))).
           now injection IH2 as <- <-.
    + split.
      * intros [= <- <-]. simpl. auto.
      * intros (H & Ha & Hb). destruct a as [|x a]; simpl in *.
        -- now subst b.
        -- injection H as <- _. rewrite Ep in Ha. discriminate.
Qed.

Lemma span_app (p : ascii -> bool) (a b : string) :
  forallb p a = true -> stopsAt p b -> span p (a ++ b)%string = (a, b).
Proof. intros Ha Hb. apply span_spec. auto. Qed.

Lemma unsnoc_spec (s a : string) (l : ascii) :
  unsnoc s = Some (a, l) <-> s = (a ++ String l "")%string.
Proof.
  revert a. induction s as [|c s IH]; intros a; simpl.
  - split; [discriminate|]. destruct a; discriminate.
  - destruct (unsnoc s) as [[a' l']|] eqn:E.
    + destruct (IH a') as [IH1 _]. 
      split.
      * intros [= <- <-]. simpl. f_equal. apply IH. reflexivity.
      * intros H. destruct a as [|x a]; simpl in H.
        -- injection H as _ ->. discriminate E.
        -- injection H as <- H. apply IH in H. now injection H as <- <-.
    + destruct s as [|c' s']; [|simpl in E; destruct (unsnoc s') as [[]|]; discriminate].
      split.
      * intros [= <- <-]. reflexivity.
      * intros H. destruct a as [|x a]; simpl in H.
        -- now injection H as <-.
        -- injection H as _ H. destruct a; discriminate.
Qed.

Lemma digit_not_space (c : ascii) : isDigit c = true -> isWhiteSpace c = false.
Proof.
  unfold isDigit, isWhiteSpace. intros H.
  apply andb_true_iff in H. destruct H as [H1 H2].
  apply N.leb_le in H1. apply N.leb_le in H2.
  repeat (apply orb_false_iff; split);
    try (apply andb_false_iff; right; apply N.leb_gt; lia);
    apply N.eqb_neq; lia.
Qed.

Lemma space_not_digit (c : ascii) : isWhiteSpace c = true -> isDigit c = false.
Proof.
  intros H. destruct (isDigit c) eqn:E; [|reflexivity].
  apply digit_not_space in E. congruence.
Qed.

Lemma nonempty_head (s : string) :
  s <> "" -> exists c r, s = String c r.
Proof. destruct s as [|c r]; [now intros H; elim H|eauto]. Qed.

Lemma trimStart_spaces (ws s : string) :
  forallb isWhiteSpace ws = true -> trimStart (ws ++ s)%string = trimStart s.
Proof.
  induction ws as [|c ws IH]; simpl; [reflexivity|].
  intros H. apply andb_true_iff in H. destruct H as [-> H]. auto.
Qed.

Lemma trim_spaces_l (ws s : string) :
  forallb isWhiteSpace ws = true -> trim (ws ++ s)%string = trim s.
Proof. intros H. unfold trim. now rewrite trimStart_spaces. Qed.

Lemma trim_all_spaces (ws : string) :
  forallb isWhiteSpace ws = true -> trim ws = "".
Proof.
  intros H. rewrite <- (append_empty_r ws). now rewrite trim_spaces_l.
Qed.

Lemma unsnoc_nonempty (s : string) :
  s <> "" -> exists a l, s = (a ++ String l "")%string.
Proof.
  intros H. destruct (unsnoc s) as [[a l]|] eqn:E.
  - exists a, l. now apply unsnoc_spec.
  - destruct s as [|c s]; [now elim H|]. simpl in E.
    destruct (unsnoc s) as [[]|]; discriminate.
Qed.

Lemma append_nonempty_l (a b : string) : a <> "" -> (a ++ b)%string <> "".
Proof. destruct a; [now intros H; elim H|discriminate]. Qed.

Lemma fieldGroup_sound (rest g2 : string) :
  fieldGroup rest = Some g2 ->
  exists w2, rest = (w2 ++ g2)%string /\
             w2 <> "" /\ forallb isWhiteSpace w2 = true /\
             g2 <> "" /\ forallb isDot g2 = true.
Proof.
  unfold fieldGroup.
  destruct (span isWhiteSpace rest) as [ws tl] eqn:Es.
  apply span_spec in Es. destruct Es as (-> & Hws & Htl).
  destruct ws as [|w ws']; [discriminate|]. simpl isEmpty. cbv iota.
  destruct tl as [|t tl'].
  - simpl. intros H.
    destruct (unsnoc ws') as [[a l]|] eqn:Eu; [|discriminate H].
    apply unsnoc_spec in Eu. subst ws'.
    destruct (isLineTerminator l) eqn:El; [discriminate H|].
    injection H as <-. exists (String w a).
    rewrite append_empty_r. simpl in Hws.
    rewrite forallb_app in Hws. simpl in Hws.
    apply andb_true_iff in Hws. destruct Hws as [Hw Hws].
    apply andb_true_iff in Hws. destruct Hws as [Ha _].
    repeat split; try discriminate.
    + simpl. now rewrite Hw, Ha.
    + simpl. unfold isDot. now rewrite El.
  - simpl isEmpty. simpl negb. cbv iota.
    destruct (forallb _ (String t tl')) eqn:Ed; [|discriminate].
    intros [= <-]. exists (String w ws'). repeat split; try discriminate; auto.
Qed.

Lemma fieldGroup_complete (w2 g2 : string) :
  w2 <> "" -> forallb isWhiteSpace w2 = true ->
  g2 <> "" -> forallb isDot g2 = true ->
  exists g2', fieldGroup (w2 ++ g2)%string = Some g2' /\ trim g2' = trim g2.
Proof.
  intros Hw2 Hws Hg2 Hdot. unfold fieldGroup.
  destruct (span isWhiteSpace g2) as [ga gb] eqn:Eg.
  apply span_spec in Eg. destruct Eg as (-> & Hga & Hgb).
  rewrite <- append_assoc.
  rewrite (span_app isWhiteSpace (w2 ++ ga) gb)
    by (rewrite ?forallb_app, ?Hws, ?Hga; auto).
  destruct (nonempty_head _ Hw2) as (w & w2' & ->). simpl isEmpty. cbv iota.
  destruct gb as [|t gb'].
  - simpl isEmpty. simpl negb. cbv iota.
    rewrite append_empty_r in Hg2, Hdot |- *.
    destruct (unsnoc_nonempty ga Hg2) as (a & l & ->).
    assert (Eu : unsnoc (String w w2' ++ a ++ String l "")%string
                 = Some ((String w w2' ++ a)%string, l)).
    { apply unsnoc_spec. now rewrite append_assoc. }
    rewrite Eu. simpl append.
    rewrite forallb_app in Hdot, Hga. simpl in Hdot, Hga.
    rewrite !andb_true_r in Hdot, Hga.
    apply andb_true_iff in Hdot. destruct Hdot as [_ Hl].
    apply andb_true_iff in Hga. destruct Hga as [Ha Hl'].
    unfold isDot in Hl. apply negb_true_iff in Hl. rewrite Hl.
    exists (String l ""). split; [reflexivity|].
    rewrite !trim_all_spaces; auto.
    + rewrite forallb_app. simpl. now rewrite Ha, Hl'.
    + simpl. now rewrite Hl'.
  - simpl isEmpty. simpl negb. cbv iota.
    rewrite forallb_app in Hdot. apply andb_true_iff in Hdot.
    destruct Hdot as [_ Hd]. fold isDot.
    change (forallb (fun c => negb (isLineTerminator c))) with (forallb isDot).
    rewrite Hd. exists (String t gb'). split; [reflexivity|].
    now rewrite trim_spaces_l.
Qed.

Lemma matchCourt_sound (label nm g2 : string) :
  matchCourt label = Some (nm, g2) -> CourtPattern label nm g2.
Proof.
  unfold matchCourt.
  destruct label as [|c0 [|c1 [|c2 [|c3 [|c4 r0]]]]]; try discriminate.
  destruct (isCourtWord c0 c1 c2 c3 c4) eqn:Ew; [|discriminate].
  destruct (span isWhiteSpace r0) as [w1 r1] eqn:E1.
  destruct (span isDigit r1) as [ds r2] eqn:E2.
  apply span_spec in E1. destruct E1 as (-> & Hw1 & _).
  apply span_spec in E2. destruct E2 as (-> & Hds & _).
  destruct (isEmpty w1) eqn:Ew1; [discriminate|].
  destruct (isEmpty ds) eqn:Eds; [discriminate|].
  simpl orb. cbv iota.
  destruct (fieldGroup r2) as [g|] eqn:Ef; [|discriminate].
  intros [= <- <-].
  apply fieldGroup_sound in Ef.
  destruct Ef as (w2 & -> & Hw2 & Hws2 & Hg & Hdot).
  exists (String c0 (String c1 (String c2 (String c3 (String c4 ""))))),
         w1, ds, w2.
  apply isEmpty_false in Ew1, Eds.
  unfold isCourtWord in Ew. apply String.eqb_eq in Ew.
  repeat split; auto.
Qed.

Lemma toLowerCase_length (s : string) :
  String.length (toLowerCase s) = String.length s.
Proof. induction s; simpl; auto. Qed.

Lemma matchCourt_complete (label nm g2 : string) :
  CourtPattern label nm g2 ->
  exists g2', matchCourt label = Some (nm, g2') /\ trim g2' = trim g2.
Proof.
  intros (word & w1 & ds & w2 & -> & -> & Hword & Hw1 & Hws1 & Hds & Hdig
          & Hw2 & Hws2 & Hg2 & Hdot).
  assert (Hlen : String.length word = 5)
    by (rewrite <- toLowerCase_length, Hword; reflexivity).
  destruct word as [|c0 [|c1 [|c2 [|c3 [|c4 [|c5 w]]]]]]; try discriminate Hlen.
  destruct (fieldGroup_complete w2 g2 Hw2 Hws2 Hg2 Hdot) as (g2' & Hf & Ht).
  exists g2'. split; [|exact Ht].
  simpl append. unfold matchCourt.
  unfold isCourtWord. rewrite Hword. simpl String.eqb. cbv iota.
  destruct (nonempty_head _ Hds) as (d & ds' & ->).
  destruct (nonempty_head _ Hw2) as (w & w2' & ->).
  destruct (nonempty_head _ Hw1) as (v & w1' & ->).
  rewrite (span_app isWhiteSpace (String v w1')
             (String d ds' ++ String w w2' ++ g2)%string Hws1).
  2:{ simpl. simpl in Hdig. apply andb_true_iff in Hdig.
      apply digit_not_space. tauto. }
  rewrite (span_app isDigit (String d ds') (String w w2' ++ g2)%string Hdig).
  2:{ simpl. simpl in Hws2. apply andb_true_iff in Hws2.
      apply space_not_digit. tauto. }
  simpl isEmpty. simpl orb. cbv iota.
  rewrite Hf. reflexivity.
Qed.

(** ** Winner computation *)

Lemma scoreNumber_empty : scoreNumber "" = None.
Proof. reflexivity. Qed.

Lemma scoreNumber_nonempty (s : string) :
  s <> "" -> scoreNumber s = Some (Number s).
Proof. intros H. unfold scoreNumber. apply isEmpty_false in H. now rewrite H. Qed.

Lemma renderMatchup_placeholder (m : Matchup) (showWinner : bool) :
  teamA m = "" -> teamB m = "" -> renderMatchup m showWinner = NoMatches.
Proof. intros Ha Hb. unfold renderMatchup. now rewrite Ha, Hb. Qed.

Lemma renderMatchup_teams (m : Matchup) (showWinner : bool) :
  teamA m <> "" \/ teamB m <> "" ->
  renderMatchup m showWinner =
    MatchTeams
      (mkTeamRow (showWinner && beats (scoreNumber (scoreA m)) (scoreNumber (scoreB m)))
                 (playersOf (teamA m)) (scoreNumber (scoreA m)))
      (mkTeamRow (showWinner && beats (scoreNumber (scoreB m)) (scoreNumber (scoreA m)))
                 (playersOf (teamB m)) (scoreNumber (scoreB m))).
Proof.
  intros H. unfold renderMatchup.
  destruct H as [H|H]; apply isEmpty_false in H; rewrite H; simpl;
    rewrite ?andb_false_r; reflexivity.
Qed.

Lemma winner_needs_show (m : Matchup) :
  winnerA (renderMatchup m false) = false /\
  winnerB (renderMatchup m false) = false.
Proof.
  unfold renderMatchup.
  destruct (isEmpty (teamA m) && isEmpty (teamB m)); simpl; auto.
Qed.

Lemma winner_needs_both (m : Matchup) (showWinner : bool) :
  scoreA m = "" \/ scoreB m = "" ->
  winnerA (renderMatchup m showWinner) = false /\
  winnerB (renderMatchup m showWinner) = false.
Proof.
  intros H. unfold renderMatchup.
  destruct (isEmpty (teamA m) && isEmpty (teamB m)); simpl; auto.
  destruct H as [H|H]; rewrite H; simpl;
    destruct (scoreNumber _); simpl; rewrite ?andb_false_r; auto.
Qed.

(** C7.  [renderMatchup] converts a score to a Number exactly when its
    string is non-empty (the score tag of a side carries that Number) and
    compares the two Numbers only when both are there.  With [showWinner]
    set, in a cell that shows a match (one team at least is named), side
    A is marked winner exactly when its Number is greater than side B's,
    and side B exactly when its Number is greater than side A's; equal
    scores mark neither side, and an empty score on either side marks
    neither side whatever [showWinner] is.  Scores 21 and 15 mark side A,
    scores 15 and 15 mark neither. *)
Theorem C7_winner_by_score (m : Matchup) (showWinner : bool) :
  (forall rowA rowB, renderMatchup m showWinner = MatchTeams rowA rowB ->
     teamScore rowA = (if isEmpty (scoreA m) then None
                       else Some (Number (scoreA m))) /\
     teamScore rowB = (if isEmpty (scoreB m) then None
                       else Some (Number (scoreB m))))
  /\ (scoreA m = "" \/ scoreB m = "" ->
     winnerA (renderMatchup m showWinner) = false /\
     winnerB (renderMatchup m showWinner) = false)
  /\ (showWinner = true -> teamA m <> "" \/ teamB m <> "" ->
      scoreA m <> "" -> scoreB m <> "" ->
      winnerA (renderMatchup m showWinner)
        = gt (Number (scoreA m)) (Number (scoreB m)) /\
      winnerB (renderMatchup m showWinner)
        = gt (Number (scoreB m)) (Number (scoreA m)))
  /\ (SFcompare (Number (scoreA m)) (Number (scoreB m)) = Some Eq ->
      winnerA (renderMatchup m showWinner) = false /\
      winnerB (renderMatchup m showWinner) = false)
  /\ (winnerA (renderMatchup m showWinner) = true ->
      winnerB (renderMatchup m showWinner) = false)
  /\ (teamA m <> "" \/ teamB m <> "" -> scoreA m = "21" -> scoreB m = "15" ->
      winnerA (renderMatchup m true) = true /\
      winnerB (renderMatchup m true) = false)
  /\ (scoreA m = "15" -> scoreB m = "15" ->
      winnerA (renderMatchup m true) = false /\
      winnerB (renderMatchup m true) = false).
Proof.
  split.
  { intros rowA rowB. unfold renderMatchup, scoreNumber.
    destruct (isEmpty (teamA m) && isEmpty (teamB m)); [discriminate|].
    intros [= <- <-]. split; reflexivity. }
  split; [apply winner_needs_both|].
  split.
  { intros -> Ht Ha Hb. rewrite (renderMatchup_teams m true Ht). simpl.
    rewrite (scoreNumber_nonempty _ Ha), (scoreNumber_nonempty _ Hb).
    split; reflexivity. }
  split.
  { intros Heq. destruct (gt_equal _ _ Heq) as [H1 H2].
    unfold renderMatchup.
    destruct (isEmpty (teamA m) && isEmpty (teamB m)); simpl; auto.
    unfold scoreNumber.
    destruct (isEmpty (scoreA m)), (isEmpty (scoreB m)); simpl;
      rewrite ?H1, ?H2, ?andb_false_r; auto. }
  split.
  { unfold renderMatchup.
    destruct (isEmpty (teamA m) && isEmpty (teamB m)); simpl; auto.
    destruct showWinner; simpl; auto.
    destruct (scoreNumber (scoreA m)) as [a|], (scoreNumber (scoreB m)) as [b|];
      simpl; auto.
    apply gt_asym. }
  split.
  { intros Ht Ha Hb. rewrite (renderMatchup_teams m true Ht). simpl.
    rewrite Ha, Hb. split; vm_compute; reflexivity. }
  intros Ha Hb. unfold renderMatchup.
  destruct (isEmpty (teamA m) && isEmpty (teamB m)); simpl; auto.
  rewrite Ha, Hb. split; vm_compute; reflexivity.
Qed.

Lemma C7_winner_by_score_witness :
  (winnerA (renderMatchup (redBlue "21" "15") true) = true /\
   winnerB (renderMatchup (redBlue "21" "15") true) = false)
  /\ (winnerA (renderMatchup (redBlue "21" "15") true)
        = gt (Number "21") (Number "15") /\
      winnerB (renderMatchup (redBlue "21" "15") true)
        = gt (Number "15") (Number "21"))
  /\ (winnerA (renderMatchup (redBlue "" "15") true) = false /\
      winnerB (renderMatchup (redBlue "" "15") true) = false).
Proof.
  destruct (C7_winner_by_score (redBlue "21" "15") true)
    as (_ & _ & Hcmp & _ & _ & Hex & _).
  destruct (C7_winner_by_score (redBlue "" "15") true) as (_ & Hempty & _).
  split; [|split].
  - apply Hex; [left; discriminate | reflexivity | reflexivity].
  - apply Hcmp; [reflexivity | left; discriminate | discriminate | discriminate].
  - apply Hempty. left. reflexivity.
Defined.

(** C10.  A score string that is non-empty but converts to NaN, on
    either side, leaves both sides unmarked, whatever [showWinner] is
    and whatever the other score. *)
Theorem C10_nan_score_marks_nobody (m : Matchup) (showWinner : bool) :
  (scoreA m <> "" /\ isNaN (Number (scoreA m)) = true) \/
  (scoreB m <> "" /\ isNaN (Number (scoreB m)) = true) ->
  winnerA (renderMatchup m showWinner) = false /\
  winnerB (renderMatchup m showWinner) = false.
Proof.
  intros H. unfold renderMatchup.
  destruct (isEmpty (teamA m) && isEmpty (teamB m)); simpl; auto.
  destruct H as [[Hne Hnan]|[Hne Hnan]];
    rewrite (scoreNumber_nonempty _ Hne), (isNaN_eq _ Hnan);
    destruct (scoreNumber _) as [x|]; simpl;
    rewrite ?gt_NaN_l, ?gt_NaN_r, ?andb_false_r; auto.
Qed.

Lemma C10_nan_score_marks_nobody_witness :
  winnerA (renderMatchup (redBlue "abc" "15") true) = false /\
  winnerB (renderMatchup (redBlue "abc" "15") true) = false.
Proof.
  apply (C10_nan_score_marks_nobody (redBlue "abc" "15") true).
  left. split.
  - discriminate.
  - vm_compute. reflexivity.
Defined.

(** ** Remote errors *)

Lemma orElse_present (x b : string) : x <> "" -> orElse (Some x) b = x.
Proof. intros H. simpl. apply isEmpty_false in H. now rewrite H. Qed.

Lemma orElse_absent (o : option string) (b : string) :
  absent o -> orElse o b = b.
Proof. intros [->| ->]; reflexivity. Qed.

Lemma gvizCallback_not_ok (r : Gviz.Response) :
  Gviz.status r <> Some "ok" ->
  gvizCallback (Some r) = Reject (errorDetail (Some r)).
Proof.
  intros H. unfold gvizCallback.
  destruct (Gviz.status r) as [st|]; [|reflexivity].
  destruct (String.eqb st "ok") eqn:E; [|reflexivity].
  apply String.eqb_eq in E. subst st. now elim H.
Qed.

(** C8.  A response whose status is not "ok" rejects the pending promise
    of [fetchSheetData].  The message of the rejection is the
    [detailed_message] of the first entry of [errors] when that entry
    has one; otherwise the [message] of that entry when it has one;
    otherwise (no first entry, or neither field) the fixed text
    "Unknown error from Google Sheets".  A field counts as there when
    it is a non-empty string. *)
Theorem C8_remote_error_message (r : Gviz.Response) :
  Gviz.status r <> Some "ok" ->
  let settled := promise (fetchStep fetchSheetData (Response (Some r))) in
  (forall e rest d,
      Gviz.errors r = Some (e :: rest) ->
      Gviz.detailed_message e = Some d -> d <> "" ->
      settled = Some (Reject d))
  /\ (forall e rest msg,
      Gviz.errors r = Some (e :: rest) ->
      absent (Gviz.detailed_message e) ->
      Gviz.message e = Some msg -> msg <> "" ->
      settled = Some (Reject msg))
  /\ (forall e rest,
      Gviz.errors r = Some (e :: rest) ->
      absent (Gviz.detailed_message e) -> absent (Gviz.message e) ->
      settled = Some (Reject "Unknown error from Google Sheets"))
  /\ (Gviz.errors r = None \/ Gviz.errors r = Some [] ->
      settled = Some (Reject "Unknown error from Google Sheets")).
Proof.
  intros Hst settled.
  assert (Hs : settled = Some (Reject (errorDetail (Some r)))).
  { unfold settled, fetchStep, fetchSheetData, settle. cbn [callbackRegistered promise].
    now rewrite (gvizCallback_not_ok r Hst). }
  rewrite Hs. unfold errorDetail, firstError.
  repeat split.
  - intros e rest d -> -> Hd. now rewrite (orElse_present d _ Hd).
  - intros e rest msg -> Hd -> Hm.
    now rewrite (orElse_absent _ _ Hd), (orElse_present msg _ Hm).
  - intros e rest -> Hd Hm.
    now rewrite (orElse_absent _ _ Hd), (orElse_absent _ _ Hm).
  - intros [-> | ->]; reflexivity.
Qed.

Lemma C8_remote_error_message_witness :
  promise (fetchStep fetchSheetData (Response (Some failedResponse)))
  = Some (Reject "No such sheet").
Proof.
  refine (proj1 (C8_remote_error_message failedResponse _) _ _ _ _ _ _).
  - discriminate.
  - reflexivity.
  - reflexivity.
  - discriminate.
Defined.

(** ** The grid *)

Lemma validRoundsOf_In (rounds : list Round) (r : Round) :
  In r (validRoundsOf rounds) <-> In r rounds /\ time r <> "".
Proof.
  unfold validRoundsOf. rewrite filter_In, negb_true_iff, isEmpty_false.
  reflexivity.
Qed.

Lemma validRoundsOf_idem (rounds : list Round) :
  validRoundsOf (validRoundsOf rounds) = validRoundsOf rounds.
Proof.
  unfold validRoundsOf. induction rounds as [|r rs IH]; simpl; auto.
  destruct (negb (isEmpty (time r))) eqn:E; simpl; rewrite ?E, IH; reflexivity.
Qed.

Lemma validRoundsOf_app (l1 l2 : list Round) :
  validRoundsOf (l1 ++ l2) = validRoundsOf l1 ++ validRoundsOf l2.
Proof. apply filter_app. Qed.

Lemma validRoundsOf_drop (l1 l2 : list Round) (r : Round) :
  time r = "" -> validRoundsOf (l1 ++ r :: l2) = validRoundsOf (l1 ++ l2).
Proof.
  intros H. rewrite !validRoundsOf_app. simpl. now rewrite H.
Qed.

(** [renderAll] looks at its argument through [validRoundsOf] only. *)
Lemma renderAll_valid (flt : string) (rounds : list Round) :
  renderAll flt rounds = renderAll flt (validRoundsOf rounds).
Proof. unfold renderAll. now rewrite validRoundsOf_idem. Qed.

Lemma courtHasTeam_qualifies (flt : string) (validRounds : list Round)
    (i : nat) (b : bool) :
  courtHasTeam flt validRounds i = Some b -> b = qualifies flt validRounds i.
Proof.
  unfold courtHasTeam, qualifies.
  induction validRounds as [|r rs IH]; simpl; intros H.
  - now injection H as <-.
  - destruct (nth_error (matchups r) i) as [m|]; simpl in H; [|discriminate].
    destruct (playsIn flt m); simpl; auto.
    now injection H as <-.
Qed.

Lemma filterM_decided {A} (p : A -> option bool) (q : A -> bool) (l r : list A) :
  (forall x b, p x = Some b -> b = q x) ->
  filterM p l = Some r -> r = filter q l.
Proof.
  intros Hq. revert r. induction l as [|x xs IH]; simpl; intros r H.
  - now injection H as <-.
  - destruct (p x) as [b|] eqn:E; simpl in H; [|discriminate].
    destruct (filterM p xs) as [r'|]; simpl in H; [|discriminate].
    injection H as <-. rewrite <- (Hq x b E), (IH r' eq_refl). now destruct b.
Qed.

Lemma courtIndicesFor_all (validRounds : list Round) (allCourts : list Matchup) :
  courtIndicesFor "" validRounds allCourts = Some (seq 0 (List.length allCourts)).
Proof. reflexivity. Qed.

Lemma courtIndicesFor_filter (flt : string) (validRounds : list Round)
    (allCourts : list Matchup) (idxs : list nat) :
  flt <> "" ->
  courtIndicesFor flt validRounds allCourts = Some idxs ->
  idxs = filter (qualifies flt validRounds) (seq 0 (List.length allCourts)).
Proof.
  intros Hf. unfold courtIndicesFor. apply isEmpty_false in Hf. rewrite Hf.
  apply filterM_decided. intros i b. apply courtHasTeam_qualifies.
Qed.

Lemma courtIndicesFor_range (flt : string) (validRounds : list Round)
    (allCourts : list Matchup) (idxs : list nat) (i : nat) :
  courtIndicesFor flt validRounds allCourts = Some idxs ->
  In i idxs -> i < List.length allCourts.
Proof.
  unfold courtIndicesFor. destruct (isEmpty flt).
  - intros [= <-] Hi. apply in_seq in Hi. lia.
  - intros H Hi. rewrite (filterM_filter _ _ _ H) in Hi.
    apply filter_In in Hi. destruct Hi as [Hi _]. apply in_seq in Hi. lia.
Qed.

Lemma qualifies_spec (flt : string) (validRounds : list Round) (i : nat) :
  qualifies flt validRounds i = true <->
  exists r m, In r validRounds /\ nth_error (matchups r) i = Some m /\
              (teamA m = flt \/ teamB m = flt).
Proof.
  unfold qualifies. rewrite existsb_exists. split.
  - intros (r & Hr & H). destruct (nth_error (matchups r) i) as [m|] eqn:E;
      [|discriminate].
    exists r, m. repeat split; auto.
    unfold playsIn in H. apply orb_true_iff in H.
    destruct H as [H|H]; apply String.eqb_eq in H; auto.
  - intros (r & m & Hr & Hm & H). exists r. split; [exact Hr|].
    rewrite Hm. unfold playsIn. apply orb_true_iff.
    destruct H as [H|H]; [left|right]; now apply String.eqb_eq.
Qed.

(** The shape of what [renderAll] produces. *)
Lemma renderAll_inv (flt : string) (rounds : list Round) (ct : Content) :
  renderAll flt rounds = Some ct ->
  match validRoundsOf rounds with
  | [] => ct = SheetEmpty
  | first :: _ =>
      exists idxs,
        courtIndicesFor flt (validRoundsOf rounds) (matchups first) = Some idxs /\
        ((flt <> "" /\ idxs = [] /\ ct = NoTeamMatches) \/
         ((flt = "" \/ idxs <> []) /\
          exists rows,
            mapM (renderRow flt (validRoundsOf rounds) (matchups first)) idxs
              = Some rows /\
            ct = Schedule (List.map time (validRoundsOf rounds)) rows))
  end.
Proof.
  unfold renderAll. destruct (validRoundsOf rounds) as [|first rest] eqn:Ev.
  - now intros [= <-].
  - destruct (courtIndicesFor flt (first :: rest) (matchups first)) as [idxs|];
      simpl; [|discriminate].
    intros H. exists idxs. split; [reflexivity|].
    destruct (isEmpty flt) eqn:Ef; simpl in H.
    + right. apply isEmpty_true in Ef. split; [auto|].
      destruct (mapM _ idxs) as [rows|]; simpl in H; [|discriminate].
      injection H as <-. eauto.
    + apply isEmpty_false in Ef. destruct idxs as [|i idxs]; simpl in H.
      * left. injection H as <-. auto.
      * right. split; [right; discriminate|].
        destruct (mapM _ (i :: idxs)) as [rows|]; simpl in H; [|discriminate].
        injection H as <-. eauto.
Qed.

Lemma renderCell_total (flt : string) (validRounds : list Round)
    (i : nat) (round : Round) (j : nat) :
  i < List.length (matchups round) ->
  renderCell flt validRounds i round j <> None.
Proof.
  intros H. unfold renderCell.
  destruct (nth_error (matchups round) i) eqn:E; simpl; [discriminate|].
  apply nth_error_None in E. lia.
Qed.

Lemma renderRow_total (flt : string) (validRounds : list Round)
    (allCourts : list Matchup) (i : nat) :
  rectangular (List.length allCourts) validRounds ->
  i < List.length allCourts ->
  renderRow flt validRounds allCourts i <> None.
Proof.
  intros Hrect Hi. unfold renderRow.
  destruct (nth_error allCourts i) eqn:E; simpl;
    [|apply nth_error_None in E; lia].
  destruct (mapiM_total (renderCell flt validRounds i) validRounds 0) as [cs Hcs].
  { intros j x Hx. apply renderCell_total.
    unfold rectangular in Hrect. rewrite Forall_forall in Hrect.
    rewrite (Hrect x); [exact Hi|]. eapply nth_error_In; eauto. }
  rewrite Hcs. simpl. discriminate.
Qed.

Lemma courtHasTeam_total (flt : string) (validRounds : list Round)
    (n i : nat) :
  rectangular n validRounds -> i < n ->
  courtHasTeam flt validRounds i <> None.
Proof.
  intros Hrect Hi. unfold courtHasTeam. apply someM_total.
  intros r Hr. unfold rectangular in Hrect. rewrite Forall_forall in Hrect.
  destruct (nth_error (matchups r) i) eqn:E; simpl; [discriminate|].
  apply nth_error_None in E. rewrite (Hrect r Hr) in E. lia.
Qed.

(** On rounds that all have as many matchups as the first valid one,
    [renderAll] throws nothing. *)
Lemma renderAll_total (flt : string) (rounds : list Round) (n : nat) :
  rectangular n (validRoundsOf rounds) ->
  exists ct, renderAll flt rounds = Some ct.
Proof.
  intros Hrect. unfold renderAll.
  destruct (validRoundsOf rounds) as [|first rest] eqn:Ev; [eauto|].
  assert (Hn : List.length (matchups first) = n).
  { unfold rectangular in Hrect. now inversion Hrect. }
  rewrite <- Hn in Hrect.
  destruct (courtIndicesFor flt (first :: rest) (matchups first)) as [idxs|] eqn:Ei.
  - simpl.
    destruct (negb (isEmpty flt) && isNil idxs); [eauto|].
    destruct (mapM_total (renderRow flt (first :: rest) (matchups first)) idxs)
      as [rows Hrows].
    { intros i Hi. apply renderRow_total; [exact Hrect|].
      eapply courtIndicesFor_range; eauto. }
    rewrite Hrows. simpl. eauto.
  - exfalso. unfold courtIndicesFor in Ei.
    destruct (isEmpty flt); [discriminate|].
    destruct (filterM_total (courtHasTeam flt (first :: rest))
                (seq 0 (List.length (matchups first)))) as [r Hr].
    { intros i Hi. apply in_seq in Hi.
      apply (courtHasTeam_total flt _ _ i Hrect). lia. }
    congruence.
Qed.

Lemma renderRow_inv (flt : string) (validRounds : list Round)
    (allCourts : list Matchup) (i : nat) (row : BodyRow) :
  renderRow flt validRounds allCourts i = Some row ->
  courtHeader row = courtAt allCourts i /\
  i < List.length allCourts /\
  mapiM (renderCell flt validRounds i) 0 validRounds = Some (cells row).
Proof.
  unfold renderRow, courtAt.
  destruct (nth_error allCourts i) as [ct|] eqn:E; simpl; [|discriminate].
  destruct (mapiM _ 0 validRounds) as [cs|]; simpl; [|discriminate].
  intros [= <-]. simpl. repeat split; auto.
  apply nth_error_Some. congruence.
Qed.

Lemma rows_headers (flt : string) (validRounds : list Round)
    (allCourts : list Matchup) (idxs : list nat) (rows : list BodyRow) :
  mapM (renderRow flt validRounds allCourts) idxs = Some rows ->
  List.map courtHeader rows = List.map (courtAt allCourts) idxs.
Proof.
  intros H. apply mapM_Forall2 in H.
  induction H as [|i row idxs rows Hrow _ IH]; simpl; [reflexivity|].
  f_equal; [|exact IH]. now apply renderRow_inv in Hrow.
Qed.

Lemma rows_nth (flt : string) (validRounds : list Round)
    (allCourts : list Matchup) (idxs : list nat) (rows : list BodyRow)
    (k : nat) (row : BodyRow) :
  mapM (renderRow flt validRounds allCourts) idxs = Some rows ->
  nth_error rows k = Some row ->
  exists i, nth_error idxs k = Some i /\
            renderRow flt validRounds allCourts i = Some row.
Proof.
  intros H Hk. unfold mapM in H.
  destruct (mapiM_nth _ _ _ _ _ _ H Hk) as (i & Hi & Hr). eauto.
Qed.

Lemma courtAt_seq (allCourts : list Matchup) :
  List.map (courtAt allCourts) (seq 0 (List.length allCourts))
  = List.map court allCourts.
Proof.
  apply nth_error_ext. intros n.
  rewrite !nth_error_map.
  destruct (nth_error allCourts n) as [m|] eqn:E; simpl.
  - assert (Hn : n < List.length allCourts) by (apply nth_error_Some; congruence).
    rewrite nth_error_seq.
    destruct (Nat.ltb_spec n (List.length allCourts)); [|lia].
    simpl. unfold courtAt. now rewrite E.
  - apply nth_error_None in E.
    rewrite nth_error_seq.
    destruct (Nat.ltb_spec n (List.length allCourts)); [lia|reflexivity].
Qed.

Lemma nextRoundHasData_spec (validRounds : list Round) (j : nat) :
  j < List.length validRounds ->
  (nextRoundHasData validRounds j = true <->
   (j = List.length validRounds - 1 \/
    exists next nm, nth_error validRounds (j + 1) = Some next /\
                    In nm (matchups next) /\
                    (teamA nm <> "" \/ teamB nm <> ""))).
Proof.
  intros Hj. unfold nextRoundHasData.
  rewrite orb_true_iff, Nat.eqb_eq.
  split; (intros [H|H]; [left; exact H|right]).
  - destruct (nth_error validRounds (j + 1)) as [next|]; [|discriminate].
    apply existsb_exists in H. destruct H as (nm & Hin & Hnm).
    exists next, nm. repeat split; auto.
    unfold hasTeam in Hnm. apply orb_true_iff in Hnm.
    destruct Hnm as [Hnm|Hnm]; apply negb_true_iff, isEmpty_false in Hnm; auto.
  - destruct H as (next & nm & -> & Hin & Hnm).
    apply existsb_exists. exists nm. split; [exact Hin|].
    unfold hasTeam. apply orb_true_iff.
    destruct Hnm as [Hnm|Hnm]; [left|right];
      now apply negb_true_iff, isEmpty_false.
Qed.

Lemma cells_no_winner_without_show (flt : string) (m : Matchup) :
  let cm := if isEmpty flt || playsIn flt m then renderMatchup m false
            else NoMatches in
  winnerA cm = false /\ winnerB cm = false.
Proof.
  simpl. destruct (isEmpty flt || playsIn flt m); [|auto].
  apply winner_needs_show.
Qed.

(** C5.  [renderAll] works on the rounds whose time is non-empty and on
    nothing else: it gives the same result on the valid rounds alone, a
    round with an empty time can be dropped without changing the result,
    the header cells of a grid are the times of the valid rounds (none of
    them empty) and every row has one cell for each of them.  When no
    round is valid the result is the empty-sheet message, not a grid.  On
    rounds that all have the same number of matchups nothing is thrown. *)
Theorem C5_valid_rounds (flt : string) (rounds : list Round) :
  renderAll flt rounds = renderAll flt (validRoundsOf rounds)
  /\ (forall r, In r (validRoundsOf rounds) <-> In r rounds /\ time r <> "")
  /\ (forall l1 r l2, rounds = l1 ++ r :: l2 -> time r = "" ->
        renderAll flt rounds = renderAll flt (l1 ++ l2))
  /\ ((forall r, In r rounds -> time r = "") ->
        renderAll flt rounds = Some SheetEmpty)
  /\ (forall hs rows, renderAll flt rounds = Some (Schedule hs rows) ->
        hs = List.map time (validRoundsOf rounds) /\
        Forall (fun t => t <> "") hs /\
        Forall (fun row => List.length (cells row) = List.length hs) rows)
  /\ (forall n, rectangular n (validRoundsOf rounds) ->
        exists ct, renderAll flt rounds = Some ct).
Proof.
  split; [apply renderAll_valid|].
  split; [apply validRoundsOf_In|].
  split.
  { intros l1 r l2 -> Hr.
    rewrite renderAll_valid, (renderAll_valid flt (l1 ++ l2)).
    now rewrite validRoundsOf_drop. }
  split.
  { intros Hall. unfold renderAll.
    destruct (validRoundsOf rounds) as [|r rs] eqn:E; [reflexivity|].
    assert (Hr : In r (validRoundsOf rounds)) by (rewrite E; left; reflexivity).
    apply validRoundsOf_In in Hr. destruct Hr as [Hin Hne].
    now elim Hne; apply Hall. }
  split; [|intros n; apply renderAll_total].
  intros hs rows H. apply renderAll_inv in H.
  destruct (validRoundsOf rounds) as [|first rest] eqn:Ev; [discriminate|].
  destruct H as (idxs & Hidx & [(_ & _ & Hct)|(_ & rows' & Hrows & Hct)]);
    [discriminate|].
  injection Hct as -> ->.
  split; [reflexivity|]. split.
  - apply Forall_forall. intros t Ht.
    change (In t (List.map time (first :: rest))) in Ht. apply in_map_iff in Ht.
    destruct Ht as (r & <- & Hr). rewrite <- Ev in Hr.
    now apply validRoundsOf_In in Hr.
  - apply Forall_forall. intros row Hrow.
    apply In_nth_error in Hrow. destruct Hrow as [k Hk].
    destruct (rows_nth _ _ _ _ _ _ _ Hrows Hk) as (i & _ & Hr).
    apply renderRow_inv in Hr. destruct Hr as (_ & _ & Hc).
    rewrite (mapiM_length _ _ _ _ Hc).
    change (time first :: List.map time rest) with (List.map time (first :: rest)).
    now rewrite length_map.
Qed.

Lemma C5_valid_rounds_witness :
  renderAll "" [mkRound "" [redBlue "21" "15"]; mkRound "" []] = Some SheetEmpty
  /\ renderAll "" morning = renderAll "" [nth 0 morning finalRound; nth 2 morning finalRound]
  /\ (exists ct, renderAll "Red" morning = Some ct).
Proof.
  split; [|split].
  - apply (C5_valid_rounds "" [mkRound "" [redBlue "21" "15"]; mkRound "" []]).
    intros r [<-|[<-|[]]]; reflexivity.
  - refine (proj1 (proj2 (proj2 (C5_valid_rounds "" morning)))
             [nth 0 morning finalRound] (nth 1 morning finalRound)
             [nth 2 morning finalRound] _ _); reflexivity.
  - apply (C5_valid_rounds "Red" morning) with (n := 2).
    repeat constructor.
Defined.

(** C6.  With the first valid round [first] giving the list of courts:
    under an empty filter the grid has one row per court, in order; under
    a non-empty filter the rows are those of the courts at which some
    valid round has a matchup whose [teamA] or [teamB] is exactly the
    filter value, in order, and when there is no such court the result is
    the no-matches message and no grid.  On rounds that all have as many
    matchups as [first] a result is produced. *)
Theorem C6_court_rows (flt : string) (rounds : list Round)
    (first : Round) (rest : list Round) :
  validRoundsOf rounds = first :: rest ->
  let valid := first :: rest in
  let allCourts := matchups first in
  let shown := filter (qualifies flt valid) (seq 0 (List.length allCourts)) in
  (flt = "" -> forall ct, renderAll flt rounds = Some ct ->
     exists rows, ct = Schedule (List.map time valid) rows /\
                  List.map courtHeader rows = List.map court allCourts)
  /\ (flt <> "" -> forall ct, renderAll flt rounds = Some ct ->
        (shown = [] /\ ct = NoTeamMatches) \/
        (shown <> [] /\
         exists rows, ct = Schedule (List.map time valid) rows /\
                      List.map courtHeader rows = List.map (courtAt allCourts) shown))
  /\ (forall i, In i shown <->
        i < List.length allCourts /\
        exists r m, In r valid /\ nth_error (matchups r) i = Some m /\
                    (teamA m = flt \/ teamB m = flt))
  /\ (rectangular (List.length allCourts) valid ->
        exists ct, renderAll flt rounds = Some ct).
Proof.
  intros Ev valid allCourts shown.
  split; [|split; [|split]].
  - intros -> ct H. apply renderAll_inv in H. rewrite Ev in H.
    destruct H as (idxs & Hidx & [(Hne & _)|(_ & rows & Hrows & ->)]);
      [now elim Hne|].
    exists rows. split; [reflexivity|].
    rewrite courtIndicesFor_all in Hidx. injection Hidx as <-.
    rewrite (rows_headers _ _ _ _ _ Hrows). apply courtAt_seq.
  - intros Hf ct H. apply renderAll_inv in H. rewrite Ev in H.
    destruct H as (idxs & Hidx & H).
    apply (courtIndicesFor_filter _ _ _ _ Hf) in Hidx. fold valid allCourts shown in Hidx.
    subst idxs.
    destruct H as [(_ & Hnil & ->)|([He|Hne] & rows & Hrows & ->)].
    + left. auto.
    + now elim Hf.
    + right. split; [exact Hne|]. exists rows. split; [reflexivity|].
      apply (rows_headers _ _ _ _ _ Hrows).
  - intros i. unfold shown. rewrite filter_In, in_seq, qualifies_spec.
    split; intros [H1 H2]; (split; [lia|exact H2]).
  - intros Hrect. apply (renderAll_total flt rounds (List.length allCourts)).
    now rewrite Ev.
Qed.

Lemma C6_court_rows_witness :
  (exists rows, renderAll "" morning
                = Some (Schedule ["9AM"; "10AM"] rows) /\
                List.map courtHeader rows = ["Court 1"; "Court 2"])
  /\ (exists rows, renderAll "Gold" morning
                   = Some (Schedule ["9AM"; "10AM"] rows) /\
                   List.map courtHeader rows = ["Court 2"])
  /\ renderAll "Pink" morning = Some NoTeamMatches.
Proof.
  pose (first := nth 0 morning finalRound).
  pose (rest := [nth 2 morning finalRound]).
  split; [|split].
  - destruct (C6_court_rows "" morning first rest eq_refl) as (H & _ & _ & Ht).
    destruct Ht as [ct Hct]; [repeat constructor|].
    destruct (H eq_refl ct Hct) as (rows & -> & Hrows).
    exists rows. split; [exact Hct | exact Hrows].
  - destruct (C6_court_rows "Gold" morning first rest eq_refl) as (_ & H & _ & Ht).
    destruct Ht as [ct Hct]; [repeat constructor|].
    destruct (H ltac:(discriminate) ct Hct) as [(Hnil & _)|(_ & rows & -> & Hrows)];
      [discriminate Hnil|].
    exists rows. split; [exact Hct | exact Hrows].
  - destruct (C6_court_rows "Pink" morning first rest eq_refl) as (_ & H & _ & Ht).
    destruct Ht as [ct Hct]; [repeat constructor|].
    destruct (H ltac:(discriminate) ct Hct) as [(_ & ->)|(Hne & _)];
      [exact Hct | now elim Hne].
Defined.

(** Where the specification's wording of [showWinner] and the flag of
    the source part: a single scored round is the last valid round, and
    its winner is marked.  So it is not the case that the cells of the
    last valid round never mark a winner. *)
Lemma C1_last_round_counterexample :
  renderAll "" [finalRound]
  = Some (Schedule ["10AM"]
            [mkBodyRow "Court 1" "court-1"
               [MatchTeams
                  (mkTeamRow true (Players "Red") (Some (Number "21")))
                  (mkTeamRow false (Players "Blue") (Some (Number "15")))]])
  /\ 0 = List.length (validRoundsOf [finalRound]) - 1
  /\ nextRoundHasData (validRoundsOf [finalRound]) 0 = true
  /\ showWinnerAsSpecified (validRoundsOf [finalRound]) 0 = false
  /\ ~ (forall flt rounds hs rows k row j cm,
          renderAll flt rounds = Some (Schedule hs rows) ->
          nth_error rows k = Some row ->
          nth_error (cells row) j = Some cm ->
          j = List.length (validRoundsOf rounds) - 1 ->
          winnerA cm = false /\ winnerB cm = false).
Proof.
  assert (Hr : renderAll "" [finalRound]
               = Some (Schedule ["10AM"]
                   [mkBodyRow "Court 1" "court-1"
                      [MatchTeams
                         (mkTeamRow true (Players "Red") (Some (Number "21")))
                         (mkTeamRow false (Players "Blue") (Some (Number "15")))]]))
    by (vm_compute; reflexivity).
  split; [exact Hr|].
  split; [reflexivity|]. split; [reflexivity|]. split; [reflexivity|].
  intros H.
  destruct (H "" [finalRound] _ _ 0 _ 0 _ Hr eq_refl eq_refl eq_refl) as [Ha _].
  discriminate Ha.
Qed.

(** C1 (as the code has it).  The flag handed to [renderMatchup] for the
    round at index [j] of the valid rounds is set exactly when that round
    is the last valid round, or the valid round that follows has a
    matchup with a non-empty [teamA] or [teamB].  Every cell of the grid
    (row [k], column [j]) is the placeholder when the filter hides it and
    otherwise [renderMatchup] of the matchup of that court in that round
    under that flag; when the flag is not set, that is when the round is
    not the last valid one and the next valid round names no team, no
    side of the cell is marked winner. *)
Theorem C1_show_winner (flt : string) (rounds : list Round) :
  let valid := validRoundsOf rounds in
  (forall j, j < List.length valid ->
     (nextRoundHasData valid j = true <->
      (j = List.length valid - 1 \/
       exists next nm, nth_error valid (j + 1) = Some next /\
                       In nm (matchups next) /\
                       (teamA nm <> "" \/ teamB nm <> ""))))
  /\ (forall hs rows k row j cm,
        renderAll flt rounds = Some (Schedule hs rows) ->
        nth_error rows k = Some row ->
        nth_error (cells row) j = Some cm ->
        exists i round m,
          courtHeader row = courtAt (matchups (hd round valid)) i /\
          nth_error valid j = Some round /\
          nth_error (matchups round) i = Some m /\
          cm = (if isEmpty flt || playsIn flt m
                then renderMatchup m (nextRoundHasData valid j)
                else NoMatches) /\
          (nextRoundHasData valid j = false ->
           winnerA cm = false /\ winnerB cm = false)).
Proof.
  intros valid. split; [intros j; apply nextRoundHasData_spec|].
  intros hs rows k row j cm H Hk Hj.
  apply renderAll_inv in H. fold valid in H.
  destruct valid as [|first rest] eqn:Ev; [discriminate|].
  destruct H as (idxs & Hidx & [(_ & _ & Hct)|(_ & rows' & Hrows & Hct)]);
    [discriminate|].
  injection Hct as _ <-.
  destruct (rows_nth _ _ _ _ _ _ _ Hrows Hk) as (i & _ & Hrow).
  apply renderRow_inv in Hrow. destruct Hrow as (Hhead & _ & Hcells).
  destruct (mapiM_nth _ _ _ _ _ _ Hcells Hj) as (round & Hround & Hcell).
  simpl in Hcell. unfold renderCell in Hcell.
  destruct (nth_error (matchups round) i) as [m|] eqn:Em; simpl in Hcell;
    [|discriminate].
  injection Hcell as <-.
  exists i, round, m. simpl hd.
  split; [exact Hhead|]. split; [exact Hround|].
  split; [exact Em|]. split; [reflexivity|].
  intros ->. apply cells_no_winner_without_show.
Qed.

Lemma C1_show_winner_witness :
  nextRoundHasData (validRoundsOf morning) 1 = true
  /\ renderAll "" morning = Some (Schedule ["9AM"; "10AM"] morningRows)
  /\ winnerA redBlueUndecided = false /\ winnerB redBlueUndecided = false.
Proof.
  destruct (C1_show_winner "" morning) as [Hflag Hcells].
  assert (Hr : renderAll "" morning
               = Some (Schedule ["9AM"; "10AM"] morningRows))
    by (vm_compute; reflexivity).
  split; [|split; [exact Hr|]].
  - apply (Hflag 1); [simpl; lia|]. left. reflexivity.
  - destruct (Hcells ["9AM"; "10AM"] morningRows 0
                (mkBodyRow "Court 1" "court-1" [redBlueUndecided; NoMatches])
                0 redBlueUndecided Hr eq_refl eq_refl)
      as (i & round & m & _ & _ & _ & _ & Hno).
    apply Hno. reflexivity.
Defined.

(** ** Time of day *)

Ltac cases_from h n k :=
  match k with
  | O => exfalso; lia
  | S ?k' => destruct (Z.eq_dec h n) as [->|?];
             [ | cases_from h (n + 1)%Z k' ]
  end.

Lemma hour_of_day (h : Z) :
  (0 <= h < 24)%Z ->
  (if (Z.rem h 12 =? 0)%Z then 12%Z else Z.rem h 12) = hour12 h
  /\ (if (12 <=? h)%Z then "PM" else "AM") = meridiem h.
Proof.
  intros Hh. cases_from h 0%Z 24; split; reflexivity.
Qed.

Lemma minute_padded (m : Z) :
  (0 < m < 60)%Z -> padStart0 2 (stringOfZ m) = twoDigits m.
Proof.
  intros Hm. cases_from m 1%Z 59; reflexivity.
Qed.

Lemma timeOfDay_clock (h m : Z) :
  (0 <= h < 24)%Z -> (0 <= m < 60)%Z ->
  timeOfDay (Some h) (Some m) = clockText h m.
Proof.
  intros Hh Hm. unfold timeOfDay, clockText.
  destruct (hour_of_day h Hh) as [-> ->].
  destruct (Z.eqb_spec m 0) as [->|Hne]; [reflexivity|].
  rewrite <- (minute_padded m) by lia.
  destruct m; [now elim Hne| |]; reflexivity.
Qed.

(** C3.  The time of a round is [timeCell] at column index 1, and
    [timeCell] goes by three tiers: (a) a cell with a formatted string
    [f] gives that string, trimmed; (b) otherwise a raw value that is an
    array [h; m; s; ms] with an hour and a minute of the day gives the
    clock text: the hour on a 12-hour dial, ":" and the minute on two
    digits unless the minute is zero, then AM or PM; (c) otherwise a raw
    value that is there gives its string, trimmed.  A missing cell or
    column, and a missing raw value, give the empty string.  The arrays
    [9;0;0;0], [13;30;0;0] and [0;0;0;0] give 9AM, 1:30PM and 12AM. *)
Theorem C3_time_of_day (row : Row) (idx : nat) :
  (forall table, List.map time (parseRounds table)
                 = List.map (fun r => timeCell r 1) (Gviz.rows table))
  /\ (forall col fs, rowCell row idx = Some col -> Gviz.f col = Some fs ->
        timeCell row idx = trim fs)
  /\ (forall col h m s ms,
        rowCell row idx = Some col -> Gviz.f col = None ->
        Gviz.v col = VArr [h; m; s; ms] ->
        (0 <= h < 24)%Z -> (0 <= m < 60)%Z ->
        timeCell row idx = clockText h m)
  /\ (forall col, rowCell row idx = Some col -> Gviz.f col = None ->
        Gviz.v col <> VNull -> (forall l, Gviz.v col <> VArr l) ->
        timeCell row idx = trim (String_ (Gviz.v col)))
  /\ (rowCell row idx = None -> timeCell row idx = "")
  /\ (forall col, rowCell row idx = Some col -> Gviz.f col = None ->
        Gviz.v col = VNull -> timeCell row idx = "")
  /\ (timeCell (timeRow 9 0) 1 = "9AM" /\
      timeCell (timeRow 13 30) 1 = "1:30PM" /\
      timeCell (timeRow 0 0) 1 = "12AM").
Proof.
  split.
  { intros table. unfold parseRounds. rewrite map_map. reflexivity. }
  unfold timeCell.
  split; [intros col fs -> ->; reflexivity|].
  split.
  { intros col h m s ms -> -> -> Hh Hm. simpl. now apply timeOfDay_clock. }
  split.
  { intros col -> -> Hnull Harr.
    destruct (Gviz.v col) as [|b|z|s|l]; try reflexivity.
    - now elim Hnull.
    - now elim (Harr l). }
  split; [intros ->; reflexivity|].
  split; [intros col -> -> ->; reflexivity|].
  repeat split; reflexivity.
Qed.

Lemma C3_time_of_day_witness :
  timeCell (timeRow 13 30) 1 = clockText 13 30
  /\ timeCell (Gviz.mkRow (Some [None; Some (Gviz.mkCell (VArr [9%Z]) (Some " 9 AM "))])) 1
       = trim " 9 AM "
  /\ timeCell (Gviz.mkRow (Some [None; Some (Gviz.mkCell (VStr " noon ") None)])) 1
       = trim " noon "
  /\ timeCell (Gviz.mkRow None) 1 = "".
Proof.
  split; [|split; [|split]].
  - refine (proj1 (proj2 (proj2 (C3_time_of_day (timeRow 13 30) 1)))
              (Gviz.mkCell (VArr [13; 30; 0; 0]%Z) None) 13%Z 30%Z 0%Z 0%Z
              eq_refl eq_refl eq_refl _ _); lia.
  - exact (proj1 (proj2 (C3_time_of_day
             (Gviz.mkRow (Some [None; Some (Gviz.mkCell (VArr [9%Z]) (Some " 9 AM "))])) 1))
             (Gviz.mkCell (VArr [9%Z]) (Some " 9 AM ")) " 9 AM " eq_refl eq_refl).
  - refine (proj1 (proj2 (proj2 (proj2 (C3_time_of_day
             (Gviz.mkRow (Some [None; Some (Gviz.mkCell (VStr " noon ") None)])) 1))))
              (Gviz.mkCell (VStr " noon ") None) eq_refl eq_refl _ _);
      [discriminate | intros l; discriminate].
  - exact (proj1 (proj2 (proj2 (proj2 (proj2 (C3_time_of_day (Gviz.mkRow None) 1)))))
             eq_refl).
Defined.

(** ** Header parsing: the map of courts *)

Lemma fieldKind_cases (field : string) :
  (fieldKind field = Some TeamA /\ (field = "team a" \/ field = "a")) \/
  (fieldKind field = Some TeamB /\ (field = "team b" \/ field = "b")) \/
  (fieldKind field = Some ScoreA /\ field = "score a") \/
  (fieldKind field = Some ScoreB /\ field = "score b") \/
  (fieldKind field = None /\ forall i c, setField field i c = c).
Proof.
  unfold fieldKind, setField.
  destruct (String.eqb_spec field "team a") as [->|H1]; [left; auto|].
  destruct (String.eqb_spec field "a") as [->|H2]; [left; auto|].
  destruct (String.eqb_spec field "team b") as [->|H3]; [right; left; auto|].
  destruct (String.eqb_spec field "b") as [->|H4]; [right; left; auto|].
  destruct (String.eqb_spec field "score a") as [->|H5];
    [right; right; left; auto|].
  destruct (String.eqb_spec field "score b") as [->|H6];
    [right; right; right; left; auto|].
  right; right; right; right. simpl. auto.
Qed.

Lemma setField_name (field : string) (i : nat) (c : Court) :
  name (setField field i c) = name c.
Proof.
  unfold setField.
  repeat match goal with |- context [if ?b then _ else _] => destruct b end;
    reflexivity.
Qed.

Lemma setField_column (field : string) (i : nat) (c : Court) (k : FieldKind) :
  column k (setField field i c)
  = match fieldKind field with
    | Some k' => match k, k' with
                 | TeamA, TeamA | TeamB, TeamB
                 | ScoreA, ScoreA | ScoreB, ScoreB => Some i
                 | _, _ => column k c
                 end
    | None => column k c
    end.
Proof.
  unfold setField, fieldKind.
  repeat match goal with |- context [if ?b then _ else _] => destruct b end;
    destruct k; reflexivity.
Qed.

Lemma setField_hasScores (field : string) (i : nat) (c : Court) :
  hasScores (setField field i c)
  = hasScores c || match fieldKind field with
                   | Some k => isScore k
                   | None => false
                   end.
Proof.
  unfold setField, fieldKind.
  repeat match goal with |- context [if ?b then _ else _] => destruct b end;
    simpl; rewrite ?orb_false_r, ?orb_true_r; reflexivity.
Qed.

Lemma updateCourt_names (nm : string) (f : Court -> Court) (map : CourtMap) :
  (forall c, name (f c) = name c) ->
  List.map name (updateCourt nm f map) = List.map name map.
Proof.
  intros Hf. induction map as [|c cs IH]; simpl; [reflexivity|].
  destruct (String.eqb (name c) nm); simpl; [now rewrite Hf|now rewrite IH].
Qed.

Lemma updateCourt_In (nm : string) (f : Court -> Court) (map : CourtMap)
    (c' : Court) :
  NoDup (List.map name map) ->
  In c' (updateCourt nm f map) <->
  exists c, In c map /\
            ((name c = nm /\ c' = f c) \/ (name c <> nm /\ c' = c)).
Proof.
  induction map as [|c cs IH]; simpl; intros Hnd.
  - split; [contradiction|]. intros (c & [] & _).
  - inversion Hnd as [|? ? Hnotin Hnd']; subst.
    destruct (String.eqb_spec (name c) nm) as [E|E]; simpl.
    + split.
      * intros [<-|Hin]; [exists c; auto|].
        exists c'. split; [auto|]. right. split; [|reflexivity].
        intros E'. apply Hnotin. rewrite E, <- E'. now apply in_map.
      * intros (c0 & [<-|Hin] & [[Hnm ->]|[Hne ->]]); auto.
        -- now elim Hne.
        -- exfalso. apply Hnotin. rewrite E, <- Hnm. now apply in_map.
    + rewrite (IH Hnd'). split.
      * intros [<-|(c0 & Hin & H)]; [exists c; auto|]. exists c0; auto.
      * intros (c0 & [<-|Hin] & H).
        -- destruct H as [[H _]|[_ ->]]; [now elim E|auto].
        -- right. exists c0; auto.
Qed.

Lemma lookupCourt_None (nm : string) (map : CourtMap) :
  lookupCourt nm map = None <-> ~ In nm (List.map name map).
Proof.
  unfold lookupCourt. induction map as [|c cs IH]; simpl.
  - split; auto.
  - destruct (String.eqb_spec (name c) nm) as [E|E].
    + split; [discriminate|]. intros H. elim H. auto.
    + rewrite IH. split; [intros H [H'|H']; auto|intros H H'; apply H; auto].
Qed.

Lemma lookupCourt_Some (nm : string) (map : CourtMap) (c : Court) :
  lookupCourt nm map = Some c -> In nm (List.map name map).
Proof.
  unfold lookupCourt. intros H. apply find_some in H. destruct H as [Hin E].
  apply String.eqb_eq in E. subst nm. now apply in_map.
Qed.

Lemma headerStep_skip (map : CourtMap) (i : nat) (label : string) :
  i < 2 \/ matchCourt label = None -> headerStep map i label = map.
Proof.
  unfold headerStep. intros [H| ->].
  - apply Nat.ltb_lt in H. now rewrite H.
  - now destruct ((i <? 2)%nat || isEmpty label).
Qed.

Lemma headerStep_match (map : CourtMap) (i : nat) (label nm g2 : string) :
  2 <= i -> matchCourt label = Some (nm, g2) ->
  headerStep map i label
  = updateCourt nm (setField (toLowerCase (trim g2)) i)
      (match lookupCourt nm map with
       | Some _ => map
       | None => map ++ [newCourt nm]
       end).
Proof.
  intros Hi Hm. unfold headerStep.
  destruct (Nat.ltb_spec i 2); [lia|].
  destruct label; [discriminate Hm|]. simpl isEmpty. simpl orb.
  now rewrite Hm.
Qed.

Lemma nth_error_snoc {A} (p : list A) (x : A) (i : nat) (y : A) :
  nth_error (p ++ [x]) i = Some y <->
  nth_error p i = Some y \/ (i = List.length p /\ y = x).
Proof.
  destruct (Nat.lt_ge_cases i (List.length p)) as [H|H].
  - rewrite nth_error_app1 by exact H. split; [auto|].
    intros [H'|[H' _]]; [exact H'|lia].
  - rewrite nth_error_app2 by exact H.
    assert (Hn : nth_error p i = None) by now apply nth_error_None.
    rewrite Hn. destruct (i - List.length p) as [|d] eqn:E; simpl.
    + split; [intros [= <-]; right; split; [lia|reflexivity]|].
      intros [H'|[_ ->]]; [discriminate|reflexivity].
    + split; [destruct d; discriminate|].
      intros [H'|[H' _]]; [discriminate|lia].
Qed.

Lemma mentions_snoc (p : list string) (label : string) (i : nat) (nm : string) :
  mentions (p ++ [label]) i nm <->
  mentions p i nm \/ (i = List.length p /\ hitsCourt i label nm).
Proof.
  unfold mentions, hitsCourt. split.
  - intros (Hi & l & g2 & Hn & Hm). apply nth_error_snoc in Hn.
    destruct Hn as [Hn|[-> ->]]; [left|right]; eauto 8.
  - intros [(Hi & l & g2 & Hn & Hm)|(-> & Hi & g2 & Hm)].
    + split; [exact Hi|]. exists l, g2. split; [|exact Hm].
      apply nth_error_snoc. auto.
    + split; [exact Hi|]. exists label, g2. split; [|exact Hm].
      apply nth_error_snoc. auto.
Qed.

Lemma designates_snoc (p : list string) (label : string) (i : nat)
    (nm : string) (k : FieldKind) :
  designates (p ++ [label]) i nm k <->
  designates p i nm k \/ (i = List.length p /\ hitsField i label nm k).
Proof.
  unfold designates, hitsField. split.
  - intros (Hi & l & g2 & Hn & Hm). apply nth_error_snoc in Hn.
    destruct Hn as [Hn|[-> ->]]; [left|right]; eauto 8.
  - intros [(Hi & l & g2 & Hn & Hm)|(-> & Hi & g2 & Hm)].
    + split; [exact Hi|]. exists l, g2. split; [|exact Hm].
      apply nth_error_snoc. auto.
    + split; [exact Hi|]. exists label, g2. split; [|exact Hm].
      apply nth_error_snoc. auto.
Qed.

Lemma designates_lt (p : list string) (i : nat) (nm : string) (k : FieldKind) :
  designates p i nm k -> i < List.length p.
Proof.
  intros (_ & l & g2 & Hn & _). apply nth_error_Some. congruence.
Qed.

Lemma designates_mentions (p : list string) (i : nat) (nm : string)
    (k : FieldKind) :
  designates p i nm k -> mentions p i nm.
Proof. intros (Hi & l & g2 & Hn & Hm & _). split; eauto. Qed.

Lemma lastOf_snoc_hit (p : list string) (label : string) (i : nat)
    (nm : string) (k : FieldKind) :
  hitsField (List.length p) label nm k ->
  (lastOf (p ++ [label]) i nm k <-> i = List.length p).
Proof.
  intros Hhit. unfold lastOf. split.
  - intros [Hd Hlast].
    destruct (Nat.lt_trichotomy i (List.length p)) as [H|[H|H]]; [|exact H|].
    + exfalso. apply (Hlast (List.length p) H).
      apply designates_snoc. right. auto.
    + apply designates_lt in Hd. rewrite length_app in Hd. simpl in Hd. lia.
  - intros ->. split.
    + apply designates_snoc. right. auto.
    + intros j Hj Hd. apply designates_lt in Hd.
      rewrite length_app in Hd. simpl in Hd. lia.
Qed.

Lemma lastOf_snoc_miss (p : list string) (label : string) (i : nat)
    (nm : string) (k : FieldKind) :
  ~ hitsField (List.length p) label nm k ->
  (lastOf (p ++ [label]) i nm k <-> lastOf p i nm k).
Proof.
  intros Hmiss. unfold lastOf.
  assert (E : forall j, designates (p ++ [label]) j nm k <-> designates p j nm k).
  { intros j. rewrite designates_snoc. split; [|auto].
    intros [H|[-> H]]; [exact H|now elim Hmiss]. }
  rewrite E. split; intros [Hd Hlast]; (split; [exact Hd|]);
    intros j Hj Hd'; apply (Hlast j Hj); now apply E.
Qed.

Lemma matchCourt_functional (label nm nm' g2 g2' : string) :
  matchCourt label = Some (nm, g2) -> matchCourt label = Some (nm', g2') ->
  nm = nm' /\ g2 = g2'.
Proof. intros H H'. rewrite H in H'. now injection H' as <- <-. Qed.

Lemma CourtsOf_nil : CourtsOf [] [].
Proof.
  unfold CourtsOf. simpl. split; [constructor|]. split; [|split].
  - intros nm. split; [contradiction|].
    intros (i & _ & l & g2 & Hn & _). destruct i; discriminate.
  - intros c k i [].
  - intros c [].
Qed.

Lemma CourtsOf_skip (p : list string) (map : CourtMap) (label : string) :
  List.length p < 2 \/ matchCourt label = None ->
  CourtsOf p map -> CourtsOf (p ++ [label]) map.
Proof.
  intros Hskip (Hnd & Hnames & Hcols & Hsc).
  assert (Hc : forall nm, ~ hitsCourt (List.length p) label nm).
  { intros nm (Hi & g2 & Hm). destruct Hskip as [H|H]; [lia|congruence]. }
  assert (Hf : forall nm k, ~ hitsField (List.length p) label nm k).
  { intros nm k (Hi & g2 & Hm & _). apply (Hc nm). split; eauto. }
  split; [exact Hnd|]. split; [|split; [|exact Hsc]].
  - intros nm. rewrite Hnames. split; intros [i H]; exists i.
    + apply mentions_snoc. auto.
    + apply mentions_snoc in H. destruct H as [H|[-> H]]; [exact H|].
      now elim (Hc nm).
  - intros c k i Hin. rewrite (Hcols c k i Hin).
    symmetry. apply lastOf_snoc_miss. apply Hf.
Qed.

Lemma CourtsOf_match (p : list string) (map : CourtMap)
    (label nm g2 : string) :
  2 <= List.length p -> matchCourt label = Some (nm, g2) ->
  CourtsOf p map ->
  CourtsOf (p ++ [label])
    (updateCourt nm (setField (toLowerCase (trim g2)) (List.length p))
       (match lookupCourt nm map with
        | Some _ => map
        | None => map ++ [newCourt nm]
        end)).
Proof.
  intros Hlen Hm (Hnd & Hnames & Hcols & Hsc).
  set (n := List.length p).
  set (field := toLowerCase (trim g2)).
  set (map1 := match lookupCourt nm map with
               | Some _ => map | None => map ++ [newCourt nm] end).
  (* the map once the court is known to it *)
  assert (Hnd1 : NoDup (List.map name map1)).
  { unfold map1. destruct (lookupCourt nm map) eqn:E; [exact Hnd|].
    apply lookupCourt_None in E. rewrite map_app. simpl.
    apply NoDup_app; [exact Hnd|repeat constructor; intros []|].
    intros x Hx [<-|[]]. exact (E Hx). }
  assert (Hin1 : forall c, In c map1 <->
                 In c map \/ (~ In nm (List.map name map) /\ c = newCourt nm)).
  { intros c. unfold map1. destruct (lookupCourt nm map) eqn:E.
    - apply lookupCourt_Some in E. split; [auto|]. intros [H|[H _]]; tauto.
    - apply lookupCourt_None in E. rewrite in_app_iff. simpl.
      split; [intros [H|[<-|[]]]; auto|]. intros [H|[_ ->]]; auto. }
  assert (Hnames1 : forall x, In x (List.map name map1) <->
                    In x (List.map name map) \/ x = nm).
  { intros x. unfold map1. destruct (lookupCourt nm map) eqn:E.
    - apply lookupCourt_Some in E. split; [auto|]. intros [H| ->]; auto.
    - rewrite map_app, in_app_iff. simpl. split; [intros [H|[<-|[]]]; auto|].
      intros [H| ->]; auto. }
  assert (Hhit : hitsCourt n label nm) by (split; eauto).
  assert (Hhits : forall nm' k, hitsField n label nm' k <->
                  nm' = nm /\ fieldKind field = Some k).
  { intros nm' k. split.
    - intros (_ & g2' & Hm' & Hk).
      destruct (matchCourt_functional _ _ _ _ _ Hm Hm') as [<- <-]. auto.
    - intros [-> Hk]. split; [exact Hlen|]. exists g2. auto. }
  assert (Hfresh : ~ In nm (List.map name map) ->
                   forall k i, ~ designates p i nm k).
  { intros Hnot k i Hd. apply Hnot, Hnames. exists i.
    eapply designates_mentions; eauto. }
  split; [|split; [|split]].
  - rewrite updateCourt_names; [exact Hnd1|]. intros; apply setField_name.
  - intros x. rewrite updateCourt_names by (intros; apply setField_name).
    rewrite Hnames1, Hnames. split.
    + intros [[i H]| ->].
      * exists i. apply mentions_snoc. auto.
      * exists n. apply mentions_snoc. right. auto.
    + intros [i H]. apply mentions_snoc in H.
      destruct H as [H|[-> (_ & g2' & Hm')]]; [left; eauto|].
      right. now destruct (matchCourt_functional _ _ _ _ _ Hm Hm').
  - intros c' k i Hc'. apply (updateCourt_In _ _ _ _ Hnd1) in Hc'.
    destruct Hc' as (c & Hc & [[Hname ->]|[Hname ->]]).
    + (* the court of this header *)
      rewrite setField_name, setField_column, Hname.
      assert (Hold : column k c = Some i <-> lastOf p i nm k).
      { apply Hin1 in Hc. destruct Hc as [Hc|[Hnot ->]].
        - rewrite <- Hname. now apply Hcols.
        - simpl. split; [destruct k; discriminate|].
          intros [Hd _]. now elim (Hfresh Hnot k i). }
      destruct (fieldKind field) as [k'|] eqn:Ek.
      * assert (Hdec : k' = k \/ k' <> k) by (destruct k, k'; auto; right; discriminate).
        destruct Hdec as [-> |Hne].
        -- rewrite (lastOf_snoc_hit p label i nm k) by (apply (proj2 (Hhits _ _)); auto).
           fold n. destruct k; split; congruence.
        -- rewrite (lastOf_snoc_miss p label i nm k)
             by (intros H; apply (proj1 (Hhits _ _)) in H; destruct H; congruence).
           rewrite <- Hold. destruct k, k'; try reflexivity; now elim Hne.
      * rewrite (lastOf_snoc_miss p label i nm k)
          by (intros H; apply (proj1 (Hhits _ _)) in H; destruct H; congruence).
        exact Hold.
    + (* another court *)
      rewrite (lastOf_snoc_miss p label i (name c) k)
        by (intros H; apply (proj1 (Hhits _ _)) in H; destruct H; congruence).
      apply Hin1 in Hc. destruct Hc as [Hc|[_ ->]]; [now apply Hcols|].
      now elim Hname.
  - intros c' Hc'. apply (updateCourt_In _ _ _ _ Hnd1) in Hc'.
    assert (Hold : forall c, In c map1 ->
              (hasScores c = true <-> scoreACol c <> None \/ scoreBCol c <> None)).
    { intros c Hc. apply Hin1 in Hc. destruct Hc as [Hc|[_ ->]]; [auto|].
      simpl. split; [discriminate|]. intros [H|H]; now elim H. }
    destruct Hc' as (c & Hc & [[Hname ->]|[Hname ->]]); [|auto].
    rewrite setField_hasScores.
    change (scoreACol (setField field n c)) with (column ScoreA (setField field n c)).
    change (scoreBCol (setField field n c)) with (column ScoreB (setField field n c)).
    rewrite !setField_column. simpl column.
    rewrite orb_true_iff, (Hold c Hc).
    destruct (fieldKind field) as [[| | |]|]; simpl;
      split; intros H; try tauto;
      try (destruct H as [H|H]; [tauto|discriminate]);
      try (left; discriminate); try (right; discriminate);
      try (left; left; discriminate).
Qed.

Lemma forEachHeader_CourtsOf (rest : list string) :
  forall p map, CourtsOf p map ->
  CourtsOf (p ++ rest) (forEachHeader map (List.length p) rest).
Proof.
  induction rest as [|label rest IH]; intros p map H; simpl.
  - now rewrite app_nil_r.
  - replace (p ++ label :: rest) with ((p ++ [label]) ++ rest)
      by now rewrite <- app_assoc.
    replace (S (List.length p)) with (List.length (p ++ [label]))
      by (rewrite length_app; simpl; lia).
    apply IH.
    destruct (Nat.lt_ge_cases (List.length p) 2) as [Hlt|Hge].
    { rewrite headerStep_skip by auto. apply CourtsOf_skip; auto. }
    destruct (matchCourt label) as [[nm g2]|] eqn:Hm.
    + rewrite (headerStep_match _ _ _ nm g2 Hge Hm).
      now apply CourtsOf_match.
    + rewrite headerStep_skip by auto. apply CourtsOf_skip; auto.
Qed.

(** ** Sorting by court number *)

Lemma insertCourt_perm (x : Court) (l : list Court) :
  Permutation (insertCourt x l) (x :: l).
Proof.
  induction l as [|y ys IH]; simpl; [reflexivity|].
  destruct (sortsAfter x y); [|reflexivity].
  rewrite IH. apply perm_swap.
Qed.

Lemma sortCourts_perm (l : list Court) : Permutation (sortCourts l) l.
Proof.
  induction l as [|x xs IH]; simpl; [reflexivity|].
  rewrite insertCourt_perm. now constructor.
Qed.

Lemma courtNumber_integer (nm : string) :
  courtNumber nm = ofZ (Z.of_N (courtInteger nm)).
Proof.
  unfold courtNumber, courtInteger, parseIntDigits.
  destruct (firstDigits nm); reflexivity.
Qed.

Lemma courtNumber_nonneg (nm : string) : nonneg (courtNumber nm).
Proof.
  unfold courtNumber, parseIntDigits.
  destruct (firstDigits nm); apply ofZ_nonneg; lia.
Qed.

Lemma courtNumber_canonical (nm : string) : canonical (courtNumber nm).
Proof. rewrite courtNumber_integer. apply ofZ_canonical. lia. Qed.

Lemma sortsAfter_gt (a b : Court) :
  sortsAfter a b = gt (courtNumber (name a)) (courtNumber (name b)).
Proof.
  unfold sortsAfter, comparator.
  apply sub_positive; apply courtNumber_canonical.
Qed.

Lemma insertCourt_sorted (x : Court) (l : list Court) :
  StronglySorted courtLe l -> StronglySorted courtLe (insertCourt x l).
Proof.
  induction 1 as [|y ys Hs IH Hall]; simpl.
  - repeat constructor.
  - destruct (sortsAfter x y) eqn:E.
    + constructor; [exact IH|].
      apply Forall_forall. intros c Hc.
      apply (Permutation_in _ (insertCourt_perm x ys)) in Hc.
      destruct Hc as [<-|Hc]; [|rewrite Forall_forall in Hall; auto].
      unfold courtLe. apply gt_false_le; try apply courtNumber_nonneg.
      apply gt_asym. rewrite <- sortsAfter_gt. exact E.
    + assert (Hxy : courtLe x y).
      { unfold courtLe. apply gt_false_le; try apply courtNumber_nonneg.
        rewrite <- sortsAfter_gt. exact E. }
      constructor; [now constructor|].
      constructor; [exact Hxy|].
      apply Forall_forall. intros c Hc. rewrite Forall_forall in Hall.
      unfold courtLe in *.
      eapply le_trans_nonneg; try apply courtNumber_nonneg; eauto.
Qed.

Lemma sortCourts_sorted (l : list Court) : StronglySorted courtLe (sortCourts l).
Proof.
  induction l as [|x xs IH]; simpl; [constructor|].
  now apply insertCourt_sorted.
Qed.

(** ** Rounds *)

Lemma CourtsOf_perm (p : list string) (l l' : CourtMap) :
  Permutation l l' -> CourtsOf p l -> CourtsOf p l'.
Proof.
  intros Hp (Hnd & Hnames & Hcols & Hsc).
  assert (Hin : forall c, In c l' -> In c l)
    by (intros c; apply Permutation_in; now symmetry).
  assert (Hpn : Permutation (List.map name l) (List.map name l'))
    by now apply Permutation_map.
  split; [|split; [|split]].
  - eapply Permutation_NoDup; eauto.
  - intros nm. rewrite <- Hnames. split; apply Permutation_in; auto.
    now symmetry.
  - intros c k i Hc. apply Hcols. auto.
  - intros c Hc. apply Hsc. auto.
Qed.

Lemma parseCourts_CourtsOf (headers : list string) :
  CourtsOf headers (parseCourts headers).
Proof.
  unfold parseCourts.
  apply (CourtsOf_perm _ (forEachHeader [] 0 headers)).
  - symmetry. apply sortCourts_perm.
  - apply (forEachHeader_CourtsOf headers [] []). apply CourtsOf_nil.
Qed.

Lemma parseRounds_nth (table : Table) (i : nat) (r : Round) :
  nth_error (parseRounds table) i = Some r <->
  exists row, nth_error (Gviz.rows table) i = Some row /\
    r = mkRound (timeCell row 1)
          (List.map (matchupOf row) (parseCourts (headersOf table))).
Proof.
  unfold parseRounds. rewrite nth_error_map.
  destruct (nth_error (Gviz.rows table) i) as [row|]; simpl.
  - split; [intros [= <-]; eauto|]. now intros (row' & [= <-] & ->).
  - split; [discriminate|]. now intros (row' & H & _).
Qed.

Lemma parseRounds_In (table : Table) (r : Round) :
  In r (parseRounds table) ->
  exists row, In row (Gviz.rows table) /\
    r = mkRound (timeCell row 1)
          (List.map (matchupOf row) (parseCourts (headersOf table))).
Proof.
  unfold parseRounds. rewrite in_map_iff. intros (row & <- & Hin). eauto.
Qed.

Lemma parseRounds_rectangular (table : Table) :
  rectangular (List.length (parseCourts (headersOf table))) (parseRounds table).
Proof.
  apply Forall_forall. intros r Hr.
  apply parseRounds_In in Hr. destruct Hr as (row & _ & ->).
  simpl. apply length_map.
Qed.

(** C4.  [parseRounds] returns one round per data row, in order.  The
    matchups of every round are as many as the courts that [parseCourts]
    finds in the headers of the table, and name the same courts in the
    same order.  For a court without score columns (no column for score
    A and none for score B; this is the case exactly when [hasScores] is
    false) the matchup has two empty scores and [hasScores] false,
    whatever the cells of the row hold. *)
Theorem C4_rounds_shape (table : Table) :
  let courts := parseCourts (headersOf table) in
  List.length (parseRounds table) = List.length (Gviz.rows table)
  /\ (forall i row, nth_error (Gviz.rows table) i = Some row ->
        nth_error (parseRounds table) i
        = Some (mkRound (timeCell row 1) (List.map (matchupOf row) courts)))
  /\ (forall r, In r (parseRounds table) ->
        List.length (matchups r) = List.length courts /\
        List.map court (matchups r) = List.map name courts)
  /\ (forall ct, In ct courts ->
        (hasScores ct = false <-> scoreACol ct = None /\ scoreBCol ct = None))
  /\ (forall r j ct m,
        In r (parseRounds table) ->
        nth_error courts j = Some ct -> nth_error (matchups r) j = Some m ->
        scoreACol ct = None -> scoreBCol ct = None ->
        scoreA m = "" /\ scoreB m = "" /\ m_hasScores m = false).
Proof.
  intros courts.
  assert (Hsc : forall ct, In ct courts ->
            (hasScores ct = false <-> scoreACol ct = None /\ scoreBCol ct = None)).
  { intros ct Hct.
    destruct (parseCourts_CourtsOf (headersOf table)) as (_ & _ & _ & H).
    specialize (H ct Hct).
    split.
    - intros Hf. split.
      + destruct (scoreACol ct) eqn:E; [|reflexivity].
        assert (Ht : hasScores ct = true) by (apply H; left; discriminate).
        congruence.
      + destruct (scoreBCol ct) eqn:E; [|reflexivity].
        assert (Ht : hasScores ct = true) by (apply H; right; discriminate).
        congruence.
    - intros [Ea Eb]. destruct (hasScores ct) eqn:E; [|reflexivity].
      destruct (proj1 H eq_refl) as [X|X]; congruence. }
  split; [unfold parseRounds; apply length_map|].
  split.
  { intros i row Hrow. apply parseRounds_nth. eauto. }
  split.
  { intros r Hr. apply parseRounds_In in Hr. destruct Hr as (row & _ & ->).
    simpl. split; [apply length_map|]. rewrite map_map. reflexivity. }
  split; [exact Hsc|].
  intros r j ct m Hr Hct Hm Ha Hb.
  apply parseRounds_In in Hr. destruct Hr as (row & _ & ->).
  simpl in Hm. rewrite nth_error_map in Hm. fold courts in Hm.
  rewrite Hct in Hm. injection Hm as <-.
  simpl. rewrite Ha, Hb. repeat split.
  apply Hsc; [eapply nth_error_In; eauto|auto].
Qed.

Lemma C4_rounds_shape_witness :
  exists r m,
    nth_error (parseRounds exampleTable) 0 = Some r /\
    nth_error (matchups r) 1 = Some m /\
    court m = "Court 10" /\ teamA m = "Green" /\
    scoreA m = "" /\ scoreB m = "" /\ m_hasScores m = false.
Proof.
  destruct (C4_rounds_shape exampleTable) as (_ & Hnth & _ & _ & Hscores).
  pose (row := nth 0 (Gviz.rows exampleTable) (Gviz.mkRow None)).
  pose (courts := parseCourts (headersOf exampleTable)).
  pose (ct := nth 1 courts (newCourt "")).
  exists (mkRound (timeCell row 1) (List.map (matchupOf row) courts)).
  exists (matchupOf row ct).
  split; [exact (Hnth 0 row eq_refl)|].
  split; [reflexivity|].
  split; [reflexivity|].
  split; [reflexivity|].
  apply (Hscores (mkRound (timeCell row 1) (List.map (matchupOf row) courts))
           1 ct (matchupOf row ct)).
  - left. reflexivity.
  - reflexivity.
  - reflexivity.
  - reflexivity.
  - reflexivity.
Defined.

(** ** The load cycle *)

Lemma renderAll_parseRounds (flt : string) (table : Table) :
  exists ct, renderAll flt (parseRounds table) = Some ct.
Proof.
  apply (renderAll_total flt _ (List.length (parseCourts (headersOf table)))).
  pose proof (parseRounds_rectangular table) as H.
  unfold rectangular in *. rewrite Forall_forall in *.
  intros r Hr. apply H. now apply validRoundsOf_In in Hr.
Qed.

(** C9.  A load cycle whose fetch is rejected ends in the error state:
    the status shows the retry text, the content area shows the error
    message built from the text of the failure, and [cachedRounds] is
    what it was before the cycle.  More generally, whenever a cycle ends
    in the error state [cachedRounds] is what it was before and the
    content is an error message; a cycle that gets a table ends live,
    with the rounds parsed from that table in [cachedRounds]. *)
Theorem C9_failure_keeps_cache (localeSort : list string -> list string)
    (typeErrorMessage : string) (outcome : Settlement) (now : string)
    (st : App) :
  let st' := loadData localeSort typeErrorMessage outcome now st in
  (forall message, outcome = Reject message ->
     statusDot st' = error /\ statusText st' = FailedText /\
     tournamentContent st' = ErrorMsg message /\
     cachedRounds st' = cachedRounds st)
  /\ (statusDot st' = error ->
      cachedRounds st' = cachedRounds st /\
      exists message, tournamentContent st' = ErrorMsg message)
  /\ (forall table, outcome = Resolve (Some table) ->
      statusDot st' = live /\ cachedRounds st' = Some (parseRounds table)).
Proof.
  intros st'. subst st'. unfold loadData, loadDataFinish.
  split; [intros message ->; simpl; auto|].
  split.
  - destruct outcome as [[table|]|message]; simpl; eauto.
    match goal with
    | |- context [renderAll ?flt (parseRounds table)] =>
        destruct (renderAll_parseRounds flt table) as [ct ->]
    end.
    simpl. discriminate.
  - intros table ->.
    match goal with
    | |- context [renderAll ?flt (parseRounds table)] =>
        destruct (renderAll_parseRounds flt table) as [ct ->]
    end.
    simpl. auto.
Qed.

Lemma C9_failure_keeps_cache_witness :
  let st' := loadData (fun l => l) "undefined has no properties"
                      (Reject "Request timed out") "9:35 AM" morningApp in
  cachedRounds st' = Some morning /\
  tournamentContent st' = ErrorMsg "Request timed out" /\
  statusDot st' = error.
Proof.
  destruct (C9_failure_keeps_cache (fun l => l) "undefined has no properties"
              (Reject "Request timed out") "9:35 AM" morningApp)
    as (Hrej & _ & _).
  destruct (Hrej "Request timed out" eq_refl) as (Hdot & _ & Hct & Hcache).
  split; [exact Hcache|]. split; [exact Hct|exact Hdot].
Defined.

(** ** Header parsing: courts, columns and order *)

Lemma parseCourts_first_two (h0 h1 h0' h1' : string) (rest : list string) :
  parseCourts (h0 :: h1 :: rest) = parseCourts (h0' :: h1' :: rest).
Proof. reflexivity. Qed.

Lemma StronglySorted_weaken {A} (R R' : A -> A -> Prop) (l : list A) :
  (forall a b, In a l -> In b l -> R a b -> R' a b) ->
  StronglySorted R l -> StronglySorted R' l.
Proof.
  intros H Hs. induction Hs as [|x xs Hs IH Hall]; constructor.
  - apply IH. intros a b Ha Hb. apply H; right; assumption.
  - rewrite Forall_forall in *. intros y Hy.
    apply H; [left; reflexivity|right; exact Hy|auto].
Qed.

Lemma parseCourts_sorted (headers : list string) :
  StronglySorted courtLe (parseCourts headers).
Proof. apply sortCourts_sorted. Qed.

Lemma parseCourts_sorted_integers (headers : list string) :
  (forall c, In c (parseCourts headers) ->
             (courtInteger (name c) < 2 ^ 53)%N) ->
  StronglySorted courtIntegerLe (parseCourts headers).
Proof.
  intros Hsmall.
  apply (StronglySorted_weaken courtLe); [|apply parseCourts_sorted].
  intros a b Ha Hb. unfold courtLe, courtIntegerLe.
  rewrite !courtNumber_integer. apply ofZ_le_exact; auto.
Qed.

Lemma firstDigits_skip (a s : string) :
  forallb (fun c => negb (isDigit c)) a = true ->
  firstDigits (a ++ s)%string = firstDigits s.
Proof.
  induction a as [|c a IH]; simpl; [reflexivity|].
  intros H. apply andb_true_iff in H. destruct H as [Hc Ha].
  apply negb_true_iff in Hc. rewrite Hc. auto.
Qed.

Lemma firstDigits_run (ds : string) :
  ds <> "" -> forallb isDigit ds = true -> firstDigits ds = Some ds.
Proof.
  intros Hne Hd. destruct ds as [|c ds]; [now elim Hne|].
  unfold firstDigits. simpl in Hd. apply andb_true_iff in Hd.
  destruct Hd as [Hc Hd]. rewrite Hc.
  rewrite <- (append_empty_r (String c ds)) at 1.
  rewrite span_app; [reflexivity| |exact I].
  simpl. now rewrite Hc, Hd.
Qed.

Lemma digit_lower (c : ascii) : isDigit c = true -> toLowerChar c = c.
Proof.
  unfold isDigit, toLowerChar. intros H.
  apply andb_true_iff in H. destruct H as [H1 H2].
  apply N.leb_le in H1. apply N.leb_le in H2.
  destruct (N.leb_spec 65 (code c)); [lia|].
  destruct (N.leb_spec 192 (code c)); [lia|]. reflexivity.
Qed.

Lemma lower_not_digit (c x : ascii) :
  toLowerChar c = x -> isDigit x = false -> isDigit c = false.
Proof.
  intros H Hx. destruct (isDigit c) eqn:E; [|reflexivity].
  rewrite (digit_lower c E) in H. subst x. congruence.
Qed.

Lemma court_word_no_digit (word : string) :
  toLowerCase word = "court" ->
  forallb (fun c => negb (isDigit c)) word = true.
Proof.
  intros H.
  destruct word as [|c0 [|c1 [|c2 [|c3 [|c4 [|c5 w]]]]]]; try discriminate H.
  simpl in H. injection H as H0 H1 H2 H3 H4.
  simpl.
  rewrite (lower_not_digit c0 _ H0 eq_refl), (lower_not_digit c1 _ H1 eq_refl),
          (lower_not_digit c2 _ H2 eq_refl), (lower_not_digit c3 _ H3 eq_refl),
          (lower_not_digit c4 _ H4 eq_refl).
  reflexivity.
Qed.

Lemma spaces_no_digit (w : string) :
  forallb isWhiteSpace w = true ->
  forallb (fun c => negb (isDigit c)) w = true.
Proof.
  induction w as [|c w IH]; simpl; [reflexivity|].
  intros H. apply andb_true_iff in H. destruct H as [Hc Hw].
  rewrite (space_not_digit c Hc). simpl. auto.
Qed.

(** The integer of a court name is the one written by the digits of
    the pattern. *)
Lemma courtInteger_pattern (word w1 ds : string) :
  toLowerCase word = "court" -> forallb isWhiteSpace w1 = true ->
  ds <> "" -> forallb isDigit ds = true ->
  courtInteger (word ++ w1 ++ ds)%string = decimalValue ds.
Proof.
  intros Hw Hs Hne Hd. unfold courtInteger.
  rewrite firstDigits_skip by now apply court_word_no_digit.
  rewrite firstDigits_skip by now apply spaces_no_digit.
  now rewrite firstDigits_run.
Qed.

(** C2.  [parseCourts] leaves the first two headers out.  A header
    matches when it is "Court" in any case, white space, digits, white
    space and a non-empty rest on one line; the court name is the part
    up to the digits, and the rest, trimmed and lower-cased, stands for
    the team-A column ("team a", "a"), the team-B column ("team b",
    "b") or a score column ("score a", "score b").  The result has each
    court name that some header from index 2 on mentions exactly once; a
    column of a court is the index of the last header of that court and
    kind; [hasScores] holds exactly when a score column was found; the
    courts are in ascending order of the Number of their name, which for
    integers below 2^53 is the order of the integers.  The example
    headers give Court 2 (with scores), then Court 10 (without). *)
Theorem C2_parseCourts (headers : list string) :
  let courts := parseCourts headers in
  (forall h0 h1 h0' h1' rest, headers = h0 :: h1 :: rest ->
     parseCourts (h0' :: h1' :: rest) = courts)
  /\ (forall label nm g2,
        matchCourt label = Some (nm, g2) -> CourtPattern label nm g2)
  /\ (forall label nm g2,
        CourtPattern label nm g2 ->
        exists g2', matchCourt label = Some (nm, g2') /\ trim g2' = trim g2)
  /\ NoDup (List.map name courts)
  /\ (forall nm, In nm (List.map name courts) <-> exists i, mentions headers i nm)
  /\ (forall c k i, In c courts ->
        (column k c = Some i <-> lastOf headers i (name c) k))
  /\ (forall c, In c courts ->
        (hasScores c = true <-> scoreACol c <> None \/ scoreBCol c <> None))
  /\ StronglySorted courtLe courts
  /\ ((forall c, In c courts -> (courtInteger (name c) < 2 ^ 53)%N) ->
      StronglySorted courtIntegerLe courts)
  /\ (forall word w1 ds,
        toLowerCase word = "court" -> forallb isWhiteSpace w1 = true ->
        ds <> "" -> forallb isDigit ds = true ->
        courtInteger (word ++ w1 ++ ds)%string = decimalValue ds)
  /\ parseCourts exampleHeaders = [court2; court10].
Proof.
  intros courts.
  destruct (parseCourts_CourtsOf headers) as (Hnd & Hnames & Hcols & Hsc).
  split; [intros h0 h1 h0' h1' rest ->; apply parseCourts_first_two|].
  split; [apply matchCourt_sound|].
  split; [apply matchCourt_complete|].
  split; [exact Hnd|].
  split; [exact Hnames|].
  split; [exact Hcols|].
  split; [exact Hsc|].
  split; [apply parseCourts_sorted|].
  split; [apply parseCourts_sorted_integers|].
  split; [apply courtInteger_pattern|].
  vm_compute. reflexivity.
Qed.

Lemma C2_parseCourts_witness :
  parseCourts ("Notes" :: "When" :: skipn 2 exampleHeaders)
    = parseCourts exampleHeaders
  /\ StronglySorted courtIntegerLe (parseCourts exampleHeaders)
  /\ lastOf exampleHeaders 6 "Court 10" TeamA
  /\ CourtPattern "Court 10 A" "Court 10" "A".
Proof.
  destruct (C2_parseCourts exampleHeaders)
    as (Hskip & Hpat & _ & _ & _ & Hcols & _ & _ & Hsorted & _ & Hex).
  split; [|split; [|split]].
  - apply (Hskip "" "Time" "Notes" "When"). reflexivity.
  - apply Hsorted. rewrite Hex. intros c [<-|[<-|[]]]; reflexivity.
  - apply (Hcols court10 TeamA 6).
    + rewrite Hex. right. left. reflexivity.
    + reflexivity.
  - apply Hpat. reflexivity.
Defined.

(** ** Escaping *)

Lemma replaceAll_app (c : ascii) (by_ a b : string) :
  replaceAll c by_ (a ++ b)%string
  = (replaceAll c by_ a ++ replaceAll c by_ b)%string.
Proof.
  induction a as [|x a IH]; simpl; [reflexivity|].
  destruct (Ascii.eqb x c); simpl; rewrite IH; [|reflexivity].
  now rewrite append_assoc.
Qed.

Lemma escapeHtml_app (a b : string) :
  escapeHtml (a ++ b)%string = (escapeHtml a ++ escapeHtml b)%string.
Proof. unfold escapeHtml. now rewrite !replaceAll_app. Qed.

Lemma escapeHtml_char (c : ascii) :
  escapeHtml (String c EmptyString) = escapeChar c.
Proof.
  unfold escapeHtml, escapeChar. simpl replaceAll at 4.
  destruct (Ascii.eqb_spec c "&") as [->|H1]; [reflexivity|].
  simpl replaceAll at 3.
  destruct (Ascii.eqb_spec c "<") as [->|H2]; [reflexivity|].
  simpl replaceAll at 2.
  destruct (Ascii.eqb_spec c ">") as [->|H3]; [reflexivity|].
  simpl.
  destruct (Ascii.eqb_spec c quoteChar) as [->|H4]; reflexivity.
Qed.

(** The four passes do what one pass over the characters does. *)
Lemma escapeHtml_each (s : string) : escapeHtml s = escapeEach s.
Proof.
  induction s as [|c s IH]; [reflexivity|].
  change (String c s) with (String c EmptyString ++ s)%string.
  rewrite escapeHtml_app, escapeHtml_char, IH. reflexivity.
Qed.

Lemma escapeChar_no_markup (c : ascii) :
  forallb (fun x => negb (isMarkup x)) (escapeChar c) = true.
Proof.
  unfold escapeChar.
  destruct (Ascii.eqb c "&"); [reflexivity|].
  destruct (Ascii.eqb c "<") eqn:E1; [reflexivity|].
  destruct (Ascii.eqb c ">") eqn:E2; [reflexivity|].
  destruct (Ascii.eqb c quoteChar) eqn:E3; [reflexivity|].
  simpl. unfold isMarkup. now rewrite E1, E2, E3.
Qed.

Lemma unescape_escapeChar (c : ascii) (t : string) :
  unescapeHtml (escapeChar c ++ t)%string = String c (unescapeHtml t).
Proof.
  unfold escapeChar.
  destruct (Ascii.eqb_spec c "&") as [->|H1]; [reflexivity|].
  destruct (Ascii.eqb_spec c "<") as [->|H2]; [reflexivity|].
  destruct (Ascii.eqb_spec c ">") as [->|H3]; [reflexivity|].
  destruct (Ascii.eqb_spec c quoteChar) as [->|H4]; [reflexivity|].
  simpl. apply Ascii.eqb_neq in H1. now rewrite H1.
Qed.

Lemma unescape_escape (s : string) : unescapeHtml (escapeHtml s) = s.
Proof.
  rewrite escapeHtml_each.
  induction s as [|c s IH]; [reflexivity|].
  simpl. now rewrite unescape_escapeChar, IH.
Qed.

Lemma escapeEach_plain (s : string) :
  forallb (fun x => negb (isSpecial x)) s = true -> escapeEach s = s.
Proof.
  induction s as [|c s IH]; simpl; [reflexivity|].
  intros H. apply andb_true_iff in H. destruct H as [Hc Hs].
  rewrite (IH Hs). unfold escapeChar.
  unfold isSpecial, isMarkup in Hc. apply negb_true_iff in Hc.
  apply orb_false_iff in Hc. destruct Hc as [H1 Hc].
  apply orb_false_iff in Hc. destruct Hc as [Hc H4].
  apply orb_false_iff in Hc. destruct Hc as [H2 H3].
  now rewrite H1, H2, H3, H4.
Qed.

(** X1.  [escapeHtml] leaves no character in its result that could end
    a text node, a tag or a quoted attribute value: no [<], no [>], no
    double quote.  It loses nothing: texts that differ have results that
    differ.  A text without [&], [<], [>] and double quote is returned as
    it is. *)
Theorem X1_escapeHtml_safe (s : string) :
  forallb (fun x => negb (isMarkup x)) (escapeHtml s) = true
  /\ (forall s', escapeHtml s = escapeHtml s' -> s = s')
  /\ (forallb (fun x => negb (isSpecial x)) s = true -> escapeHtml s = s).
Proof.
  split; [|split].
  - rewrite escapeHtml_each.
    induction s as [|c s IH]; [reflexivity|].
    simpl. now rewrite forallb_app, escapeChar_no_markup, IH.
  - intros s' H. rewrite <- (unescape_escape s), <- (unescape_escape s').
    now rewrite H.
  - intros H. rewrite escapeHtml_each. now apply escapeEach_plain.
Qed.

(** ** The promise of a fetch *)

Lemma fetchStep_first (ev : FetchEvent) : fetchOver (fetchStep fetchSheetData ev).
Proof. destruct ev; simpl; repeat split; discriminate. Qed.

Lemma fetchStep_over (ft : Fetch) (ev : FetchEvent) :
  fetchOver ft ->
  fetchOver (fetchStep ft ev) /\ promise (fetchStep ft ev) = promise ft.
Proof.
  intros Hover. pose proof Hover as (Hp & Ht & Hc & Hs).
  destruct ev; unfold fetchStep; rewrite ?Hc, ?Ht; [auto|auto|].
  destruct (promise ft) as [s|] eqn:E; [|now elim Hp].
  unfold fetchOver, settle. simpl.
  repeat split; auto.
Qed.

Lemma fetch_run_over (evs : list FetchEvent) :
  forall ft, fetchOver ft ->
  fetchOver (fold_left fetchStep evs ft) /\
  promise (fold_left fetchStep evs ft) = promise ft.
Proof.
  induction evs as [|ev evs IH]; intros ft H; simpl; [auto|].
  destruct (fetchStep_over ft ev H) as [H1 H2].
  destruct (IH _ H1) as [H3 H4]. split; [exact H3|congruence].
Qed.

(** X2.  The first event of a fetch (a response, the timeout, or an
    error of the script element) settles its promise and removes the
    timer, the registered callback and the script element; whatever
    comes afterwards, in any number and order, changes neither the
    settlement nor brings any of the three back.  In particular a
    response that arrives after the timeout resolves nothing. *)
Theorem X2_fetch_settles_once (ev : FetchEvent) (evs : list FetchEvent) :
  let first := fetchStep fetchSheetData ev in
  let last := fold_left fetchStep evs first in
  promise first = Some (match ev with
                        | Response r => gvizCallback r
                        | TimedOut => Reject "Request timed out"
                        | ScriptError => Reject "Network error"
                        end)
  /\ promise last = promise first
  /\ timerArmed last = false
  /\ callbackRegistered last = false
  /\ scriptAttached last = false.
Proof.
  intros first last.
  destruct (fetch_run_over evs first (fetchStep_first ev))
    as ((_ & Ht & Hc & Hs) & Hp).
  split; [destruct ev; reflexivity|]. auto.
Qed.

(** ** Trimmed text *)

Lemma trimStart_stops (s : string) : stopsAt isWhiteSpace (trimStart s).
Proof.
  induction s as [|c s IH]; simpl; [exact I|].
  destruct (isWhiteSpace c) eqn:E; [exact IH|]. simpl. exact E.
Qed.

Lemma trimStart_id (s : string) :
  stopsAt isWhiteSpace s -> trimStart s = s.
Proof. destruct s as [|c s]; simpl; [reflexivity|]. now intros ->. Qed.

Lemma trimEnd_stops (s : string) :
  stopsAt isWhiteSpace s -> stopsAt isWhiteSpace (trimEnd s).
Proof.
  destruct s as [|c s]; simpl; [auto|]. intros H.
  destruct (trimEnd s); simpl; [rewrite H; simpl|]; exact H.
Qed.

Lemma trimEnd_idem (s : string) : trimEnd (trimEnd s) = trimEnd s.
Proof.
  induction s as [|c s IH]; simpl; [reflexivity|].
  destruct (trimEnd s) as [|x u] eqn:E.
  - destruct (isWhiteSpace c) eqn:Ec; simpl; [reflexivity|]. now rewrite Ec.
  - simpl in IH |- *.
    destruct (trimEnd u) as [|y w] eqn:Eu.
    + destruct (isWhiteSpace x); [discriminate IH|].
      now injection IH as <-.
    + now rewrite IH.
Qed.

(** Trimming what is trimmed changes nothing. *)
Lemma trim_idem (s : string) : trim (trim s) = trim s.
Proof.
  unfold trim.
  rewrite (trimStart_id (trimEnd (trimStart s)))
    by apply trimEnd_stops, trimStart_stops.
  apply trimEnd_idem.
Qed.

Lemma cell_trimmed (row : Row) (idx : option nat) :
  trim (cell row idx) = cell row idx.
Proof.
  unfold cell. destruct idx as [i|]; [|reflexivity].
  destruct (rowCell row i) as [x|]; [|reflexivity].
  destruct (Gviz.v x); try reflexivity; apply trim_idem.
Qed.

(** X3.  Every team and every score of a parsed matchup is trimmed:
    trimming it again gives the same text.  So a cell that holds only
    white space counts as empty, and names that differ only in the white
    space around them are one team. *)
Theorem X3_parsed_fields_trimmed (table : Table) (r : Round) (m : Matchup) :
  In r (parseRounds table) -> In m (matchups r) ->
  trim (teamA m) = teamA m /\ trim (teamB m) = teamB m /\
  trim (scoreA m) = scoreA m /\ trim (scoreB m) = scoreB m.
Proof.
  intros Hr Hm. apply parseRounds_In in Hr. destruct Hr as (row & _ & ->).
  simpl in Hm. apply in_map_iff in Hm. destruct Hm as (ct & <- & _).
  unfold matchupOf. simpl.
  repeat split; try apply cell_trimmed.
  - destruct (scoreACol ct); [apply cell_trimmed|reflexivity].
  - destruct (scoreBCol ct); [apply cell_trimmed|reflexivity].
Qed.

Lemma X3_parsed_fields_trimmed_witness :
  let m := matchupOf paddedRow court2 in
  teamA m = "Red" /\ scoreA m = "21" /\
  trim (teamA m) = teamA m /\ trim (teamB m) = teamB m /\
  trim (scoreA m) = scoreA m /\ trim (scoreB m) = scoreB m.
Proof.
  split; [reflexivity|]. split; [reflexivity|].
  apply (X3_parsed_fields_trimmed paddedTable
           (mkRound "9AM" [matchupOf paddedRow court2;
                           matchupOf paddedRow court10])).
  - left. vm_compute. reflexivity.
  - left. reflexivity.
Defined.

(** ** Rows and valid rounds *)

Lemma append_eq_empty (a b : string) : (a ++ b)%string = "" -> b = "".
Proof. destruct a; simpl; [auto|discriminate]. Qed.

Lemma timeOfDay_nonempty (h m : option Z) : timeOfDay h m <> "".
Proof.
  unfold timeOfDay. intros H.
  assert (Hampm : forall a : string,
            (a ++ match h with
                  | Some hv => if (12 <=? hv)%Z then "PM" else "AM"
                  | None => "AM"
                  end)%string <> "").
  { intros a Ha. apply append_eq_empty in Ha.
    destruct h as [hv|]; [destruct (12 <=? hv)%Z|]; discriminate. }
  destruct m as [[|p|p]|];
    try (rewrite <- !append_assoc in H); exact (Hampm _ H).
Qed.

Lemma validRoundsOf_nth (rounds : list Round) (i : nat) (r : Round) :
  nth_error rounds i = Some r -> time r <> "" -> In r (validRoundsOf rounds).
Proof.
  intros Hn Ht. apply validRoundsOf_In. split; [|exact Ht].
  eapply nth_error_In; eauto.
Qed.

(** X4.  A row whose time cell (column index 1) has no formatted string
    and holds an array as raw value always gives a valid round, whatever
    the array holds: the text made from an array is never empty.  A row
    without a time cell gives a round that is not valid. *)
Theorem X4_array_time_is_valid (table : Table) (i : nat) (row : Row) :
  nth_error (Gviz.rows table) i = Some row ->
  exists r,
    nth_error (parseRounds table) i = Some r /\
    (forall col l, rowCell row 1 = Some col -> Gviz.f col = None ->
                   Gviz.v col = VArr l ->
                   In r (validRoundsOf (parseRounds table))) /\
    (rowCell row 1 = None -> time r = "").
Proof.
  intros Hrow.
  exists (mkRound (timeCell row 1)
            (List.map (matchupOf row) (parseCourts (headersOf table)))).
  assert (Hn : nth_error (parseRounds table) i
               = Some (mkRound (timeCell row 1)
                    (List.map (matchupOf row) (parseCourts (headersOf table)))))
    by (apply parseRounds_nth; eauto).
  split; [exact Hn|]. split.
  - intros col l Hc Hf Hv. apply (validRoundsOf_nth _ i _ Hn).
    simpl. unfold timeCell. rewrite Hc, Hf, Hv. apply timeOfDay_nonempty.
  - intros Hc. simpl. unfold timeCell. now rewrite Hc.
Qed.

Lemma X4_array_time_is_valid_witness :
  exists r, nth_error (parseRounds paddedTable) 0 = Some r /\
            In r (validRoundsOf (parseRounds paddedTable)).
Proof.
  destruct (X4_array_time_is_valid paddedTable 0 paddedRow eq_refl)
    as (r & Hn & Harr & _).
  exists r. split; [exact Hn|].
  apply (Harr (Gviz.mkCell (VArr [9; 0; 0; 0]%Z) None) [9; 0; 0; 0]%Z);
    reflexivity.
Defined.

(** ** Scores typed as numbers *)

Lemma digitsValue_uint_acc (d : Decimal.uint) :
  forall acc : positive,
  digitsValue 10 digitValue (N.pos acc) (NilEmpty.string_of_uint d)
  = N.pos (Pos.of_uint_acc d acc).
Proof.
  induction d; intros acc; [reflexivity| | | | | | | | | |];
    cbn [NilEmpty.string_of_uint digitsValue Pos.of_uint_acc];
    rewrite <- IHd; f_equal;
    match goal with
    | |- context [digitValue ?c] =>
        let v := eval vm_compute in (digitValue c) in
        change (digitValue c) with v
    end; lia.
Qed.

Lemma decimalValue_uint (d : Decimal.uint) :
  decimalValue (NilEmpty.string_of_uint d) = Pos.of_uint d.
Proof.
  unfold decimalValue.
  induction d; simpl; [reflexivity|exact IHd| | | | | | | | |];
    apply digitsValue_uint_acc.
Qed.

Lemma string_of_uint_digits (d : Decimal.uint) :
  forallb isDigit (NilEmpty.string_of_uint d) = true.
Proof. induction d; simpl; auto. Qed.

Lemma stringOfZ_digits (z : Z) :
  (0 <= z)%Z ->
  stringOfZ z <> "" /\ forallb isDigit (stringOfZ z) = true /\
  decimalValue (stringOfZ z) = Z.to_N z.
Proof.
  intros Hz. unfold stringOfZ. destruct z as [|p|p]; [| |lia].
  - repeat split. discriminate.
  - simpl Z.to_int. simpl NilZero.string_of_int. unfold NilZero.string_of_uint.
    pose proof (DecimalPos.Unsigned.of_to p) as Hp.
    destruct (Pos.to_uint p) eqn:E; try discriminate Hp;
      (split; [discriminate|]);
      (split; [apply string_of_uint_digits|]);
      rewrite decimalValue_uint; exact Hp.
Qed.

Lemma digits_no_space (s : string) :
  forallb isDigit s = true ->
  forallb (fun c => negb (isWhiteSpace c)) s = true.
Proof.
  induction s as [|c s IH]; simpl; [reflexivity|].
  intros H. apply andb_true_iff in H. destruct H as [Hc Hs].
  now rewrite (digit_not_space c Hc), IH.
Qed.

Lemma trimEnd_id (s : string) :
  forallb (fun c => negb (isWhiteSpace c)) s = true -> trimEnd s = s.
Proof.
  induction s as [|c s IH]; simpl; [reflexivity|].
  intros H. apply andb_true_iff in H. destruct H as [Hc Hs].
  rewrite (IH Hs). apply negb_true_iff in Hc. rewrite Hc.
  now destruct s.
Qed.

(** Text without white space is its own trimming. *)
Lemma trim_id (s : string) :
  forallb (fun c => negb (isWhiteSpace c)) s = true -> trim s = s.
Proof.
  intros H. unfold trim. rewrite trimStart_id; [now apply trimEnd_id|].
  destruct s as [|c s]; [exact I|]. simpl in *.
  apply andb_true_iff in H. destruct H as [H _]. now apply negb_true_iff.
Qed.

Lemma isDigit_cases (c : ascii) :
  isDigit c = true ->
  c = "0"%char \/ c = "1"%char \/ c = "2"%char \/ c = "3"%char \/
  c = "4"%char \/ c = "5"%char \/ c = "6"%char \/ c = "7"%char \/
  c = "8"%char \/ c = "9"%char.
Proof.
  unfold isDigit, code. intros H.
  apply andb_true_iff in H. destruct H as [H1 H2].
  apply N.leb_le in H1. apply N.leb_le in H2.
  rewrite <- (ascii_N_embedding c).
  assert (E : (N_of_ascii c = 48 \/ N_of_ascii c = 49 \/ N_of_ascii c = 50 \/
               N_of_ascii c = 51 \/ N_of_ascii c = 52 \/ N_of_ascii c = 53 \/
               N_of_ascii c = 54 \/ N_of_ascii c = 55 \/ N_of_ascii c = 56 \/
               N_of_ascii c = 57)%N) by lia.
  repeat (destruct E as [E|E]; [rewrite E; tauto|]). rewrite E. tauto.
Qed.

Lemma unsignedDecimal_digits (s : string) :
  s <> "" -> forallb isDigit s = true ->
  unsignedDecimal s = ofZ (Z.of_N (decimalValue s)).
Proof.
  intros Hne Hd. unfold unsignedDecimal.
  assert (Hinf : String.eqb s "Infinity" = false).
  { apply String.eqb_neq. intros ->. discriminate Hd. }
  rewrite Hinf.
  rewrite <- (append_empty_r s) at 1.
  rewrite (span_app isDigit s "" Hd I).
  apply isEmpty_false in Hne. rewrite Hne. simpl.
  rewrite append_empty_r.
  unfold ofDecimal, ofZ. destruct (decimalValue s) as [|p]; [reflexivity|].
  simpl Z.of_N. now rewrite Z.mul_1_r.
Qed.

(** A run of digits converts to the Number of the integer it writes. *)
Lemma Number_digits (s : string) :
  s <> "" -> forallb isDigit s = true ->
  Number s = ofZ (Z.of_N (decimalValue s)).
Proof.
  intros Hne Hd. rewrite <- (unsignedDecimal_digits s Hne Hd).
  unfold Number. rewrite (trim_id s (digits_no_space s Hd)).
  destruct s as [|c0 [|c1 r]]; [now elim Hne| |].
  - simpl in Hd. rewrite andb_true_r in Hd.
    destruct (isDigit_cases c0 Hd) as [E|[E|[E|[E|[E|[E|[E|[E|[E|E]]]]]]]]];
      rewrite E; reflexivity.
  - simpl in Hd. apply andb_true_iff in Hd. destruct Hd as [H0 Hd].
    apply andb_true_iff in Hd. destruct Hd as [H1 _].
    destruct (isDigit_cases c0 H0) as [E|[E|[E|[E|[E|[E|[E|[E|[E|E]]]]]]]]];
      rewrite E; try reflexivity;
      destruct (isDigit_cases c1 H1) as [F|[F|[F|[F|[F|[F|[F|[F|[F|F]]]]]]]]];
      rewrite F; reflexivity.
Qed.

Lemma gt_ofZ_exact (a b : N) :
  (a < 2 ^ 53)%N -> (b < 2 ^ 53)%N ->
  (gt (ofZ (Z.of_N a)) (ofZ (Z.of_N b)) = true <-> (b < a)%N).
Proof.
  intros Ha Hb.
  pose proof (gt_false_le (ofZ (Z.of_N a)) (ofZ (Z.of_N b))
                (ofZ_nonneg _ (N2Z.is_nonneg a)) (ofZ_nonneg _ (N2Z.is_nonneg b)))
    as Hgl.
  pose proof (ofZ_le_exact a b Ha Hb) as Hle.
  destruct (gt (ofZ (Z.of_N a)) (ofZ (Z.of_N b))) eqn:G.
  - split; [intros _|reflexivity].
    destruct (N.lt_ge_cases b a) as [L|L]; [exact L|].
    apply Hle in L. apply Hgl in L. discriminate.
  - split; [discriminate|]. intros L.
    destruct Hgl as [Hgl _]. specialize (Hgl eq_refl). apply Hle in Hgl. lia.
Qed.

Lemma cell_number (row : Row) (i : nat) (x : Cell) (n : N) :
  rowCell row i = Some x -> Gviz.v x = VNum (Z.of_N n) ->
  cell row (Some i) <> "" /\ Number (cell row (Some i)) = ofZ (Z.of_N n).
Proof.
  intros Hc Hv. unfold cell. rewrite Hc, Hv. simpl String_.
  destruct (stringOfZ_digits (Z.of_N n) (N2Z.is_nonneg n)) as (Hne & Hd & Hval).
  rewrite (trim_id _ (digits_no_space _ Hd)).
  split; [exact Hne|].
  rewrite (Number_digits _ Hne Hd), Hval. now rewrite N2Z.id.
Qed.

(** X5.  Scores that the sheet holds as numbers are compared by value,
    not as text: for a court with both score columns whose cells hold
    the integers [a] and [b] (below 2^53), in a cell that shows a match
    and with [showWinner] set, side A is marked winner exactly when
    [b < a] and side B exactly when [a < b]. *)
Theorem X5_number_scores_by_value (row : Row) (ct : Court)
    (iA iB : nat) (cA cB : Cell) (a b : N) :
  scoreACol ct = Some iA -> scoreBCol ct = Some iB ->
  rowCell row iA = Some cA -> Gviz.v cA = VNum (Z.of_N a) ->
  rowCell row iB = Some cB -> Gviz.v cB = VNum (Z.of_N b) ->
  (a < 2 ^ 53)%N -> (b < 2 ^ 53)%N ->
  let m := matchupOf row ct in
  teamA m <> "" \/ teamB m <> "" ->
  (winnerA (renderMatchup m true) = true <-> (b < a)%N) /\
  (winnerB (renderMatchup m true) = true <-> (a < b)%N).
Proof.
  intros HiA HiB HcA HvA HcB HvB Ha Hb m Hteam.
  destruct (cell_number row iA cA a HcA HvA) as [HneA HnA].
  destruct (cell_number row iB cB b HcB HvB) as [HneB HnB].
  assert (EA : scoreA m = cell row (Some iA))
    by (unfold m, matchupOf; simpl; now rewrite HiA).
  assert (EB : scoreB m = cell row (Some iB))
    by (unfold m, matchupOf; simpl; now rewrite HiB).
  rewrite (renderMatchup_teams m true Hteam).
  cbn [winnerA winnerB winner andb].
  rewrite EA, EB.
  rewrite (scoreNumber_nonempty _ HneA), (scoreNumber_nonempty _ HneB).
  cbn [beats]. rewrite HnA, HnB.
  split; apply gt_ofZ_exact; assumption.
Qed.

Lemma X5_number_scores_by_value_witness :
  let m := matchupOf nineTwentyOne court2 in
  scoreA m = "9" /\ scoreB m = "21" /\
  (winnerA (renderMatchup m true) = true <-> (21 < 9)%N) /\
  (winnerB (renderMatchup m true) = true <-> (9 < 21)%N).
Proof.
  split; [reflexivity|]. split; [reflexivity|].
  apply (X5_number_scores_by_value nineTwentyOne court2 3 5
           (Gviz.mkCell (VNum 9) None) (Gviz.mkCell (VNum 21) None) 9 21);
    try reflexivity.
  left. discriminate.
Defined.

(** ** The teams offered by the filter *)

Lemma addTeam_In (x : string) (teams : list string) (t : string) :
  In t (addTeam x teams) <-> In t teams \/ t = x.
Proof.
  unfold addTeam. destruct (existsb (String.eqb x) teams) eqn:E.
  - split; [now left|]. intros [H| ->]; [exact H|].
    apply existsb_exists in E. destruct E as (y & Hy & Hxy).
    apply String.eqb_eq in Hxy. now subst y.
  - rewrite in_app_iff. simpl. intuition.
Qed.

Lemma addTeam_NoDup (x : string) (teams : list string) :
  NoDup teams -> NoDup (addTeam x teams).
Proof.
  intros H. unfold addTeam. destruct (existsb (String.eqb x) teams) eqn:E; [exact H|].
  apply NoDup_app; [exact H| |].
  - constructor; [intros []|constructor].
  - intros y Hy [<-|[]].
    assert (Hex : existsb (String.eqb x) teams = true).
    { apply existsb_exists. exists x. split; [exact Hy|apply String.eqb_refl]. }
    congruence.
Qed.

Lemma addTeamsOf_In (teams : list string) (m : Matchup) (t : string) :
  In t (addTeamsOf teams m) <->
  In t teams \/ (t <> "" /\ (teamA m = t \/ teamB m = t)).
Proof.
  unfold addTeamsOf.
  destruct (isEmpty (teamA m)) eqn:EA; destruct (isEmpty (teamB m)) eqn:EB;
    rewrite ?addTeam_In;
    rewrite ?isEmpty_true, ?isEmpty_false in EA;
    rewrite ?isEmpty_true, ?isEmpty_false in EB;
    split; intros H; intuition (subst; try congruence; auto).
Qed.

Lemma addTeamsOf_NoDup (teams : list string) (m : Matchup) :
  NoDup teams -> NoDup (addTeamsOf teams m).
Proof.
  intros H. unfold addTeamsOf.
  destruct (isEmpty (teamA m)); destruct (isEmpty (teamB m));
    auto using addTeam_NoDup.
Qed.

Lemma addMatchups_spec (ms : list Matchup) :
  forall teams, NoDup teams ->
  NoDup (fold_left addTeamsOf ms teams) /\
  forall t, In t (fold_left addTeamsOf ms teams) <->
            In t teams \/
            (t <> "" /\ exists m, In m ms /\ (teamA m = t \/ teamB m = t)).
Proof.
  induction ms as [|m ms IH]; intros teams Hnd; simpl.
  - split; [exact Hnd|]. intros t. split; [now left|].
    intros [H|(_ & m & [] & _)]. exact H.
  - destruct (IH _ (addTeamsOf_NoDup teams m Hnd)) as [H1 H2].
    split; [exact H1|]. intros t. rewrite H2, addTeamsOf_In.
    split.
    + intros [[H|(Hne & H)]|(Hne & m' & Hm' & H)]; [now left| |].
      * right. split; [exact Hne|]. exists m. auto.
      * right. split; [exact Hne|]. exists m'. auto.
    + intros [H|(Hne & m' & [<-|Hm'] & H)]; [now left; left| |].
      * left. right. auto.
      * right. split; [exact Hne|]. exists m'. auto.
Qed.

Lemma addRounds_spec (rounds : list Round) :
  forall teams, NoDup teams ->
  let all := fold_left (fun teams r => fold_left addTeamsOf (matchups r) teams)
                       rounds teams in
  NoDup all /\
  forall t, In t all <->
            In t teams \/
            (t <> "" /\ exists r m, In r rounds /\ In m (matchups r) /\
                                    (teamA m = t \/ teamB m = t)).
Proof.
  induction rounds as [|r rounds IH]; intros teams Hnd; simpl.
  - split; [exact Hnd|]. intros t. split; [now left|].
    intros [H|(_ & r & m & [] & _)]. exact H.
  - destruct (addMatchups_spec (matchups r) teams Hnd) as [G1 G2].
    destruct (IH _ G1) as [H1 H2].
    split; [exact H1|]. intros t. rewrite H2, G2.
    split.
    + intros [[H|(Hne & m & Hm & H)]|(Hne & r' & m & Hr' & Hm & H)]; [now left| |].
      * right. split; [exact Hne|]. exists r, m. auto.
      * right. split; [exact Hne|]. exists r', m. auto.
    + intros [H|(Hne & r' & m & [<-|Hr'] & Hm & H)]; [now left; left| |].
      * left. right. split; [exact Hne|]. exists m. auto.
      * right. split; [exact Hne|]. exists r', m. auto.
Qed.

(** X6.  Whatever order the browser's [localeCompare] puts them in
    (sorting only permutes), [collectTeams] lists every non-empty team
    name of every row of the sheet exactly once and nothing else; rows
    without a time are read like the others. *)
Theorem X6_collectTeams_exact (localeSort : list string -> list string)
    (rounds : list Round) :
  (forall l, Permutation (localeSort l) l) ->
  NoDup (collectTeams localeSort rounds) /\
  forall t, In t (collectTeams localeSort rounds) <->
            t <> "" /\ exists r m, In r rounds /\ In m (matchups r) /\
                                   (teamA m = t \/ teamB m = t).
Proof.
  intros Hperm. unfold collectTeams.
  destruct (addRounds_spec rounds [] (NoDup_nil _)) as [H1 H2].
  split.
  - eapply Permutation_NoDup; [apply Permutation_sym, Hperm|exact H1].
  - intros t. split.
    + intros H. apply (Permutation_in _ (Hperm _)) in H.
      apply H2 in H. destruct H as [[]|H]. exact H.
    + intros H. apply (Permutation_in _ (Permutation_sym (Hperm _))).
      apply H2. now right.
Qed.

Lemma X6_collectTeams_exact_witness :
  NoDup (collectTeams (fun l => rev l) morning) /\
  (In "Pink" (collectTeams (fun l => rev l) morning) <->
   "Pink" <> "" /\ exists r m, In r morning /\ In m (matchups r) /\
                               (teamA m = "Pink" \/ teamB m = "Pink")).
Proof.
  destruct (X6_collectTeams_exact (fun l => rev l) morning
              (fun l => Permutation_sym (Permutation_rev l))) as [H1 H2].
  split; [exact H1|apply H2].
Defined.

(** ** The sort keeps the order of the sheet among equals *)







(** ** The class of a court's row *)

(** X8.  The name of every court that [parseCourts] returns is the word
    "Court" (in some case), white space and a run of digits, and
    [courtClass] gives it the class "court-" followed by those digits as
    they are written, leading zeros included. *)
Theorem X8_courtClass_of_court (headers : list string) (c : Court) :
  In c (parseCourts headers) ->
  exists word w1 ds,
    name c = (word ++ w1 ++ ds)%string /\
    toLowerCase word = "court" /\
    w1 <> "" /\ forallb isWhiteSpace w1 = true /\
    ds <> "" /\ forallb isDigit ds = true /\
    courtClass (name c) = ("court-" ++ ds)%string.
Proof.
  intros Hc.
  destruct (parseCourts_CourtsOf headers) as (_ & Hnames & _ & _).
  assert (Hn : In (name c) (List.map name (parseCourts headers)))
    by now apply in_map.
  apply Hnames in Hn. destruct Hn as (i & _ & label & g2 & _ & Hm).
  apply matchCourt_sound in Hm.
  destruct Hm as (word & w1 & ds & w2 & _ & Hnm & Hw & Hw1 & Hs1 & Hds & Hd & _).
  exists word, w1, ds. repeat (split; [assumption|]).
  unfold courtClass. rewrite Hnm.
  rewrite firstDigits_skip by now apply court_word_no_digit.
  rewrite firstDigits_skip by now apply spaces_no_digit.
  now rewrite firstDigits_run.
Qed.

Lemma X8_courtClass_of_court_witness :
  exists word w1 ds,
    "Court 10" = (word ++ w1 ++ ds)%string /\
    toLowerCase word = "court" /\
    w1 <> "" /\ forallb isWhiteSpace w1 = true /\
    ds <> "" /\ forallb isDigit ds = true /\
    courtClass "Court 10" = ("court-" ++ ds)%string.
Proof.
  apply (X8_courtClass_of_court exampleHeaders court10).
  right. left. reflexivity.
Defined.

(** ** The grid under a team filter *)

Lemma mapiM_nth_fwd {A B} (g : A -> nat -> option B) (l : list A)
    (i : nat) (r : list B) (j : nat) (x : A) :
  mapiM g i l = Some r -> nth_error l j = Some x ->
  exists y, nth_error r j = Some y /\ g x (i + j) = Some y.
Proof.
  intros H Hx.
  assert (Hj : j < List.length r).
  { rewrite (mapiM_length _ _ _ _ H). apply nth_error_Some. congruence. }
  destruct (nth_error r j) as [y|] eqn:Ey;
    [|apply nth_error_None in Ey; lia].
  destruct (mapiM_nth _ _ _ _ _ _ H Ey) as (x' & Hx' & Hg).
  exists y. split; [reflexivity|]. congruence.
Qed.

Lemma playsIn_names (flt : string) (m : Matchup) (showWinner : bool) :
  flt <> "" -> playsIn flt m = true ->
  namesTeam flt (renderMatchup m showWinner).
Proof.
  intros Hf Hp. unfold playsIn in Hp. apply orb_true_iff in Hp.
  assert (Ht : teamA m <> "" \/ teamB m <> "").
  { destruct Hp as [H|H]; apply String.eqb_eq in H; [left|right]; congruence. }
  rewrite (renderMatchup_teams m showWinner Ht). simpl.
  unfold playersOf.
  destruct Hp as [H|H]; apply String.eqb_eq in H; rewrite H;
    apply isEmpty_false in Hf; rewrite Hf; auto.
Qed.

Lemma renderCell_filtered (flt : string) (validRounds : list Round)
    (i : nat) (round : Round) (j : nat) (cm : CellMarkup) :
  flt <> "" -> renderCell flt validRounds i round j = Some cm ->
  exists m, nth_error (matchups round) i = Some m /\
            (playsIn flt m = true -> namesTeam flt cm) /\
            (playsIn flt m = false -> cm = NoMatches).
Proof.
  intros Hf. unfold renderCell.
  destruct (nth_error (matchups round) i) as [m|]; simpl; [|discriminate].
  pose proof Hf as Hf'. apply isEmpty_false in Hf'. rewrite Hf'. simpl.
  intros [= <-]. exists m. split; [reflexivity|].
  split; intros Hp; rewrite Hp; [now apply playsIn_names|reflexivity].
Qed.

(** X9.  Under a non-empty team filter a grid has at least one row, each
    of its cells is either the placeholder or shows a match in which one
    side is the selected team, and every row has at least one cell of
    the second kind. *)
Theorem X9_filtered_grid (flt : string) (rounds : list Round)
    (hs : list string) (rows : list BodyRow) :
  flt <> "" -> renderAll flt rounds = Some (Schedule hs rows) ->
  rows <> [] /\
  forall row, In row rows ->
    (forall cm, In cm (cells row) -> cm = NoMatches \/ namesTeam flt cm) /\
    (exists cm, In cm (cells row) /\ namesTeam flt cm).
Proof.
  intros Hf H. apply renderAll_inv in H.
  destruct (validRoundsOf rounds) as [|first rest] eqn:Ev; [discriminate|].
  destruct H as (idxs & Hidx & [(_ & _ & H)|(Hne & rows' & Hrows & H)]);
    [discriminate|].
  injection H as _ <-.
  destruct Hne as [Hne|Hne]; [contradiction|].
  pose proof (courtIndicesFor_filter _ _ _ _ Hf Hidx) as Hsel.
  pose proof (mapM_Forall2 _ _ _ Hrows) as Hall.
  split.
  { intros ->. inversion Hall. congruence. }
  intros row Hrow.
  destruct (In_nth_error _ _ Hrow) as [k Hk].
  destruct (rows_nth _ _ _ _ _ _ _ Hrows Hk) as (i & Hi & Hr).
  apply renderRow_inv in Hr. destruct Hr as (_ & _ & Hcells).
  split.
  - intros cm Hcm. destruct (In_nth_error _ _ Hcm) as [j Hj].
    destruct (mapiM_nth _ _ _ _ _ _ Hcells Hj) as (round & _ & Hc).
    destruct (renderCell_filtered _ _ _ _ _ _ Hf Hc) as (m & _ & Hyes & Hno).
    destruct (playsIn flt m); [right|left]; auto.
  - assert (Hq : qualifies flt (first :: rest) i = true).
    { apply nth_error_In in Hi. rewrite Hsel in Hi.
      now apply filter_In in Hi. }
    unfold qualifies in Hq. apply existsb_exists in Hq.
    destruct Hq as (round & Hround & Hm).
    destruct (In_nth_error _ _ Hround) as [j Hj].
    destruct (mapiM_nth_fwd _ _ _ _ _ _ Hcells Hj) as (cm & Hcm & Hc).
    exists cm. split; [eapply nth_error_In; eauto|].
    destruct (renderCell_filtered _ _ _ _ _ _ Hf Hc) as (m & Hm' & Hyes & _).
    rewrite Hm' in Hm. auto.
Qed.

Lemma X9_filtered_grid_witness :
  exists rows,
    renderAll "Gold" morning = Some (Schedule ["9AM"; "10AM"] rows) /\
    rows <> [] /\
    forall row, In row rows ->
      (forall cm, In cm (cells row) -> cm = NoMatches \/ namesTeam "Gold" cm) /\
      (exists cm, In cm (cells row) /\ namesTeam "Gold" cm).
Proof.
  eexists. split; [reflexivity|].
  apply (X9_filtered_grid "Gold" morning ["9AM"; "10AM"]);
    [discriminate|reflexivity].
Defined.

(** ** From the table to the grid *)

Lemma times_of_valid (rounds : list Round) :
  List.map time (validRoundsOf rounds)
  = filter (fun t => negb (isEmpty t)) (List.map time rounds).
Proof.
  unfold validRoundsOf. induction rounds as [|r rs IH]; simpl; [reflexivity|].
  destruct (negb (isEmpty (time r))); simpl; now rewrite IH.
Qed.

Lemma times_of_table (table : Table) :
  List.map time (parseRounds table)
  = List.map (fun row => timeCell row 1) (Gviz.rows table).
Proof. unfold parseRounds. rewrite map_map. reflexivity. Qed.

Lemma renderRow_class (flt : string) (validRounds : list Round)
    (allCourts : list Matchup) (i : nat) (row : BodyRow) :
  renderRow flt validRounds allCourts i = Some row ->
  courtHeaderClass row = courtClass (courtHeader row).
Proof.
  unfold renderRow.
  destruct (nth_error allCourts i) as [ct|]; simpl; [|discriminate].
  destruct (mapiM _ 0 validRounds) as [cs|]; simpl; [|discriminate].
  now intros [= <-].
Qed.

Lemma rows_classes (flt : string) (validRounds : list Round)
    (allCourts : list Matchup) (idxs : list nat) (rows : list BodyRow) :
  mapM (renderRow flt validRounds allCourts) idxs = Some rows ->
  List.map courtHeaderClass rows = List.map courtClass (List.map courtHeader rows).
Proof.
  intros H. apply mapM_Forall2 in H.
  induction H as [|i row idxs rows Hrow _ IH]; simpl; [reflexivity|].
  f_equal; [|exact IH]. now apply renderRow_class in Hrow.
Qed.

(** X10.  Parsing a table and rendering the rounds without a filter
    throws nothing.  The result is the empty-sheet message when no row
    of the table has a time; otherwise it is a grid whose header cells
    are the times of the rows that have one, in the order of the sheet,
    and whose rows are headed by the courts of [parseCourts], in their
    order, each with the class that [courtClass] derives from its name. *)
Theorem X10_table_to_grid (table : Table) :
  let times := filter (fun t => negb (isEmpty t))
                 (List.map (fun row => timeCell row 1) (Gviz.rows table)) in
  let courts := parseCourts (headersOf table) in
  (times = [] /\ renderAll "" (parseRounds table) = Some SheetEmpty)
  \/ (times <> [] /\
      exists rows,
        renderAll "" (parseRounds table) = Some (Schedule times rows) /\
        List.map courtHeader rows = List.map name courts /\
        List.map courtHeaderClass rows
        = List.map (fun c => courtClass (name c)) courts).
Proof.
  intros times courts.
  assert (Ht : List.map time (validRoundsOf (parseRounds table)) = times).
  { now rewrite times_of_valid, times_of_table. }
  destruct (renderAll_parseRounds "" table) as [ct Hct].
  pose proof (renderAll_inv _ _ _ Hct) as Hinv.
  destruct (validRoundsOf (parseRounds table)) as [|first rest] eqn:Ev.
  - left. subst ct. split; [now rewrite <- Ht|exact Hct].
  - right. split; [rewrite <- Ht; discriminate|].
    destruct Hinv as (idxs & Hidx & [(Hf & _)|(_ & rows & Hrows & ->)]);
      [now elim Hf|].
    exists rows. rewrite <- Ht. split; [exact Hct|].
    rewrite courtIndicesFor_all in Hidx. injection Hidx as <-.
    assert (Hfirst : In first (parseRounds table)).
    { apply (validRoundsOf_In (parseRounds table) first).
      rewrite Ev. now left. }
    apply parseRounds_In in Hfirst. destruct Hfirst as (row & _ & Hfirst).
    assert (Hh : List.map courtHeader rows = List.map name courts).
    { rewrite (rows_headers _ _ _ _ _ Hrows), courtAt_seq, Hfirst.
      simpl. rewrite map_map. reflexivity. }
    split; [exact Hh|].
    rewrite (rows_classes _ _ _ _ _ Hrows), Hh, map_map. reflexivity.
Qed.

(** ** Picking a team *)

Lemma pageStep_cache (localeSort : list string -> list string)
    (typeErrorMessage : string) (st : App) (ev : PageEvent) :
  cacheFromSheet st -> cacheFromSheet (pageStep localeSort typeErrorMessage st ev).
Proof.
  intros H. destruct ev as [|outcome now|value|team]; simpl.
  - exact H.
  - unfold loadDataFinish. destruct outcome as [[table|]|message]; try exact H.
    match goal with
    | |- context [renderAll ?flt (parseRounds table)] =>
        destruct (renderAll flt (parseRounds table))
    end; right; exists table; reflexivity.
  - exact H.
  - unfold filterByTeam. destruct (cachedRounds st) as [rounds|] eqn:E.
    + destruct (renderAll team rounds); unfold cacheFromSheet; simpl;
        rewrite <- E; exact H.
    + left. reflexivity.
Qed.

Lemma pageRun_cache (localeSort : list string -> list string)
    (typeErrorMessage : string) (evs : list PageEvent) :
  forall st, cacheFromSheet st ->
  cacheFromSheet (fold_left (pageStep localeSort typeErrorMessage) evs st).
Proof.
  induction evs as [|ev evs IH]; intros st H; simpl; [exact H|].
  apply IH, pageStep_cache, H.
Qed.

Lemma filterByTeam_shows (team : string) (st : App) (rounds : list Round) :
  cacheFromSheet st -> cachedRounds st = Some rounds ->
  renderAll team rounds = Some (tournamentContent (filterByTeam team st)).
Proof.
  intros [H|(table & H)] Hc; [congruence|].
  assert (rounds = parseRounds table) as -> by congruence.
  unfold filterByTeam. rewrite H.
  destruct (renderAll_parseRounds team table) as [ct ->]. reflexivity.
Qed.

Lemma filterByTeam_last (t1 t2 : string) (st : App) :
  cacheFromSheet st ->
  filterByTeam t2 (filterByTeam t1 st) = filterByTeam t2 st.
Proof.
  intros [H|(table & H)]; unfold filterByTeam; rewrite H.
  - reflexivity.
  - destruct (renderAll_parseRounds t1 table) as [c1 ->].
    simpl.
    destruct (renderAll_parseRounds t2 table) as [c2 ->]. reflexivity.
Qed.

Lemma renderAll_no_error (flt : string) (rounds : list Round) (message : string) :
  renderAll flt rounds <> Some (ErrorMsg message).
Proof.
  intros H. apply renderAll_inv in H.
  destruct (validRoundsOf rounds); [discriminate|].
  destruct H as (idxs & _ & [(_ & _ & H)|(_ & rows & _ & H)]); discriminate.
Qed.

(** X11.  On a page that starts with an empty cache, after any sequence
    of load cycles (overlapping or not, successful or not), changes of
    the select and calls of [filterByTeam]: [cachedRounds] is still
    [null] or the rounds of some table; a call of [filterByTeam] shows
    exactly what [renderAll] makes of the cached rounds under that team,
    with nothing thrown; and of two such calls in a row only the second
    counts. *)
Theorem X11_team_pick_in_session (localeSort : list string -> list string)
    (typeErrorMessage : string) (evs : list PageEvent) (st0 : App) :
  cachedRounds st0 = None ->
  let st := fold_left (pageStep localeSort typeErrorMessage) evs st0 in
  cacheFromSheet st
  /\ (forall team rounds, cachedRounds st = Some rounds ->
        activeTeamFilter (filterByTeam team st) = team /\
        renderAll team rounds = Some (tournamentContent (filterByTeam team st)))
  /\ (forall t1 t2, filterByTeam t2 (filterByTeam t1 st) = filterByTeam t2 st).
Proof.
  intros H0 st.
  assert (Hc : cacheFromSheet st) by (apply pageRun_cache; now left).
  split; [exact Hc|]. split.
  - intros team rounds Hr. split; [|now apply filterByTeam_shows].
    unfold filterByTeam. rewrite Hr. now destruct (renderAll team rounds).
  - intros t1 t2. now apply filterByTeam_last.
Qed.

Lemma X11_team_pick_in_session_witness :
  let st := fold_left (pageStep (fun l => l) "undefined has no properties")
              [ LoadStarts;
                LoadSettles (Resolve (Some exampleTable)) "9:05 AM";
                SelectChanged "Red"; TeamPicked "Red";
                LoadStarts;
                LoadSettles (Reject "Network error") "9:06 AM" ]
              blankPage in
  cachedRounds st = Some (parseRounds exampleTable) /\
  filterByTeam "Gold" (filterByTeam "Blue" st) = filterByTeam "Gold" st.
Proof.
  split; [reflexivity|].
  apply (X11_team_pick_in_session (fun l => l) "undefined has no properties"
           [ LoadStarts;
             LoadSettles (Resolve (Some exampleTable)) "9:05 AM";
             SelectChanged "Red"; TeamPicked "Red";
             LoadStarts;
             LoadSettles (Reject "Network error") "9:06 AM" ] blankPage).
  reflexivity.
Defined.

(** X12.  When a load cycle fails on a page that has rounds in its
    cache, the error message replaces the grid; a team pick after that
    puts the grid of the cached (stale) rounds back in place of the
    error message, while the status line keeps announcing the failure. *)
Theorem X12_stale_grid_after_failure (localeSort : list string -> list string)
    (typeErrorMessage : string) (table : Table) (message now team : string)
    (st : App) :
  cachedRounds st = Some (parseRounds table) ->
  let failed := loadData localeSort typeErrorMessage (Reject message) now st in
  let picked := filterByTeam team failed in
  tournamentContent failed = ErrorMsg message
  /\ statusDot picked = error /\ statusText picked = FailedText
  /\ renderAll team (parseRounds table) = Some (tournamentContent picked)
  /\ (forall msg, tournamentContent picked <> ErrorMsg msg).
Proof.
  intros Hc failed picked.
  assert (Hshow : renderAll team (parseRounds table)
                  = Some (tournamentContent picked)).
  { apply filterByTeam_shows; [right; exists table; exact Hc|exact Hc]. }
  split; [reflexivity|].
  split.
  { unfold picked, filterByTeam. simpl. rewrite Hc.
    now destruct (renderAll team (parseRounds table)). }
  split.
  { unfold picked, filterByTeam. simpl. rewrite Hc.
    now destruct (renderAll team (parseRounds table)). }
  split; [exact Hshow|].
  intros msg E. rewrite E in Hshow. now apply renderAll_no_error in Hshow.
Qed.

Lemma X12_stale_grid_after_failure_witness :
  let failed := loadData (fun l => l) "undefined has no properties"
                         (Reject "Request timed out") "9:35 AM" examplePage in
  let picked := filterByTeam "Red" failed in
  tournamentContent failed = ErrorMsg "Request timed out"
  /\ statusDot picked = error /\ statusText picked = FailedText
  /\ renderAll "Red" (parseRounds exampleTable) = Some (tournamentContent picked)
  /\ (forall msg, tournamentContent picked <> ErrorMsg msg).
Proof.
  apply (X12_stale_grid_after_failure (fun l => l) "undefined has no properties"
           exampleTable "Request timed out" "9:35 AM" "Red" examplePage).
  reflexivity.
Defined.

(** ** The refresh timer *)

Lemma clearTimeout_own (t : Timers) :
  (forall h, In h (armed t) -> refreshTimer t = Some h) ->
  clearTimeout (refreshTimer t) (armed t) = [].
Proof.
  intros H. unfold clearTimeout.
  destruct (refreshTimer t) as [i|] eqn:E.
  - induction (armed t) as [|j js IH]; simpl; [reflexivity|].
    assert (Hj : j = i) by (specialize (H j (or_introl eq_refl)); congruence).
    subst j. rewrite Nat.eqb_refl. simpl. apply IH.
    intros h Hh. apply H. now right.
  - destruct (armed t) as [|j js]; [reflexivity|].
    specialize (H j (or_introl eq_refl)). discriminate.
Qed.

Lemma one_armed (t : Timers) :
  (forall h, In h (armed t) -> refreshTimer t = Some h) -> NoDup (armed t) ->
  List.length (armed t) <= 1.
Proof.
  intros H Hnd. destruct (armed t) as [|a [|b l]]; simpl; try lia.
  exfalso. inversion Hnd as [|? ? Hna _]. apply Hna. left.
  assert (Ha := H a (or_introl eq_refl)).
  assert (Hb := H b (or_intror (or_introl eq_refl))). congruence.
Qed.

Lemma bootstrap_ok : TimersOk bootstrap.
Proof.
  split; [intros h []|]. split; [constructor|]. simpl. lia.
Qed.

Lemma timerStep_ok (t : Timers) (ev : TimerEvent) :
  TimersOk t -> TimersOk (timerStep t ev).
Proof.
  intros Hok. pose proof Hok as (Hown & Hnd & Hlive).
  destruct ev as [h| |]; simpl.
  - destruct (existsb (Nat.eqb h) (armed t)) eqn:E;
      [|exact Hok].
    split; [|split]; simpl.
    + intros k Hk. apply filter_In in Hk. apply Hown, Hk.
    + now apply NoDup_filter.
    + lia.
  - destruct (loadsInFlight t) as [|n] eqn:El; [exact Hok|].
    unfold scheduleRefresh. simpl.
    rewrite (clearTimeout_own t Hown). simpl.
    split; [|split]; simpl.
    + intros h [<-|[]]. reflexivity.
    + repeat constructor. intros [].
    + lia.
  - unfold manualRefresh, loadBegins. simpl.
    rewrite (clearTimeout_own t Hown).
    split; [intros h []|]. split; [constructor|]. simpl. lia.
Qed.

(** X13.  From the moment the page has booted, whatever the order in
    which refresh timeouts fire, loads return and the refresh button is
    clicked: at most one refresh timeout is set at any time, it is the
    one whose handle [refreshTimer] holds, and refreshing never comes to
    a halt, since a call of [loadData] is in flight or a refresh timeout
    is set.  A click on the button leaves no refresh timeout set. *)
Theorem X13_single_refresh_timer (evs : list TimerEvent) :
  let t := fold_left timerStep evs bootstrap in
  List.length (armed t) <= 1
  /\ (forall h, In h (armed t) -> refreshTimer t = Some h)
  /\ 1 <= loadsInFlight t + List.length (armed t)
  /\ armed (timerStep t RefreshClicked) = []
  /\ (forall n, loadsInFlight t = S n ->
        armed (timerStep t LoadReturns) = [nextHandle t]).
Proof.
  intros t.
  assert (Hok : TimersOk t).
  { subst t. generalize bootstrap bootstrap_ok.
    induction evs as [|ev evs IH]; intros t0 H0; simpl; [exact H0|].
    apply IH, timerStep_ok, H0. }
  destruct Hok as (Hown & Hnd & Hlive).
  split; [now apply one_armed|].
  split; [exact Hown|].
  split; [exact Hlive|].
  split.
  - simpl. now rewrite (clearTimeout_own t Hown).
  - intros n Hn. simpl. rewrite Hn. simpl.
    now rewrite (clearTimeout_own t Hown).
Qed.

(** ** The theme *)

Lemma toggleTheme_effective (env : ThemeEnv) :
  effectiveTheme (toggleTheme env)
  = (if String.eqb (effectiveTheme env) "light" then "dark" else "light").
Proof.
  unfold toggleTheme.
  destruct (String.eqb (effectiveTheme env) "light"); reflexivity.
Qed.

Lemma toggleTheme_stored (env : ThemeEnv) :
  storedTheme (toggleTheme env) = Some (effectiveTheme (toggleTheme env))
  /\ datasetTheme (toggleTheme env) = Some (effectiveTheme (toggleTheme env)).
Proof.
  unfold toggleTheme.
  destruct (String.eqb (effectiveTheme env) "light"); split; reflexivity.
Qed.

Lemma toggleTheme_button (env : ThemeEnv) :
  themeBtn (toggleTheme env)
  = match themeBtn env with
    | Some _ => Some (if String.eqb (effectiveTheme (toggleTheme env)) "light"
                      then Moon else Sun)
    | None => None
    end.
Proof.
  unfold toggleTheme.
  destruct (String.eqb (effectiveTheme env) "light"); reflexivity.
Qed.

Lemma toggleTheme_twice (env : ThemeEnv) :
  storedTheme env = Some (effectiveTheme env) ->
  datasetTheme env = Some (effectiveTheme env) ->
  themeBtn env
  = match themeBtn env with
    | Some _ => Some (if String.eqb (effectiveTheme env) "light" then Moon else Sun)
    | None => None
    end ->
  effectiveTheme env = "light" \/ effectiveTheme env = "dark" ->
  toggleTheme (toggleTheme env) = env.
Proof.
  intros Hs Hd Hb Hld.
  destruct Hld as [H|H]; rewrite H in Hs, Hd, Hb;
    destruct env as [st pl ds btn]; simpl in Hs, Hd, Hb; subst st ds;
    unfold toggleTheme, applyTheme, effectiveTheme; simpl;
    destruct btn as [icon|]; simpl; try reflexivity;
    injection Hb as ->; reflexivity.
Qed.

Lemma stored_wins (env : ThemeEnv) (light : bool) (s : string) :
  storedTheme env = Some s -> s <> "" ->
  effectiveTheme (withPreference light env) = s.
Proof.
  intros Hs Hne. unfold effectiveTheme, withPreference. simpl.
  rewrite Hs. apply isEmpty_false in Hne. now rewrite Hne.
Qed.

(** X14.  [toggleTheme] stores and applies "dark" when the effective
    theme is "light" and "light" in every other case (so also for a
    stored theme that is neither).  From then on the effective theme is
    the stored one whatever the system prefers, the root element and
    the button (a moon on light, where there is a button) agree with
    it, and two more toggles lead back to the same state; a second
    toggle gives back the theme from before whenever that was "light"
    or "dark". *)
Theorem X14_toggleTheme (env : ThemeEnv) :
  let env1 := toggleTheme env in
  effectiveTheme env1
    = (if String.eqb (effectiveTheme env) "light" then "dark" else "light")
  /\ storedTheme env1 = Some (effectiveTheme env1)
  /\ datasetTheme env1 = Some (effectiveTheme env1)
  /\ (forall icon, themeBtn env1 = Some icon ->
        (icon = Moon <-> effectiveTheme env1 = "light"))
  /\ (themeBtn env1 = None <-> themeBtn env = None)
  /\ (forall light, effectiveTheme (withPreference light env1) = effectiveTheme env1)
  /\ (effectiveTheme env = "light" \/ effectiveTheme env = "dark" ->
      effectiveTheme (toggleTheme env1) = effectiveTheme env)
  /\ toggleTheme (toggleTheme env1) = env1.
Proof.
  intros env1.
  pose proof (toggleTheme_effective env) as He.
  destruct (toggleTheme_stored env) as [Hs Hd].
  pose proof (toggleTheme_button env) as Hb.
  fold env1 in He, Hs, Hd, Hb.
  split; [exact He|]. split; [exact Hs|]. split; [exact Hd|].
  split.
  { intros icon Hi. rewrite Hb in Hi.
    destruct (themeBtn env); [|discriminate]. injection Hi as <-.
    destruct (String.eqb (effectiveTheme env1) "light") eqn:E.
    - apply String.eqb_eq in E. tauto.
    - apply String.eqb_neq in E. split; [discriminate|contradiction]. }
  split.
  { rewrite Hb. destruct (themeBtn env); split; congruence. }
  split.
  { intros light. apply stored_wins; [exact Hs|].
    rewrite He. now destruct (String.eqb (effectiveTheme env) "light"). }
  split.
  { intros Hld. rewrite toggleTheme_effective, He.
    destruct Hld as [H|H]; rewrite H; reflexivity. }
  apply toggleTheme_twice; try assumption.
  - rewrite Hb at 1. rewrite Hb.
    destruct (themeBtn env); reflexivity.
  - rewrite He. destruct (String.eqb (effectiveTheme env) "light"); auto.
Qed.

(** ** Column A *)

Lemma court_columns_from_2 (headers : list string) (c : Court)
    (k : FieldKind) (i : nat) :
  In c (parseCourts headers) -> column k c = Some i -> 2 <= i.
Proof.
  intros Hc Hk.
  destruct (parseCourts_CourtsOf headers) as (_ & _ & Hcols & _).
  apply (Hcols c k i Hc) in Hk. destruct Hk as [(H & _) _]. exact H.
Qed.

Lemma cell_agrees (row row' : Row) (col : option nat) :
  (forall i, col = Some i -> rowCell row i = rowCell row' i) ->
  cell row col = cell row' col.
Proof.
  intros H. destruct col as [i|]; [|reflexivity].
  unfold cell. now rewrite (H i eq_refl).
Qed.

Lemma matchupOf_agrees (headers : list string) (row row' : Row) (c : Court) :
  In c (parseCourts headers) ->
  (forall i, 2 <= i -> rowCell row i = rowCell row' i) ->
  matchupOf row c = matchupOf row' c.
Proof.
  intros Hc H.
  assert (Hk : forall k, cell row (column k c) = cell row' (column k c)).
  { intros k. apply cell_agrees. intros i Hi.
    apply H. eapply court_columns_from_2; eauto. }
  unfold matchupOf.
  pose proof (Hk TeamA) as HA. pose proof (Hk TeamB) as HB.
  pose proof (Hk ScoreA) as HsA. pose proof (Hk ScoreB) as HsB.
  simpl in HA, HB, HsA, HsB. rewrite HA, HB, HsA, HsB. reflexivity.
Qed.

Lemma map_agree {A B} (g g' : A -> B) (l l' : list A) :
  Forall2 (fun x y => g x = g' y) l l' -> List.map g l = List.map g' l'.
Proof. induction 1; simpl; congruence. Qed.

(** X15.  Column A of the sheet plays no part, and column B gives the
    time and nothing else: two tables whose columns agree from the
    third on, and whose rows agree pairwise in every cell but the first,
    parse to the same rounds; rows that agree from the third cell on
    give the same matchups. *)
Theorem X15_column_A_ignored (c0 c1 c0' c1' : Col) (rest : list Col)
    (rows rows' : list Row) :
  let table  := Gviz.mkTable (c0 :: c1 :: rest) rows in
  let table' := Gviz.mkTable (c0' :: c1' :: rest) rows' in
  (Forall2 (fun r r' => forall i, 1 <= i -> rowCell r i = rowCell r' i)
           rows rows' ->
   parseRounds table = parseRounds table')
  /\ (Forall2 (fun r r' => forall i, 2 <= i -> rowCell r i = rowCell r' i)
              rows rows' ->
      List.map matchups (parseRounds table)
      = List.map matchups (parseRounds table')).
Proof.
  intros table table'.
  assert (Hcourts : parseCourts (headersOf table) = parseCourts (headersOf table'))
    by apply parseCourts_first_two.
  assert (Hm : forall r r', (forall i, 2 <= i -> rowCell r i = rowCell r' i) ->
                            List.map (matchupOf r) (parseCourts (headersOf table))
                            = List.map (matchupOf r') (parseCourts (headersOf table'))).
  { intros r r' H. rewrite <- Hcourts. apply map_ext_in. intros c Hc.
    now apply (matchupOf_agrees (headersOf table)). }
  unfold parseRounds. split; intros H.
  - apply map_agree. eapply Forall2_impl; [|exact H].
    intros r r' Hr. simpl in Hr. f_equal.
    + unfold timeCell. now rewrite (Hr 1) by lia.
    + apply Hm. intros i Hi. apply Hr. lia.
  - rewrite !map_map. apply map_agree. eapply Forall2_impl; [|exact H].
    intros r r' Hr. simpl. now apply Hm.
Qed.

Lemma X15_column_A_ignored_witness :
  parseRounds exampleTable = parseRounds annotatedTable.
Proof.
  apply (X15_column_A_ignored
           (Gviz.mkCol (Some "")) (Gviz.mkCol (Some "Time"))
           (Gviz.mkCol (Some "Court 9 A")) (Gviz.mkCol None)
           (List.map (fun l => Gviz.mkCol (Some l)) (skipn 2 exampleHeaders))
           (Gviz.rows exampleTable) (Gviz.rows annotatedTable)).
  repeat constructor; intros [|i] Hi; (lia || reflexivity).
Defined.

(** ** The team filter across a load *)

Lemma existsb_eqb_In (x : string) (l : list string) :
  existsb (String.eqb x) l = true <-> In x l.
Proof.
  rewrite existsb_exists. split.
  - intros (y & Hy & E). apply String.eqb_eq in E. now subst y.
  - intros H. exists x. split; [exact H|apply String.eqb_refl].
Qed.

(** X16.  A load cycle that gets a table offers the teams of that
    table in the select (their names being free of markup and control
    characters).  The team selected before stays selected exactly when
    it is among them; otherwise the filter falls back to all teams.
    The content shown at the end of the cycle is the grid of the new
    rounds under the filter as it is then, and the select is disabled
    exactly when the table names no team. *)
Theorem X16_filter_across_load (localeSort : list string -> list string)
    (typeErrorMessage : string) (table : Table) (now : string) (st : App) :
  let rounds := parseRounds table in
  let teams := collectTeams localeSort rounds in
  let st' := loadData localeSort typeErrorMessage (Resolve (Some table)) now st in
  List.forallb plainName teams = true ->
  filterOptions st' = teams
  /\ activeTeamFilter st' = filterValue st'
  /\ (In (filterValue st) teams -> activeTeamFilter st' = filterValue st)
  /\ (~ In (filterValue st) teams -> activeTeamFilter st' = "")
  /\ (filterDisabled st' = true <-> teams = [])
  /\ renderAll (activeTeamFilter st') rounds = Some (tournamentContent st').
Proof.
  intros rounds teams st' _. subst st'.
  unfold loadData, loadDataFinish. fold rounds. fold teams.
  set (st2 := populateTeamFilter teams (setCachedRounds rounds (loadDataStart st))).
  destruct (renderAll_parseRounds (activeTeamFilter st2) table) as [ct Hct].
  fold rounds in Hct. rewrite Hct.
  assert (Hv : activeTeamFilter st2
               = if existsb (String.eqb (filterValue st)) teams
                 then filterValue st else "") by reflexivity.
  change (activeTeamFilter (setStatus (UpdatedText now) live (setContent ct st2)))
    with (activeTeamFilter st2).
  split; [reflexivity|]. split; [reflexivity|].
  split.
  { intros Hin. apply existsb_eqb_In in Hin. rewrite Hv, Hin. reflexivity. }
  split.
  { intros Hin. rewrite Hv.
    destruct (existsb (String.eqb (filterValue st)) teams) eqn:E;
      [|reflexivity].
    apply existsb_eqb_In in E. contradiction. }
  split; [|exact Hct].
  change (filterDisabled (setStatus (UpdatedText now) live (setContent ct st2)))
    with (isNil teams).
  destruct teams; simpl; split; congruence.
Qed.

Lemma X16_filter_across_load_witness :
  let st' := loadData (fun l => l) "undefined has no properties"
               (Resolve (Some exampleTable)) "9:05 AM"
               goldPicked in
  collectTeams (fun l => l) (parseRounds exampleTable)
    = ["Red"; "Blue"; "Green"; "Gold"]
  /\ filterOptions st' = ["Red"; "Blue"; "Green"; "Gold"]
  /\ activeTeamFilter st' = filterValue st'
  /\ activeTeamFilter st' = "Gold".
Proof.
  split; [reflexivity|].
  destruct (X16_filter_across_load (fun l => l) "undefined has no properties"
              exampleTable "9:05 AM" goldPicked eq_refl)
    as (H1 & H2 & H3 & _).
  split; [exact H1|]. split; [exact H2|].
  apply H3. right. right. right. left. reflexivity.
Defined.
